(** * BINRPC codec of go-kamailio-binrpc (v3): a shallow embedding

    The development follows the v3 source of the package ([package binrpc],
    with [Header], [Record], [StructItem], [Encode], [CreateRecord],
    [ReadHeader], [ReadRecord], [ReadPacket], [WritePacket],
    [getMinBinarySizeOfInt] and [intToBytesBE]), the version its README and
    tests describe.  The legacy v1 sizing function is kept in [Module V1], and
    the v1 package itself, the module at the root of the repository, in
    [Module Legacy].

    Conventions of the embedding:
    - Go's [int] is the 64-bit signed integer of the usual targets; [uint8]
      and [uint32] are unsigned.  All of them are carried by [Z] and every
      conversion or operation that can leave the range has its wrap-around
      written out ([wrap_int], [wrap_uint32], [wrap_uint8]).
    - a byte of a stream is a [Byte.byte]; a Go [string] is its byte
      sequence, [list byte].
    - [float64] is the primitive binary64 float of the kernel.
    - an [io.Reader] is an interface ([Class Reader]); the two readers the
      package and its tests use, [bytes.Reader] and [bufio.Reader], are its
      instances, written after Go's standard library, as are [io.ReadFull],
      [bytes.Buffer] and [bufio.Writer].
    - state is passed explicitly: a function that reads or writes returns
      its reader or writer afterwards, also when it fails.
    - [ReadRecord] calls itself through the loop of its struct case, on input
      it has not yet seen: its body is [ReadRecord_step], with the loop as a
      parameter, and the recursion is tied with fuel ([ReadRecord_fuel]).  On
      a [bytes.Reader] the fuel is shown never to run out, and [ReadRecord]
      has its equation free of fuel ([ReadRecord_total], [ReadRecord_eq]).
    - memory allocation ([make]) always succeeds.

    The file has the definitions first (the program, then the notions the
    statements need), then the lemmas and the theorems on the claims C1 to
    C10 of the specification, then further properties of the code, of v3 and
    of v1. *)

From Stdlib Require Import ZArith List Lia Bool Floats Uint63.
From Stdlib.Strings Require Import Byte.
From Stdlib.Strings Require String.
Import String.StringSyntax.
Import ListNotations.
Delimit Scope string_scope with string.
Bind Scope string_scope with String.string.
Open Scope Z_scope.

(** ** Machine integers and bytes *)

Definition byte := Byte.byte.

(** [int(b)], [uint32(b)] for a byte [b]. *)
Definition Z_of_byte (b : byte) : Z := Z.of_N (Byte.to_N b).

(** [byte(x)]: the low eight bits. *)
Definition byte_of_Z (z : Z) : byte :=
  match Byte.of_N (Z.to_N (z mod 256)) with
  | Some b => b
  | None => Byte.x00
  end.

Definition wrap_uint8 (z : Z) : Z := z mod 2 ^ 8.
Definition wrap_uint32 (z : Z) : Z := z mod 2 ^ 32.
Definition wrap_int (z : Z) : Z := (z + 2 ^ 63) mod 2 ^ 64 - 2 ^ 63.

(** [a + b] and [a << k] on [int]. *)
Definition int_add (a b : Z) : Z := wrap_int (a + b).
Definition int_shl (a k : Z) : Z := wrap_int (Z.shiftl a k).

(** [float64(n)] for an [int] [n]: the nearest binary64, ties to even. *)
Definition float64_of_int (n : Z) : float :=
  if n =? - 2 ^ 63 then PrimFloat.opp (Z.ldexp 1%float 63)
  else if n <? 0 then PrimFloat.opp (PrimFloat.of_uint63 (Uint63.of_Z (- n)))
  else PrimFloat.of_uint63 (Uint63.of_Z n).

(** [int(f)] for a [float64] [f]: the fraction is discarded.  Outside the
    range of [int] (and for NaN) Go leaves the result to the implementation;
    the value taken here is the one amd64 produces. *)
Definition int_of_float64 (f : float) : Z :=
  match Prim2SF f with
  | S754_zero _ => 0
  | S754_finite s m e =>
      let mag := if 0 <=? e then Z.shiftl (Zpos m) e else Z.shiftr (Zpos m) (- e) in
      let v := if s then - mag else mag in
      if (- 2 ^ 63 <=? v) && (v <? 2 ^ 63) then v else - 2 ^ 63
  | _ => - 2 ^ 63
  end.

(** ** Constants *)

Definition BinRPCMagic : Z := 0xA.
Definition BinRPCVersion : Z := 0x1.

Definition TypeInt : Z := 0x0.
Definition TypeString : Z := 0x1.
Definition TypeDouble : Z := 0x2.
Definition TypeStruct : Z := 0x3.
Definition TypeArray : Z := 0x4.
Definition TypeAVP : Z := 0x5.
Definition TypeBytes : Z := 0x6.

Definition MaxSizeOfLength : Z := 4.

(** ** Variable-length integers *)

(** The loop of [getMinBinarySizeOfInt]: [size] counts down from 4 while the
    top byte of the 32-bit [n] is zero, [n] being shifted left each time. *)
Fixpoint getMinBinarySizeOfInt_loop (size : nat) (n : Z) : nat :=
  match size with
  | O => O
  | S size' =>
      if Z.land n (Z.shiftl 0xff 24) =? 0
      then getMinBinarySizeOfInt_loop size' (wrap_uint32 (Z.shiftl n 8))
      else size
  end.

Definition getMinBinarySizeOfInt (value : Z) : Z :=
  Z.of_nat (getMinBinarySizeOfInt_loop 4 (wrap_uint32 value)).

(** [bytes[i] = b] on a slice. *)
Fixpoint store (i : nat) (b : byte) (bytes : list byte) : list byte :=
  match bytes, i with
  | [], _ => []
  | _ :: tl, O => b :: tl
  | hd :: tl, S i' => hd :: store i' b tl
  end.

(** The loop of [intToBytesBE]: [bytes[size-1] = byte(n); n >>= 8]. *)
Fixpoint intToBytesBE_loop (size : nat) (n : Z) (bytes : list byte) : list byte :=
  match size with
  | O => bytes
  | S size' => intToBytesBE_loop size' (Z.shiftr n 8) (store size' (byte_of_Z n) bytes)
  end.

Definition intToBytesBE (n : Z) : list byte :=
  let size := Z.to_nat (getMinBinarySizeOfInt n) in
  intToBytesBE_loop size n (repeat Byte.x00 size).

(** The v1 sizing function (the module at the root of the repository): the
    width of the smallest of [int8], [int16], [int32], [int64] holding [n]. *)
Module V1.
Definition getMinBinarySizeOfInt (n : Z) : Z :=
  if (-128 <=? n) && (n <=? 127) then 1
  else if (-32768 <=? n) && (n <=? 32767) then 2
  else if (-2147483648 <=? n) && (n <=? 2147483647) then 4
  else 8.
End V1.

(** ** Errors *)

(** Errors of the byte streams themselves ([io.EOF], [io.ErrUnexpectedEOF],
    or whatever the caller's connection reports). *)
Inductive io_error : Type :=
| EOF
| ErrUnexpectedEOF
| ErrDevice (code : Z).

(** The field a failed read or write was about (the text of the message). *)
Inductive field : Type :=
| FHeader | FTotalLength | FCookie
| FRecordHeader | FRecordSize | FRecordValue
| FPayload.

(** The error values of the package, one constructor per message. *)
Inductive error : Type :=
| IOError (e : io_error)                      (* a stream error, returned as is *)
| errEndOfStruct                              (* END_OF_STRUCT *)
| ErrCannotRead (what : field) (cause : io_error)      (* cannot read ...: %w *)
| ErrShortRead (what : field) (read want : Z)          (* cannot read ...: read=%d/%d *)
| ErrMagic (got : Z)                          (* magic field did not match *)
| ErrVersion (got : Z)                        (* version did not match *)
| ErrStructKey (type : Z)                     (* struct contains something else than avp: %d *)
| ErrTypeNotImplemented (type : Z)            (* type error: type %d not implemented *)
| ErrExpectedType (type : Z)                  (* type error: expected type int|string|float64 *)
| ErrCookieMismatch                           (* expected cookie did not match *)
| ErrMissingValues                            (* missing values *)
| ErrPacketLengthTooBig (len max : Z)         (* packet length too big: %d/%d bytes *)
| ErrCannotWrite (what : field) (cause : io_error).    (* cannot write ...: err=%v *)

Inductive result (A : Type) : Type :=
| Ok (a : A)
| Error (e : error).
Arguments Ok {A} a.
Arguments Error {A} e.

(** ** Data model *)

Record Header : Type := mkHeader { PayloadLength : Z; Cookie : Z }.

(** [Record], the dynamic [Value any] it carries, and [StructItem]. *)
Inductive Record : Type :=
| mkRecord (size : Z) (Type_ : Z) (Value : any)
with any : Type :=
| Nil
| Int (v : Z)
| String (s : list byte)
| Float64 (f : float)
| Items (items : list StructItem)
with StructItem : Type :=
| mkStructItem (Key : list byte) (Value : Record).

Definition size (record : Record) : Z := let 'mkRecord s _ _ := record in s.
Definition Type_ (record : Record) : Z := let 'mkRecord _ t _ := record in t.
Definition Value (record : Record) : any := let 'mkRecord _ _ v := record in v.

Definition Key (item : StructItem) : list byte := let 'mkStructItem k _ := item in k.
Definition ItemValue (item : StructItem) : Record := let 'mkStructItem _ v := item in v.

(** The host values [WritePacket] and [CreateRecord] accept
    ([ValidTypes]: int | string | float64). *)
Inductive ValidTypes : Type :=
| VInt (v : Z)
| VString (s : list byte)
| VFloat64 (f : float).

(** ** Readers *)

(** [io.Reader]: [Read r n] is [r.Read(buf)] with [len(buf) = n]; it gives the
    bytes put in [buf] (their number is Go's first result), the error, and the
    reader afterwards. *)
Class Reader (R : Type) : Type :=
  Read : R -> Z -> (list byte * option io_error) * R.

(** [bytes.Reader], by its unread bytes.  At the end of the data every read,
    also of zero bytes, reports [io.EOF]. *)
Definition bytes_Reader : Type := list byte.

Definition bytes_Read (r : bytes_Reader) (n : Z) : (list byte * option io_error) * bytes_Reader :=
  match r with
  | [] => (([], Some EOF), r)
  | _ :: _ =>
      let k := Z.to_nat (Z.min n (Z.of_nat (length r))) in
      ((firstn k r, None), skipn k r)
  end.

#[export] Instance bytes_Reader_Reader : Reader bytes_Reader := bytes_Read.

(** [bufio.Reader] over a reader [rd]: [buf] is the buffered, not yet
    delivered data, [err] the error kept from the last read of [rd]. *)
Record bufio_Reader (R : Type) : Type :=
  mkBufio { buf : list byte; rd : R; err : option io_error }.
Arguments mkBufio {R} buf rd err.
Arguments buf {R} b.
Arguments rd {R} b.
Arguments err {R} b.

Definition defaultBufSize : Z := 4096.

Definition bufio_NewReader {R : Type} (r : R) : bufio_Reader R := mkBufio [] r None.

(** The end of [bufio.Reader.Read]: copy as much as asked from the buffer. *)
Definition bufio_copy {R : Type} (b : bufio_Reader R) (n : Z)
  : (list byte * option io_error) * bufio_Reader R :=
  let k := Z.to_nat (Z.min n (Z.of_nat (length (buf b)))) in
  ((firstn k (buf b), None), mkBufio (skipn k (buf b)) (rd b) (err b)).

Definition bufio_Read {R : Type} `{Reader R} (b : bufio_Reader R) (n : Z)
  : (list byte * option io_error) * bufio_Reader R :=
  if n =? 0 then
    match buf b with
    | _ :: _ => (([], None), b)
    | [] => (([], err b), mkBufio [] (rd b) None)
    end
  else
    match buf b with
    | _ :: _ => bufio_copy b n
    | [] =>
        match err b with
        | Some e => (([], Some e), mkBufio [] (rd b) None)
        | None =>
            if defaultBufSize <=? n then
              (* large read, empty buffer: read directly *)
              match Read (rd b) n with
              | ((data, e), rd') => ((data, e), mkBufio [] rd' None)
              end
            else
              (* one read of the underlying reader into the buffer *)
              match Read (rd b) defaultBufSize with
              | (([], e), rd') => (([], e), mkBufio [] rd' None)
              | ((data, e), rd') => bufio_copy (mkBufio data rd' e) n
              end
        end
    end.

#[export] Instance bufio_Reader_Reader {R : Type} `{Reader R} : Reader (bufio_Reader R) :=
  bufio_Read.

(** [io.ReadAtLeast]'s loop, [for n < min && err == nil]: [got] is [buf[:n]].
    The loop has no bound of its own (a reader may keep returning nothing), so
    the model counts iterations with [fuel]; [None] is "fuel exhausted". *)
Fixpoint ReadAtLeast_loop {R : Type} `{Reader R} (fuel : nat) (r : R)
    (len min : Z) (got : list byte) (e : option io_error)
  : option ((list byte * option io_error) * R) :=
  if (Z.of_nat (length got) <? min) && (match e with None => true | Some _ => false end) then
    match fuel with
    | O => None
    | S fuel' =>
        match Read r (len - Z.of_nat (length got)) with
        | ((data, e'), r') => ReadAtLeast_loop fuel' r' len min (got ++ data) e'
        end
    end
  else Some ((got, e), r).

(** [io.ReadFull(r, buf)] with [len(buf) = len]. *)
Definition ReadFull {R : Type} `{Reader R} (r : R) (len : Z)
  : option ((list byte * option io_error) * R) :=
  match ReadAtLeast_loop (S (Z.to_nat len)) r len len [] None with
  | None => None
  | Some ((got, e), r') =>
      if len <=? Z.of_nat (length got) then Some ((got, None), r')
      else
        match got, e with
        | _ :: _, Some EOF => Some ((got, Some ErrUnexpectedEOF), r')
        | _, _ => Some ((got, e), r')
        end
  end.

(** ** Decoding *)

Section Decoding.
Context {R : Type} `{Reader R}.

(** The reading idiom of the package:
    [if len, err := r.Read(buf); err != nil {...} else if len != size {...}]. *)
Definition readField (what : field) (r : R) (size : Z) : result (list byte) * R :=
  match Read r size with
  | ((_, Some e), r') => (Error (ErrCannotRead what e), r')
  | ((data, None), r') =>
      if Z.of_nat (length data) =? size then (Ok data, r')
      else (Error (ErrShortRead what (Z.of_nat (length data)) size), r')
  end.

(** [for _, b := range buf { x = x<<8 + int(b) }] on [int]. *)
Definition accumulate (buf : list byte) : Z :=
  fold_left (fun x b => int_add (int_shl x 8) (Z_of_byte b)) buf 0.

(** [for _, b := range buf { c = c<<8 | uint32(b) }] on [uint32]. *)
Definition accumulate_uint32 (buf : list byte) : Z :=
  fold_left (fun c b => Z.lor (wrap_uint32 (Z.shiftl c 8)) (Z_of_byte b)) buf 0.

Definition ReadHeader (r : R) : result Header * R :=
  match readField FHeader r 2 with
  | (Error e, r) => (Error e, r)
  | (Ok buf, r) =>
      let b0 := Z_of_byte (nth 0 buf Byte.x00) in
      let b1 := Z_of_byte (nth 1 buf Byte.x00) in
      let magic := Z.shiftr b0 4 in
      if negb (magic =? BinRPCMagic) then (Error (ErrMagic magic), r) else
      let version := Z.land b0 0x0F in
      if negb (version =? BinRPCVersion) then (Error (ErrVersion version), r) else
      let sizeOfLength := wrap_uint8 (Z.shiftr (Z.land b1 0x0C) 2 + 1) in
      let sizeOfCookie := wrap_uint8 (Z.land b1 0x3 + 1) in
      match readField FTotalLength r sizeOfLength with
      | (Error e, r) => (Error e, r)
      | (Ok buf, r) =>
          let payloadLength := accumulate buf in
          match readField FCookie r sizeOfCookie with
          | (Error e, r) => (Error e, r)
          | (Ok cookieBytes, r) =>
              (Ok (mkHeader payloadLength (accumulate_uint32 cookieBytes)), r)
          end
      end
  end.

(** [avpName.Value.(string)]; the assertion cannot fail on a record of type
    [TypeAVP], whose value [ReadRecord] always makes a string. *)
Definition string_of_any (v : any) : list byte :=
  match v with
  | String s => s
  | _ => []
  end.

(** The first half of [ReadRecord], up to its [switch]: the header byte, the
    end-of-struct mark, the explicit size and the value bytes.  It gives
    [record.size] and [record.Type] as set so far, [size] and [buf]. *)
Definition ReadRecord_front (r : R) : result (Z * Z * Z * list byte) * R :=
  match readField FRecordHeader r 1 with
  | (Error e, r) => (Error e, r)
  | (Ok buf, r) =>
      let b0 := Z_of_byte (nth 0 buf Byte.x00) in
      let flag := Z.shiftr b0 7 in
      let size0 := Z.land (Z.shiftr b0 4) 0x7 in
      let rsize := int_add 1 size0 in
      let rtype := Z.land b0 0x0F in
      if (flag =? 1) && (size0 =? 0) && (rtype =? TypeStruct) then
        (* this marks the end of a struct *)
        (Error errEndOfStruct, r)
      else
        match
          (if flag =? 1 then
             match readField FRecordSize r size0 with
             | (Error e, r) => (Error e, r)
             | (Ok buf, r) =>
                 let size1 := accumulate buf in
                 (Ok (size1, int_add rsize size1), r)
             end
           else (Ok (size0, rsize), r))
        with
        | (Error e, r) => (Error e, r)
        | (Ok (size1, rsize), r) =>
            match (if size1 =? 0 then (Ok [], r) else readField FRecordValue r size1) with
            | (Error e, r) => (Error e, r)
            | (Ok buf, r) => (Ok (rsize, rtype, size1, buf), r)
            end
        end
  end.

(** [ReadRecord], with the [for] loop of its [TypeStruct] case as the
    parameter [structLoop]. *)
Definition ReadRecord_step
    (structLoop : R -> Z -> list StructItem -> option (result (Z * list StructItem) * R))
    (r : R) : option (result Record * R) :=
  match ReadRecord_front r with
  | (Error e, r) => Some (Error e, r)
  | (Ok (rsize, rtype, size1, buf), r) =>
      if (rtype =? TypeAVP) || (rtype =? TypeString) then
        Some (Ok (mkRecord rsize rtype
                    (String (if size1 =? 0 then [] else removelast buf))), r)
      else if rtype =? TypeInt then
        Some (Ok (mkRecord rsize rtype
                    (Int (if size1 =? 0 then 0 else accumulate buf))), r)
      else if rtype =? TypeDouble then
        (* double are implemented as int*1000 *)
        Some (Ok (mkRecord rsize rtype
                    (Float64 (PrimFloat.div (float64_of_int (accumulate buf))
                                            1000%float))), r)
      else if rtype =? TypeStruct then
        match structLoop r rsize [] with
        | None => None
        | Some (Error e, r) => Some (Error e, r)
        | Some (Ok (rsize, items), r) =>
            Some (Ok (mkRecord rsize rtype (Items items)), r)
        end
      else Some (Error (ErrTypeNotImplemented rtype), r)
  end.

(** One turn of that [for] loop: [readRecord] is [ReadRecord] and [next] the
    rest of the loop; [rsize] is [record.size]. *)
Definition readStructItems_step
    (readRecord : R -> option (result Record * R))
    (next : R -> Z -> list StructItem -> option (result (Z * list StructItem) * R))
    (r : R) (rsize : Z) (items : list StructItem)
  : option (result (Z * list StructItem) * R) :=
  match readRecord r with
  | None => None
  | Some (Error errEndOfStruct, r) => Some (Ok (int_add rsize 1, items), r)
  | Some (Error e, r) => Some (Error e, r)
  | Some (Ok avpName, r) =>
      if negb (Type_ avpName =? TypeAVP) then
        Some (Error (ErrStructKey (Type_ avpName)), r)
      else
        let rsize := int_add rsize (size avpName) in
        match readRecord r with
        | None => None
        | Some (Error e, r) => Some (Error e, r)
        | Some (Ok avpValue, r) =>
            let items := items ++ [mkStructItem (string_of_any (Value avpName)) avpValue] in
            next r (int_add rsize (size avpValue)) items
        end
  end.

(** The recursion follows the input, not an argument, so [ReadRecord] and its
    loop carry [fuel]; [None] is "fuel exhausted" and is no result of the
    program. *)
Fixpoint ReadRecord_fuel (fuel : nat) (r : R) {struct fuel} : option (result Record * R) :=
  match fuel with
  | O => None
  | S fuel' => ReadRecord_step (readStructItems_fuel fuel') r
  end
with readStructItems_fuel (fuel : nat) (r : R) (rsize : Z) (items : list StructItem)
    {struct fuel} : option (result (Z * list StructItem) * R) :=
  match fuel with
  | O => None
  | S fuel' =>
      readStructItems_step (ReadRecord_fuel fuel') (readStructItems_fuel fuel') r rsize items
  end.

End Decoding.

(** [ReadRecord] on a [bytes.Reader], the reader of the tests and of
    [ReadPacket]: every call consumes a byte before it recurses, so twice the
    length of the input (and one) is fuel enough ([ReadRecord_total]). *)
Definition ReadRecord (r : bytes_Reader) : option (result Record * bytes_Reader) :=
  ReadRecord_fuel (2 * length r + 1) r.

Definition readStructItems (r : bytes_Reader) (rsize : Z) (items : list StructItem)
  : option (result (Z * list StructItem) * bytes_Reader) :=
  readStructItems_fuel (2 * length r + 2) r rsize items.

(** The [for read < header.PayloadLength] loop of [ReadPacket]. *)
Fixpoint ReadPacket_loop (fuel : nat) (payload : bytes_Reader) (payloadLength read : Z)
    (records : list Record) : option (result (list Record)) :=
  if read <? payloadLength then
    match fuel with
    | O => None
    | S fuel' =>
        match ReadRecord payload with
        | None => None
        | Some (Error e, _) => Some (Error e)
        | Some (Ok record, payload) =>
            ReadPacket_loop fuel' payload payloadLength
                            (int_add read (size record)) (records ++ [record])
        end
    end
  else Some (Ok records).

(** [ReadPacket]: the result and the [bufio.Reader] it leaves behind (its [rd]
    is the caller's stream [r] afterwards, its [buf] what was taken from [r]
    and not used). *)
Definition ReadPacket {R : Type} `{Reader R} (r : R) (expectedCookie : Z)
  : option (result (list Record) * bufio_Reader R) :=
  let bufreader := bufio_NewReader r in
  match ReadHeader bufreader with
  | (Error e, bufreader) => Some (Error e, bufreader)
  | (Ok header, bufreader) =>
      if negb (expectedCookie =? 0) && negb (expectedCookie =? Cookie header) then
        Some (Error ErrCookieMismatch, bufreader)
      else
        match ReadFull bufreader (PayloadLength header) with
        | None => None
        | Some ((_, Some e), bufreader) => Some (Error (IOError e), bufreader)
        | Some ((payloadBytes, None), bufreader) =>
            match ReadPacket_loop (S (length payloadBytes)) payloadBytes
                                  (PayloadLength header) 0 [] with
            | None => None
            | Some res => Some (res, bufreader)
            end
        end
  end.

(** ** Writers *)

(** [io.Writer]: [Write w p] writes all of [p] or reports an error (the
    contract of [io.Writer]; how much of [p] a failed write delivered is part
    of the writer's state afterwards). *)
Class Writer (W : Type) : Type :=
  Write : W -> list byte -> option io_error * W.

(** [bytes.Buffer], by its contents; its [Write] never fails. *)
Definition bytes_Buffer : Type := list byte.

#[export] Instance bytes_Buffer_Writer : Writer bytes_Buffer :=
  fun w p => (None, w ++ p).

(** [bufio.Writer] over a writer [wr]. *)
Record bufio_Writer (W : Type) : Type :=
  mkBufioW { wbuf : list byte; wr : W; werr : option io_error }.
Arguments mkBufioW {W} wbuf wr werr.
Arguments wbuf {W} b.
Arguments wr {W} b.
Arguments werr {W} b.

Definition bufio_NewWriter {W : Type} (w : W) : bufio_Writer W := mkBufioW [] w None.

Definition bufio_Flush {W : Type} `{Writer W} (b : bufio_Writer W)
  : option io_error * bufio_Writer W :=
  match werr b with
  | Some e => (Some e, b)
  | None =>
      match wbuf b with
      | [] => (None, b)
      | _ :: _ =>
          match Write (wr b) (wbuf b) with
          | (Some e, w') => (Some e, mkBufioW (wbuf b) w' (Some e))
          | (None, w') => (None, mkBufioW [] w' None)
          end
      end
  end.

(** [bufio.Writer.Write]: data that fits is buffered; otherwise the buffer is
    filled and flushed, or, when it is empty, the data goes to [wr] directly. *)
Definition bufio_Write {W : Type} `{Writer W} (b : bufio_Writer W) (p : list byte)
  : option io_error * bufio_Writer W :=
  match werr b with
  | Some e => (Some e, b)
  | None =>
      let avail := defaultBufSize - Z.of_nat (length (wbuf b)) in
      if Z.of_nat (length p) <=? avail then (None, mkBufioW (wbuf b ++ p) (wr b) None)
      else
        match wbuf b with
        | [] =>
            match Write (wr b) p with
            | (e, w') => (e, mkBufioW [] w' e)
            end
        | _ :: _ =>
            let k := Z.to_nat avail in
            match bufio_Flush (mkBufioW (wbuf b ++ firstn k p) (wr b) None) with
            | (Some e, b') => (Some e, b')
            | (None, b') =>
                let p' := skipn k p in
                if Z.of_nat (length p') <=? defaultBufSize
                then (None, mkBufioW p' (wr b') None)
                else
                  match Write (wr b') p' with
                  | (e, w') => (e, mkBufioW [] w' e)
                  end
            end
        end
  end.

(** ** Encoding *)

Section Encoding.
Context {W : Type} `{Writer W}.

(** [_, err := w.Write(p); return err]. *)
Definition write_all (w : W) (p : list byte) : option error * W :=
  match Write w p with
  | (Some e, w') => (Some (IOError e), w')
  | (None, w') => (None, w')
  end.

(** The second half of [Encode]: the record header before the [value]. *)
Definition Encode_frame (type : Z) (value : list byte) : list byte :=
  let sizeOfValue := Z.of_nat (length value) in
  if sizeOfValue <? 8 then
    (* this can fit in 3 bits *)
    let header := Z.lor (wrap_uint8 (Z.shiftl sizeOfValue 4)) type in
    byte_of_Z header :: value
  else
    let sizeBytes := intToBytesBE sizeOfValue in
    let header :=
      Z.lor (Z.lor (Z.shiftl 1 7) (wrap_uint8 (Z.shiftl (Z.of_nat (length sizeBytes)) 4))) type in
    byte_of_Z header :: sizeBytes ++ value.

Definition Encode (record : Record) (w : W) : option error * W :=
  if Type_ record =? TypeInt then
    match Value record with
    | Int v =>
        (* shortcut! *)
        if v =? 0 then write_all w [Byte.x00]
        else write_all w (Encode_frame (Type_ record) (intToBytesBE v))
    | _ => (Some (ErrExpectedType TypeInt), w)
    end
  else if Type_ record =? TypeString then
    match Value record with
    | String s => write_all w (Encode_frame (Type_ record) (s ++ [Byte.x00]))
    | _ => (Some (ErrExpectedType TypeString), w)
    end
  else if Type_ record =? TypeDouble then
    match Value record with
    | Float64 v =>
        write_all w (Encode_frame (Type_ record)
                       (intToBytesBE (int_of_float64 (PrimFloat.mul v 1000%float))))
    | _ => (Some (ErrExpectedType TypeDouble), w)
    end
  else (Some (ErrTypeNotImplemented (Type_ record)), w).

End Encoding.

Definition CreateRecord (v : ValidTypes) : result Record :=
  match v with
  | VString s => Ok (mkRecord 0 TypeString (String s))
  | VInt i => Ok (mkRecord 0 TypeInt (Int i))
  | VFloat64 f => Ok (mkRecord 0 TypeDouble (Float64 f))
  end.

(** The [for _, v := range values] loop of [WritePacket], on its [payload]
    buffer. *)
Fixpoint WritePacket_loop (values : list ValidTypes) (payload : bytes_Buffer)
  : result bytes_Buffer :=
  match values with
  | [] => Ok payload
  | v :: values' =>
      match CreateRecord v with
      | Error e => Error e
      | Ok record =>
          match Encode record payload with
          | (Some e, _) => Error e
          | (None, payload') => WritePacket_loop values' payload'
          end
      end
  end.

(** The two bytes that open a packet header, as [WritePacket] computes them;
    [|] and [-] have the same precedence in Go and associate to the left. *)
Definition WritePacket_header (lengthBE cookieBytes : list byte) : list byte :=
  let l := Z.of_nat (length lengthBE) in
  let c := Z.of_nat (length cookieBytes) in
  [ byte_of_Z (Z.lor (wrap_uint8 (Z.shiftl BinRPCMagic 4)) BinRPCVersion);
    byte_of_Z (int_add (Z.lor (int_shl (int_add l (-1)) 2) c) (-1)) ]
  ++ lengthBE ++ cookieBytes.

(** [WritePacket]; [rand_Uint32] is the value [rand.Uint32()] returns.  The
    result comes with the caller's sink afterwards. *)
Definition WritePacket {W : Type} `{Writer W} (w : W) (values : list ValidTypes)
    (rand_Uint32 : Z) : result Z * W :=
  match values with
  | [] => (Error ErrMissingValues, w)
  | _ :: _ =>
      match WritePacket_loop values [] with
      | Error e => (Error e, w)
      | Ok payload =>
          let cookie := wrap_uint32 rand_Uint32 in
          let cookieBytes := intToBytesBE cookie in
          let lengthBE := intToBytesBE (Z.of_nat (length payload)) in
          if MaxSizeOfLength <? Z.of_nat (length lengthBE) then
            (Error (ErrPacketLengthTooBig (Z.of_nat (length lengthBE)) MaxSizeOfLength), w)
          else
            let header := WritePacket_header lengthBE cookieBytes in
            let writer := bufio_NewWriter w in
            match bufio_Write writer header with
            | (Some e, writer) => (Error (ErrCannotWrite FHeader e), wr writer)
            | (None, writer) =>
                match bufio_Write writer payload with
                | (Some e, writer) => (Error (ErrCannotWrite FPayload e), wr writer)
                | (None, writer) =>
                    match bufio_Flush writer with
                    | (Some e, writer) => (Error (IOError e), wr writer)
                    | (None, writer) => (Ok cookie, wr writer)
                    end
                end
            end
      end
  end.

(** ** Specification-side notions *)

(** *** Sizes of integers *)

(** Big-endian value of a byte string, without wrap-around. *)
Definition be_value (bytes : list byte) : Z :=
  fold_left (fun acc b => acc * 256 + Z_of_byte b) bytes 0.

(** The low [k] bytes of [n], most significant first. *)
Fixpoint be_bytes (k : nat) (n : Z) : list byte :=
  match k with
  | O => []
  | S k' => be_bytes k' (Z.shiftr n 8) ++ [byte_of_Z n]
  end.

(** [k] bytes hold [n] in two's complement. *)
Definition fits_twos_complement (k n : Z) : Prop :=
  - 2 ^ (8 * k - 1) <= n < 2 ^ (8 * k - 1).

(** [k] bytes hold [n] as an unsigned number. *)
Definition fits_unsigned (k n : Z) : Prop := 0 <= n < 2 ^ (8 * k).

(** The least number of bytes that hold the 32-bit value [m] as an unsigned
    number. *)
Definition unsigned_size (m : Z) : Z :=
  if m =? 0 then 0
  else if m <? 2 ^ 8 then 1
  else if m <? 2 ^ 16 then 2
  else if m <? 2 ^ 24 then 3
  else 4.

(** [k] is the size the specification asks of [getMinBinarySizeOfInt] for
    [n]: the least of 1, 2, 3, 4 that holds [n] in two's complement. *)
Definition minimal_twos_complement_size (n k : Z) : Prop :=
  1 <= k <= 4 /\ fits_twos_complement k n /\
  forall j, 1 <= j < k -> ~ fits_twos_complement j n.

(** *** Round trips *)

(** Go's [==] between the host value encoded and the value decoded. *)
Definition same_value (v : ValidTypes) (a : any) : Prop :=
  match v, a with
  | VInt i, Int j => i = j
  | VString s, String t => s = t
  | VFloat64 f, Float64 g => PrimFloat.eqb f g = true
  | _, _ => False
  end.

(** The type tag [CreateRecord] gives a host value. *)
Definition type_of (v : ValidTypes) : Z :=
  match v with
  | VInt _ => TypeInt
  | VString _ => TypeString
  | VFloat64 _ => TypeDouble
  end.

(** [CreateRecord], [Encode] into an empty buffer, [ReadRecord] of the bytes. *)
Definition roundtrip (v : ValidTypes) : option (result Record * bytes_Reader) :=
  match CreateRecord v with
  | Error e => Some (Error e, [])
  | Ok record =>
      match Encode record ([] : bytes_Buffer) with
      | (Some e, _) => Some (Error e, [])
      | (None, wire) => ReadRecord wire
      end
  end.

(** The host values the codec carries faithfully: integers of 0..2^32-1,
    strings whose length with the NUL fits 32 bits, and doubles whose
    thousandfold, cut to an integer, is in 0..2^32-1 and gives the double back
    when divided by 1000. *)
Definition representable (v : ValidTypes) : Prop :=
  match v with
  | VInt i => 0 <= i < 2 ^ 32
  | VString s => Z.of_nat (length s) + 1 < 2 ^ 32
  | VFloat64 f =>
      let k := int_of_float64 (PrimFloat.mul f 1000%float) in
      0 <= k < 2 ^ 32 /\
      PrimFloat.eqb f (PrimFloat.div (float64_of_int k) 1000%float) = true
  end.

(** *** Structs and packets on the wire *)

(** The pairs the wire holds from [r] on, read in order: a key record of type
    [TypeAVP], then a value record, up to [r']. *)
Inductive wire_pairs : bytes_Reader -> list StructItem -> bytes_Reader -> Prop :=
| wire_pairs_nil (r : bytes_Reader) : wire_pairs r [] r
| wire_pairs_cons (r r1 r2 r' : bytes_Reader) (key value : Record) (rest : list StructItem) :
    ReadRecord r = Some (Ok key, r1) ->
    Type_ key = TypeAVP ->
    ReadRecord r1 = Some (Ok value, r2) ->
    wire_pairs r2 rest r' ->
    wire_pairs r (mkStructItem (string_of_any (Value key)) value :: rest) r'.

(** The body of a struct on the wire: pairs, then the end mark. *)
Definition wire_items (r : bytes_Reader) (items : list StructItem) (r' : bytes_Reader) : Prop :=
  exists r2, wire_pairs r items r2 /\ ReadRecord r2 = Some (Error errEndOfStruct, r').

(** The records the wire holds from [r] up to [r'], read in order. *)
Inductive wire_records : bytes_Reader -> list Record -> bytes_Reader -> Prop :=
| wire_records_nil (r : bytes_Reader) : wire_records r [] r
| wire_records_cons (r r1 r' : bytes_Reader) (record : Record) (rest : list Record) :
    ReadRecord r = Some (Ok record, r1) ->
    wire_records r1 rest r' ->
    wire_records r (record :: rest) r'.

(** The sum of [record.size] over [records]. *)
Definition sum_sizes (records : list Record) : Z :=
  fold_right Z.add 0 (map size records).

(** [n + 1] structures, each but the innermost holding the next one under
    an empty key: 03 05 03 05 ... 03 83 ... 83 83. *)
Fixpoint nested (n : nat) : list byte :=
  match n with
  | O => [Byte.x03; Byte.x83]
  | S n' => [Byte.x03; Byte.x05] ++ nested n' ++ [Byte.x83]
  end.

(** The record [nested n] stands for, sizes as [ReadRecord] adds them up. *)
Fixpoint nested_record (n : nat) : Record :=
  match n with
  | O => mkRecord (int_add 1 1) TypeStruct (Items [])
  | S n' =>
      let inner := nested_record n' in
      mkRecord (int_add (int_add (int_add 1 1) (size inner)) 1) TypeStruct
               (Items [mkStructItem [] inner])
  end.

(** The nesting depth of a record: 0 for a scalar, one more than its deepest
    item for a struct. *)
Fixpoint depth (record : Record) : nat :=
  let 'mkRecord _ _ v := record in
  match v with
  | Items items =>
      S ((fix deepest (l : list StructItem) : nat :=
            match l with
            | [] => O
            | mkStructItem _ r :: l' => Nat.max (depth r) (deepest l')
            end) items)
  | _ => O
  end.

(** What a [bufio.Reader] over a [bytes.Reader] has yet to deliver: the
    buffered bytes, then those still in the underlying reader. *)
Definition unread (b : bufio_Reader bytes_Reader) : list byte := buf b ++ rd b.

(** *** Bytes taken by the decoder *)

(** What a result [x] of [ReadRecord] on the unread bytes [r] says about the
    bytes taken: the reader never goes back, a record and the end-of-struct
    mark take at least a byte, and [record.size] is positive and at most the
    number of bytes taken. *)
Definition record_consumption (r : bytes_Reader) (x : result Record * bytes_Reader) : Prop :=
  let (res, r') := x in
  (length r' <= length r)%nat /\
  match res with
  | Ok record =>
      (length r' < length r)%nat /\
      (Z.of_nat (length r) < 2 ^ 63 ->
       1 <= size record <= Z.of_nat (length r) - Z.of_nat (length r'))
  | Error errEndOfStruct => (length r' < length r)%nat
  | Error _ => True
  end.

(** The same for the struct loop entered with [record.size = rsize]. *)
Definition items_consumption (r : bytes_Reader) (rsize : Z)
    (x : result (Z * list StructItem) * bytes_Reader) : Prop :=
  let (res, r') := x in
  (length r' <= length r)%nat /\
  match res with
  | Ok (rsize', _) =>
      (length r' < length r)%nat /\
      (0 <= rsize -> rsize + Z.of_nat (length r) < 2 ^ 63 ->
       rsize + 1 <= rsize' <= rsize + Z.of_nat (length r) - Z.of_nat (length r'))
  | Error errEndOfStruct => (length r' < length r)%nat
  | Error _ => True
  end.

(** ** Further code of the package, and the notions its properties need *)

(** ** Typed access to a record *)

(** What a method of [Record] does: it returns a value, returns an error, or
    panics (a failed type assertion [record.Value.(T)], a nil pointer). *)
Inductive outcome (E A : Type) : Type :=
| Returns (a : A)
| Fails (e : E)
| Panics.
Arguments Returns {E A} a.
Arguments Fails {E A} e.
Arguments Panics {E A}.

(** The error of [String], [Int], [Double] and [StructItems]. *)
Inductive accessor_error : Type :=
| ErrWrongType (want got : Z).     (* type error: expected type T (%d), got %d *)

(** [func (record Record) String() (string, error)]. *)
Definition Record_String (record : Record) : outcome accessor_error (list byte) :=
  if negb (Type_ record =? TypeString) then Fails (ErrWrongType TypeString (Type_ record))
  else match Value record with
       | String s => Returns s
       | _ => Panics
       end.

(** [func (record Record) Int() (int, error)]. *)
Definition Record_Int (record : Record) : outcome accessor_error Z :=
  if negb (Type_ record =? TypeInt) then Fails (ErrWrongType TypeInt (Type_ record))
  else match Value record with
       | Int v => Returns v
       | _ => Panics
       end.

(** [func (record Record) Double() (float64, error)]. *)
Definition Record_Double (record : Record) : outcome accessor_error float :=
  if negb (Type_ record =? TypeDouble) then Fails (ErrWrongType TypeDouble (Type_ record))
  else match Value record with
       | Float64 v => Returns v
       | _ => Panics
       end.

(** [func (record *Record) StructItems() ([]StructItem, error)]. *)
Definition Record_StructItems (record : Record) : outcome accessor_error (list StructItem) :=
  if negb (Type_ record =? TypeStruct) then Fails (ErrWrongType TypeStruct (Type_ record))
  else match Value record with
       | Items v => Returns v
       | _ => Panics
       end.

(** The argument [dest] of [Scan]: a pointer to a string, an int, a float64
    or a slice of items, with what it points at ([None] for a nil pointer),
    or a value of any other type. *)
Inductive dest_value : Type :=
| PString (target : option (list byte))
| PInt (target : option Z)
| PFloat64 (target : option float)
| PItems (target : option (list StructItem))
| POther.

Inductive dest_type : Type := ToString | ToInt | ToDouble | ToStructItems.

(** The errors of [Scan]; [E] is the error type of [strconv]. *)
Inductive scan_error (E : Type) : Type :=
| ErrCannotConvert (got : Z) (to : dest_type)   (* type error: cannot convert type %d to T *)
| ErrInvalidDest                                (* invalid dest type *)
| ErrStrconv (e : E).                           (* the error of strconv, returned as is *)
Arguments ErrCannotConvert {E} got to.
Arguments ErrInvalidDest {E}.
Arguments ErrStrconv {E} e.

(** [*p = v]: the pointer afterwards, a panic if it is nil. *)
Definition assign {E A : Type} (p : option A) (v : A) (pointer : option A -> dest_value)
  : outcome E dest_value :=
  match p with
  | Some _ => Returns (pointer (Some v))
  | None => Panics
  end.

Section Scanning.
(** The functions of the standard library that [Scan] calls are parameters:
    [strconv.Itoa], [strconv.Atoi], [strconv.ParseFloat(s, 64)] and
    [fmt.Sprintf("%.3f", f)]. *)
Context {E : Type}.
Variable strconv_Itoa : Z -> list byte.
Variable strconv_Atoi : list byte -> Z + E.
Variable strconv_ParseFloat : list byte -> float + E.
Variable fmt_Sprintf_3f : float -> list byte.

(** [func (record *Record) Scan(dest any) error]: on success, [dest] with the
    value stored through it. *)
Definition Scan (record : Record) (dest : dest_value) : outcome (scan_error E) dest_value :=
  match dest with
  | PString s =>
      if Type_ record =? TypeString then
        match Value record with
        | String v => assign s v PString
        | _ => Panics
        end
      else if Type_ record =? TypeInt then
        match Value record with
        | Int v => assign s (strconv_Itoa v) PString
        | _ => Panics
        end
      else if Type_ record =? TypeDouble then
        match Value record with
        | Float64 v => assign s (fmt_Sprintf_3f v) PString
        | _ => Panics
        end
      else Fails (ErrCannotConvert (Type_ record) ToString)
  | PInt i =>
      if Type_ record =? TypeString then
        match Value record with
        | String v =>
            match strconv_Atoi v with
            | inl n => assign i n PInt
            | inr e => Fails (ErrStrconv e)
            end
        | _ => Panics
        end
      else if Type_ record =? TypeInt then
        match Value record with
        | Int v => assign i v PInt
        | _ => Panics
        end
      else Fails (ErrCannotConvert (Type_ record) ToInt)
  | PFloat64 f =>
      if Type_ record =? TypeString then
        match Value record with
        | String v =>
            match strconv_ParseFloat v with
            | inl value => assign f value PFloat64
            | inr e => Fails (ErrStrconv e)
            end
        | _ => Panics
        end
      else if Type_ record =? TypeInt then
        match Value record with
        | Int v => assign f (float64_of_int v) PFloat64
        | _ => Panics
        end
      else if Type_ record =? TypeDouble then
        match Value record with
        | Float64 v => assign f v PFloat64
        | _ => Panics
        end
      else Fails (ErrCannotConvert (Type_ record) ToDouble)
  | PItems items =>
      if negb (Type_ record =? TypeStruct) then
        Fails (ErrCannotConvert (Type_ record) ToStructItems)
      else
        match Value record with
        | Items v => assign items v PItems
        | _ => Panics
        end
  | POther => Fails ErrInvalidDest
  end.

End Scanning.

(** A record whose [Value] has the Go type its [Type] announces, as have the
    values of its items: [int] for [TypeInt], [string] for [TypeString] and
    [TypeAVP], [float64] for [TypeDouble], [[]StructItem] for [TypeStruct]. *)
Fixpoint well_typed (record : Record) : Prop :=
  let 'mkRecord _ t v := record in
  match v with
  | Nil => False
  | Int _ => t = TypeInt
  | String _ => t = TypeString \/ t = TypeAVP
  | Float64 _ => t = TypeDouble
  | Items items =>
      t = TypeStruct /\
      (fix all (l : list StructItem) : Prop :=
         match l with
         | [] => True
         | mkStructItem _ r :: l' => well_typed r /\ all l'
         end) items
  end.

(** A sink that records the [Write] calls it receives, one entry per call. *)
Definition write_log : Type := list (list byte).

#[export] Instance write_log_Writer : Writer write_log :=
  fun w p => (None, w ++ [p]).

(** The records met in [record]: itself and, if it is a struct, those met in
    the values of its items. *)
Inductive inside : Record -> Record -> Prop :=
| inside_self (record : Record) : inside record record
| inside_item (sub record : Record) (key : list byte) (items : list StructItem)
    (rsize rtype : Z) :
    In (mkStructItem key record) items ->
    inside sub record ->
    inside sub (mkRecord rsize rtype (Items items)).

(** [dest] is a nil pointer. *)
Definition nil_pointer (dest : dest_value) : Prop :=
  match dest with
  | PString None | PInt None | PFloat64 None | PItems None => True
  | _ => False
  end.

(** The bytes [Encode] writes for the record [CreateRecord] makes of a host
    value. *)
Definition encoding (v : ValidTypes) : list byte :=
  match CreateRecord v with
  | Ok record => snd (Encode record ([] : bytes_Buffer))
  | Error _ => []
  end.

(** A host value and the record decoded for it agree in type and value. *)
Definition decodes_to (v : ValidTypes) (record : Record) : Prop :=
  Type_ record = type_of v /\ same_value v (Value record).

(** ** The v1 package

    The module at the root of the repository ([binrpc.go]), the first version
    of the package: integers are written in the smallest of [int8], [int16],
    [int32] and [int64] with [encoding/binary], a struct is decoded into a
    [map[string]Record], a cookie is a byte slice, and there is no double.
    Readers, writers, [bufio] and [io.ReadFull] are those above. *)

Module Legacy.

(** The error values of v1, one constructor per variable or message. *)
Inductive error : Type :=
| IOError (e : io_error)                      (* a stream error, returned as is *)
| ErrBinarySize                               (* cannot get binary size of value *)
| ErrCookieMismatch                           (* cookie mismatch *)
| ErrLengthTooBig                             (* packet too big *)
| ErrTypeConvert                              (* cannot convert go type to binrpc type *)
| ErrTypeNotImpl                              (* type not implemented *)
| ErrWrongType                                (* wrong type requested *)
| errEndOfStruct                              (* END_OF_STRUCT *)
| ErrCannotRead (what : field) (err : option io_error) (len want : Z)
                                              (* cannot read ...: err=%v, len=%d/%d *)
| ErrMagic (got : Z)                          (* magic field did not match *)
| ErrVersion (got : Z)                        (* version did not match *)
| ErrStructKey (type : Z)                     (* struct contains something else than avp: %d *)
| ErrExpectedType (type : Z)                  (* type error: expected type int|string *)
| ErrTypeNotImplemented (type : Z)            (* type error: type %d not implemented *)
| ErrCannotWrite (what : field) (cause : io_error).    (* cannot write ...: err=%v *)

Inductive result (A : Type) : Type :=
| Ok (a : A)
| Error (e : error).
Arguments Ok {A} a.
Arguments Error {A} e.

(** [Header]: the cookie is the slice of its bytes. *)
Record Header : Type := mkHeader { PayloadLength : Z; Cookie : list byte }.

(** [Record] and its [Value interface{}]: an [int], a [string], a
    [map[string]Record], or a value of another type ([Other]).  A map is
    given by its entries, one per key. *)
Inductive Record : Type :=
| mkRecord (size : Z) (Type_ : Z) (Value : any)
with any : Type :=
| Nil
| Int (v : Z)
| String (s : list byte)
| Map (m : list (list byte * Record))
| Other.

Definition size (record : Record) : Z := let 'mkRecord s _ _ := record in s.
Definition Type_ (record : Record) : Z := let 'mkRecord _ t _ := record in t.
Definition Value (record : Record) : any := let 'mkRecord _ _ v := record in v.

(** [==] on strings. *)
Definition string_eqb (a b : list byte) : bool :=
  if list_eq_dec Byte.byte_eq_dec a b then true else false.

(** [m[key] = value] and [m[key]] on a map. *)
Definition map_insert (key : list byte) (value : Record) (m : list (list byte * Record))
  : list (list byte * Record) :=
  (key, value) :: filter (fun entry => negb (string_eqb (fst entry) key)) m.

Definition map_lookup (key : list byte) (m : list (list byte * Record)) : option Record :=
  match find (fun entry => string_eqb (fst entry) key) m with
  | Some (_, value) => Some value
  | None => None
  end.

(** The values [CreateRecord] and [WritePacket] are given ([interface{}]): a
    string, an int, or a value of another type. *)
Inductive value : Type :=
| VString (s : list byte)
| VInt (i : Z)
| VOther.

(** *** encoding/binary *)

(** The fixed-size data the package hands to [binary.Write]. *)
Inductive fixed : Type :=
| Int8 (v : Z) | Int16 (v : Z) | Int32 (v : Z) | Int64 (v : Z)
| Uint8 (v : Z) | Uint32 (v : Z)
| Bytes (b : list byte).

(** The bytes [binary.Write(w, binary.BigEndian, data)] writes: the two's
    complement of an integer, most significant byte first. *)
Definition binary_bytes (data : fixed) : list byte :=
  match data with
  | Int8 v | Uint8 v => be_bytes 1 v
  | Int16 v => be_bytes 2 v
  | Int32 v | Uint32 v => be_bytes 4 v
  | Int64 v => be_bytes 8 v
  | Bytes b => b
  end.

(** [binary.Size(data)]; it is -1 only for data that is not of fixed size. *)
Definition binary_Size (data : fixed) : Z := Z.of_nat (length (binary_bytes data)).

(** [binary.Write]: one [Write] of the bytes. *)
Definition binary_Write {W : Type} `{Writer W} (w : W) (data : fixed) : option io_error * W :=
  Write w (binary_bytes data).

(** [getMinBinarySizeOfInt]: the size and the value cast to that size. *)
Definition getMinBinarySizeOfInt (n : Z) : Z * fixed :=
  if (-128 <=? n) && (n <=? 127) then (1, Int8 n)
  else if (-32768 <=? n) && (n <=? 32767) then (2, Int16 n)
  else if (-2147483648 <=? n) && (n <=? 2147483647) then (4, Int32 n)
  else (8, Int64 n).

(** *** Accessors *)

Definition GetString (record : Record) : outcome error (list byte) :=
  if negb (Type_ record =? TypeString) then Fails ErrWrongType
  else match Value record with
       | String s => Returns s
       | _ => Panics
       end.

Definition GetInt (record : Record) : outcome error Z :=
  if negb (Type_ record =? TypeInt) then Fails ErrWrongType
  else match Value record with
       | Int v => Returns v
       | _ => Panics
       end.

Definition GetMap (record : Record) : outcome error (list (list byte * Record)) :=
  if negb (Type_ record =? TypeStruct) then Fails ErrWrongType
  else match Value record with
       | Map m => Returns m
       | _ => Panics
       end.

(** *** Encoding *)

Section Encoding.
Context {W : Type} `{Writer W}.

(** [buffer.WriteTo(w)] of a buffer that is not empty, and
    [return binary.Write(w, ...)]. *)
Definition write_all (w : W) (p : list byte) : option error * W :=
  match Write w p with
  | (Some e, w') => (Some (IOError e), w')
  | (None, w') => (None, w')
  end.

(** The second half of [Encode]: what it collects in its buffer. *)
Definition Encode_buffer (type sizeOfValue : Z) (value : fixed) : list byte :=
  if sizeOfValue <? 8 then
    (* this can fit in 3 bits *)
    let header := Z.lor (wrap_uint8 (Z.shiftl sizeOfValue 4)) type in
    binary_bytes (Uint8 header) ++ binary_bytes value
  else
    let (sizeOfSize, sizeOfValueCasted) := getMinBinarySizeOfInt sizeOfValue in
    let header := Z.lor (Z.lor (Z.shiftl 1 7) (wrap_uint8 (Z.shiftl sizeOfSize 4))) type in
    binary_bytes (Uint8 header) ++ binary_bytes sizeOfValueCasted ++ binary_bytes value.

Definition Encode (record : Record) (w : W) : option error * W :=
  if Type_ record =? TypeInt then
    match Value record with
    | Int v =>
        (* shortcut! *)
        if v =? 0 then write_all w (binary_bytes (Uint8 0))
        else
          let (size, value) := getMinBinarySizeOfInt v in
          write_all w (Encode_buffer (Type_ record) size value)
    | _ => (Some (ErrExpectedType TypeInt), w)
    end
  else if Type_ record =? TypeString then
    match Value record with
    | String s =>
        (* append null termination byte *)
        let value := Bytes (s ++ [Byte.x00]) in
        let sizeOfValue := binary_Size value in
        if sizeOfValue =? -1 then (Some ErrBinarySize, w)
        else write_all w (Encode_buffer (Type_ record) sizeOfValue value)
    | _ => (Some (ErrExpectedType TypeString), w)
    end
  else (Some (ErrTypeNotImplemented (Type_ record)), w).

End Encoding.

Definition CreateRecord (v : value) : result Record :=
  match v with
  | VString s => Ok (mkRecord 0 TypeString (String s))
  | VInt i => Ok (mkRecord 0 TypeInt (Int i))
  | VOther => Error ErrTypeConvert
  end.

(** *** Decoding *)

Section Decoding.
Context {R : Type} `{Reader R}.

(** The reading idiom of v1:
    [if len, err := r.Read(buf); err != nil || len != size {...}]. *)
Definition readField (what : field) (r : R) (size : Z) : result (list byte) * R :=
  match Read r size with
  | ((data, Some e), r') =>
      (Error (ErrCannotRead what (Some e) (Z.of_nat (length data)) size), r')
  | ((data, None), r') =>
      if Z.of_nat (length data) =? size then (Ok data, r')
      else (Error (ErrCannotRead what None (Z.of_nat (length data)) size), r')
  end.

(** [ReadHeader]; a failed read of the cookie is reported with the message
    of the length. *)
Definition ReadHeader (r : R) : result Header * R :=
  match readField FHeader r 2 with
  | (Error e, r) => (Error e, r)
  | (Ok buf, r) =>
      let b0 := Z_of_byte (nth 0 buf Byte.x00) in
      let b1 := Z_of_byte (nth 1 buf Byte.x00) in
      let magic := Z.shiftr b0 4 in
      if negb (magic =? BinRPCMagic) then (Error (ErrMagic magic), r) else
      let version := Z.land b0 0x0F in
      if negb (version =? BinRPCVersion) then (Error (ErrVersion version), r) else
      let sizeOfLength := wrap_uint8 (Z.shiftr (Z.land b1 0x0C) 2 + 1) in
      let sizeOfCookie := wrap_uint8 (Z.land b1 0x3 + 1) in
      match readField FTotalLength r sizeOfLength with
      | (Error e, r) => (Error e, r)
      | (Ok buf, r) =>
          let payloadLength := accumulate buf in
          match readField FTotalLength r sizeOfCookie with
          | (Error e, r) => (Error e, r)
          | (Ok cookie, r) => (Ok (mkHeader payloadLength cookie), r)
          end
      end
  end.

(** [avpName.Value.(string)], on a record of type [TypeAVP]. *)
Definition string_of_any (v : any) : list byte :=
  match v with
  | String s => s
  | _ => []
  end.

(** The first half of [ReadRecord], up to its [switch]. *)
Definition ReadRecord_front (r : R) : result (Z * Z * Z * list byte) * R :=
  match readField FRecordHeader r 1 with
  | (Error e, r) => (Error e, r)
  | (Ok buf, r) =>
      let b0 := Z_of_byte (nth 0 buf Byte.x00) in
      let flag := Z.shiftr b0 7 in
      let size0 := Z.land (Z.shiftr b0 4) 0x7 in
      let rsize := int_add 1 size0 in
      let rtype := Z.land b0 0x0F in
      if (flag =? 1) && (size0 =? 0) && (rtype =? TypeStruct) then
        (* this marks the end of a struct *)
        (Error errEndOfStruct, r)
      else
        match
          (if flag =? 1 then
             match readField FRecordSize r size0 with
             | (Error e, r) => (Error e, r)
             | (Ok buf, r) =>
                 let size1 := accumulate buf in
                 (Ok (size1, int_add rsize size1), r)
             end
           else (Ok (size0, rsize), r))
        with
        | (Error e, r) => (Error e, r)
        | (Ok (size1, rsize), r) =>
            match (if size1 =? 0 then (Ok [], r) else readField FRecordValue r size1) with
            | (Error e, r) => (Error e, r)
            | (Ok buf, r) => (Ok (rsize, rtype, size1, buf), r)
            end
        end
  end.

(** [ReadRecord], with the [for] loop of its [TypeStruct] case as the
    parameter [structLoop]; the loop fills [avpMap]. *)
Definition ReadRecord_step
    (structLoop : R -> Z -> list (list byte * Record)
                  -> option (result (Z * list (list byte * Record)) * R))
    (r : R) : option (result Record * R) :=
  match ReadRecord_front r with
  | (Error e, r) => Some (Error e, r)
  | (Ok (rsize, rtype, size1, buf), r) =>
      if (rtype =? TypeAVP) || (rtype =? TypeString) then
        Some (Ok (mkRecord rsize rtype
                    (String (if size1 =? 0 then [] else removelast buf))), r)
      else if rtype =? TypeInt then
        Some (Ok (mkRecord rsize rtype
                    (Int (if size1 =? 0 then 0 else accumulate buf))), r)
      else if rtype =? TypeStruct then
        match structLoop r rsize [] with
        | None => None
        | Some (Error e, r) => Some (Error e, r)
        | Some (Ok (rsize, avpMap), r) =>
            Some (Ok (mkRecord rsize rtype (Map avpMap)), r)
        end
      else Some (Error ErrTypeNotImpl, r)
  end.

Definition readStructItems_step
    (readRecord : R -> option (result Record * R))
    (next : R -> Z -> list (list byte * Record)
            -> option (result (Z * list (list byte * Record)) * R))
    (r : R) (rsize : Z) (avpMap : list (list byte * Record))
  : option (result (Z * list (list byte * Record)) * R) :=
  match readRecord r with
  | None => None
  | Some (Error errEndOfStruct, r) => Some (Ok (int_add rsize 1, avpMap), r)
  | Some (Error e, r) => Some (Error e, r)
  | Some (Ok avpName, r) =>
      if negb (Type_ avpName =? TypeAVP) then
        Some (Error (ErrStructKey (Type_ avpName)), r)
      else
        let rsize := int_add rsize (size avpName) in
        match readRecord r with
        | None => None
        | Some (Error e, r) => Some (Error e, r)
        | Some (Ok avpValue, r) =>
            let avpMap := map_insert (string_of_any (Value avpName)) avpValue avpMap in
            next r (int_add rsize (size avpValue)) avpMap
        end
  end.

Fixpoint ReadRecord_fuel (fuel : nat) (r : R) {struct fuel} : option (result Record * R) :=
  match fuel with
  | O => None
  | S fuel' => ReadRecord_step (readStructItems_fuel fuel') r
  end
with readStructItems_fuel (fuel : nat) (r : R) (rsize : Z)
    (avpMap : list (list byte * Record)) {struct fuel}
  : option (result (Z * list (list byte * Record)) * R) :=
  match fuel with
  | O => None
  | S fuel' =>
      readStructItems_step (ReadRecord_fuel fuel') (readStructItems_fuel fuel') r rsize avpMap
  end.

End Decoding.

(** [ReadRecord] on a [bytes.Reader], with the fuel of the v3 function. *)
Definition ReadRecord (r : bytes_Reader) : option (result Record * bytes_Reader) :=
  ReadRecord_fuel (2 * length r + 1) r.

(** The [for read < header.PayloadLength] loop of [ReadPacket]. *)
Fixpoint ReadPacket_loop (fuel : nat) (payload : bytes_Reader) (payloadLength read : Z)
    (records : list Record) : option (result (list Record)) :=
  if read <? payloadLength then
    match fuel with
    | O => None
    | S fuel' =>
        match ReadRecord payload with
        | None => None
        | Some (Error e, _) => Some (Error e)
        | Some (Ok record, payload) =>
            ReadPacket_loop fuel' payload payloadLength
                            (int_add read (size record)) (records ++ [record])
        end
    end
  else Some (Ok records).

(** [ReadPacket]; [expectedCookie] is [None] for a nil slice. *)
Definition ReadPacket {R : Type} `{Reader R} (r : R) (expectedCookie : option (list byte))
  : option (result (list Record) * bufio_Reader R) :=
  let bufreader := bufio_NewReader r in
  match ReadHeader bufreader with
  | (Error e, bufreader) => Some (Error e, bufreader)
  | (Ok header, bufreader) =>
      if match expectedCookie with
         | None => false
         | Some cookie => negb (string_eqb cookie (Cookie header))
         end
      then Some (Error ErrCookieMismatch, bufreader)
      else
        match ReadFull bufreader (PayloadLength header) with
        | None => None
        | Some ((_, Some e), bufreader) => Some (Error (IOError e), bufreader)
        | Some ((payloadBytes, None), bufreader) =>
            match ReadPacket_loop (S (length payloadBytes)) payloadBytes
                                  (PayloadLength header) 0 [] with
            | None => None
            | Some res => Some (res, bufreader)
            end
        end
  end.

(** *** Writing a packet *)

Fixpoint WritePacket_loop (values : list value) (payload : bytes_Buffer)
  : result bytes_Buffer :=
  match values with
  | [] => Ok payload
  | v :: values' =>
      match CreateRecord v with
      | Error e => Error e
      | Ok record =>
          match Encode record payload with
          | (Some e, _) => Error e
          | (None, payload') => WritePacket_loop values' payload'
          end
      end
  end.

(** The header [WritePacket] collects in its [header] buffer. *)
Definition WritePacket_header (sizeOfLength : Z) (totalLength : fixed)
    (sizeOfCookie cookie : Z) : list byte :=
  [ byte_of_Z (Z.lor (wrap_uint8 (Z.shiftl BinRPCMagic 4)) BinRPCVersion);
    byte_of_Z (Z.lor (wrap_uint8 (Z.shiftl (wrap_uint8 (sizeOfLength - 1)) 2))
                     (wrap_uint8 (sizeOfCookie - 1))) ]
  ++ binary_bytes totalLength ++ binary_bytes (Uint32 cookie).

(** [WritePacket]; [rand_Int63] is the value [rand.Int63()] returns.  The
    result is the cookie as four bytes. *)
Definition WritePacket {W : Type} `{Writer W} (w : W) (values : list value)
    (rand_Int63 : Z) : result (list byte) * W :=
  match WritePacket_loop values [] with
  | Error e => (Error e, w)
  | Ok payload =>
      let cookie := wrap_uint32 rand_Int63 in
      let (sizeOfLength, totalLength) := getMinBinarySizeOfInt (Z.of_nat (length payload)) in
      let sizeOfCookie := binary_Size (Uint32 cookie) in
      (* the totalLength cannot be larger than 4 bytes *)
      if 4 <? sizeOfLength then (Error ErrLengthTooBig, w)
      else
        let header := WritePacket_header sizeOfLength totalLength sizeOfCookie cookie in
        let writer := bufio_NewWriter w in
        match bufio_Write writer header with
        | (Some e, writer) => (Error (ErrCannotWrite FHeader e), wr writer)
        | (None, writer) =>
            match bufio_Write writer payload with
            | (Some e, writer) => (Error (ErrCannotWrite FPayload e), wr writer)
            | (None, writer) =>
                match bufio_Flush writer with
                | (Some e, writer) => (Error (IOError e), wr writer)
                | (None, writer) => (Ok (be_bytes 4 cookie), wr writer)
                end
            end
        end
  end.

Definition WritePacketValue {W : Type} `{Writer W} (w : W) (v : value) (rand_Int63 : Z)
  : result (list byte) * W :=
  WritePacket w [v] rand_Int63.

Definition WritePacketString {W : Type} `{Writer W} (w : W) (s : list byte) (rand_Int63 : Z)
  : result (list byte) * W :=
  WritePacket w [VString s] rand_Int63.

Definition WritePacketStrings {W : Type} `{Writer W} (w : W) (s : list (list byte))
    (rand_Int63 : Z) : result (list byte) * W :=
  WritePacket w (map VString s) rand_Int63.

End Legacy.

(** The v1 record that stands for a v3 record: the same sizes, types and
    scalar values, and for a struct the map its items fill when they are
    inserted in their order; a double has no place in v1. *)
Fixpoint legacy_of (record : Record) : Legacy.Record :=
  let 'mkRecord rsize rtype v := record in
  Legacy.mkRecord rsize rtype
    match v with
    | Nil => Legacy.Nil
    | Int i => Legacy.Int i
    | String s => Legacy.String s
    | Float64 _ => Legacy.Other
    | Items items =>
        Legacy.Map
          ((fix fill (l : list StructItem) (avpMap : list (list byte * Legacy.Record))
              : list (list byte * Legacy.Record) :=
              match l with
              | [] => avpMap
              | mkStructItem key r :: l' =>
                  fill l' (Legacy.map_insert key (legacy_of r) avpMap)
              end) items [])
    end.

(** The same on the items of a struct, from the map [avpMap] on. *)
Fixpoint legacy_fill (items : list StructItem) (avpMap : list (list byte * Legacy.Record))
  : list (list byte * Legacy.Record) :=
  match items with
  | [] => avpMap
  | mkStructItem key r :: items' =>
      legacy_fill items' (Legacy.map_insert key (legacy_of r) avpMap)
  end.

(** No double in a record, at any depth. *)
Fixpoint no_double (record : Record) : Prop :=
  let 'mkRecord _ _ v := record in
  match v with
  | Float64 _ => False
  | Items items =>
      (fix all (l : list StructItem) : Prop :=
         match l with
         | [] => True
         | mkStructItem _ r :: l' => no_double r /\ all l'
         end) items
  | _ => True
  end.

(** The last item of a struct with the key [key]. *)
Definition last_item (key : list byte) (items : list StructItem) : option StructItem :=
  find (fun item => Legacy.string_eqb (Key item) key) (rev items).

(** What a result of v1 says about the result of v3 on the same input. *)
Definition record_refines {R : Type} (x1 : option (Legacy.result Legacy.Record * R))
    (x3 : option (result Record * R)) : Prop :=
  match x1 with
  | None => x3 = None
  | Some (Legacy.Ok record1, r') =>
      exists record3,
        x3 = Some (Ok record3, r') /\ record1 = legacy_of record3 /\ no_double record3
  | Some (Legacy.Error e, r') =>
      e = Legacy.errEndOfStruct -> x3 = Some (Error errEndOfStruct, r')
  end.

Definition items_refine {R : Type}
    (x1 : option (Legacy.result (Z * list (list byte * Legacy.Record)) * R))
    (x3 : option (result (Z * list StructItem) * R)) : Prop :=
  match x1 with
  | None => x3 = None
  | Some (Legacy.Ok (rsize, avpMap), r') =>
      exists items,
        x3 = Some (Ok (rsize, items), r') /\ avpMap = legacy_fill items [] /\
        Forall (fun item => no_double (ItemValue item)) items
  | Some (Legacy.Error e, r') =>
      e = Legacy.errEndOfStruct -> x3 = Some (Error errEndOfStruct, r')
  end.

(** The bytes v1 writes for a value: [CreateRecord], then [Encode] into an
    empty buffer. *)
Definition legacy_encoding (v : Legacy.value) : list byte :=
  match Legacy.CreateRecord v with
  | Legacy.Ok record => snd (Legacy.Encode record ([] : bytes_Buffer))
  | Legacy.Error _ => []
  end.

(** The values v1 carries faithfully: strings whose length with the NUL is
    below 2^31, and the integers that are not negative or need all eight
    bytes. *)
Definition legacy_representable (v : Legacy.value) : Prop :=
  match v with
  | Legacy.VInt i => 0 <= i < 2 ^ 63 \/ - 2 ^ 63 <= i < - 2 ^ 31
  | Legacy.VString s => Z.of_nat (length s) + 1 < 2 ^ 31
  | Legacy.VOther => False
  end.

(** A record has the type of the value [v], and its accessor returns [v]. *)
Definition legacy_decodes_to (v : Legacy.value) (record : Legacy.Record) : Prop :=
  match v with
  | Legacy.VInt i =>
      Legacy.Type_ record = TypeInt /\ Legacy.GetInt record = Returns i
  | Legacy.VString s =>
      Legacy.Type_ record = TypeString /\ Legacy.GetString record = Returns s
  | Legacy.VOther => False
  end.

Definition items_well_typed (items : list StructItem) : Prop :=
  Forall (fun item => well_typed (ItemValue item)) items.

(** A result that lets the decoding go on: a record, or the end mark. *)
Definition goes_on {A : Type} (res : result A) : Prop :=
  match res with
  | Ok _ => True
  | Error e => e = errEndOfStruct
  end.

(** ** Test vectors and tactics *)

(** [hex.DecodeString], for the byte strings of the tests. *)
Definition hex_digit (b : byte) : Z :=
  let n := Z_of_byte b in
  if n <? 58 then n - 48 else if n <? 71 then n - 55 else n - 87.

Fixpoint hex_bytes (l : list byte) : list byte :=
  match l with
  | a :: b :: l' => byte_of_Z (16 * hex_digit a + hex_digit b) :: hex_bytes l'
  | _ => []
  end.

Definition hex (s : String.string) : list byte :=
  hex_bytes (String.list_byte_of_string s).

(** A Go string literal. *)
Definition str (s : String.string) : list byte := String.list_byte_of_string s.

Ltac split_cases :=
  repeat match goal with
         | |- context [?a =? ?b] => destruct (Z.eqb_spec a b)
         | |- context [?a <? ?b] => destruct (Z.ltb_spec a b)
         | |- context [?a <=? ?b] => destruct (Z.leb_spec a b)
         end;
  try reflexivity; try lia.

Ltac enumerate_cases :=
  repeat match goal with
         | H : _ \/ _ |- _ => destruct H as [H | H]
         end;
  subst.

(** ** Basic facts on bytes *)

Lemma Z_of_byte_range (b : byte) : 0 <= Z_of_byte b < 256.
Proof.
  unfold Z_of_byte. pose proof (Byte.to_N_bounded b) as Hb.
  split; [apply N2Z.is_nonneg|]. lia.
Qed.

Lemma Z_of_byte_of_Z (z : Z) : Z_of_byte (byte_of_Z z) = z mod 256.
Proof.
  unfold Z_of_byte, byte_of_Z.
  pose proof (Z.mod_pos_bound z 256 ltac:(lia)) as Hm.
  destruct (Byte.of_N (Z.to_N (z mod 256))) as [b|] eqn:E.
  - apply Byte.to_of_N in E. rewrite E. lia.
  - apply Byte.of_N_None_iff in E. lia.
Qed.

Lemma byte_of_Z_of_byte (b : byte) : byte_of_Z (Z_of_byte b) = b.
Proof.
  unfold byte_of_Z, Z_of_byte.
  pose proof (Byte.to_N_bounded b) as Hb.
  rewrite Z.mod_small by lia.
  rewrite N2Z.id, Byte.of_to_N. reflexivity.
Qed.

Lemma byte_of_Z_mod (z : Z) : byte_of_Z (z mod 256) = byte_of_Z z.
Proof. unfold byte_of_Z. rewrite Z.mod_mod by lia. reflexivity. Qed.

Lemma wrap_int_small (z : Z) : - 2 ^ 63 <= z < 2 ^ 63 -> wrap_int z = z.
Proof. intros Hz. unfold wrap_int. rewrite Z.mod_small; lia. Qed.

Lemma wrap_int_range (z : Z) : - 2 ^ 63 <= wrap_int z < 2 ^ 63.
Proof.
  unfold wrap_int. pose proof (Z.mod_pos_bound (z + 2 ^ 63) (2 ^ 64) ltac:(lia)). lia.
Qed.

(** ** The sizing function *)

Lemma top_byte_zero (n : Z) :
  0 <= n < 2 ^ 32 -> (Z.land n (Z.shiftl 0xff 24) =? 0) = (n <? 2 ^ 24).
Proof.
  intros Hn.
  assert (E : Z.land n (Z.shiftl 0xff 24) = 2 ^ 24 * (n / 2 ^ 24)).
  { replace n with (Z.lor (Z.shiftl (n / 2 ^ 24) 24) (n mod 2 ^ 24)) at 1.
    2:{ rewrite <- Z.shiftr_div_pow2 by lia. rewrite <- Z.land_ones by lia.
        rewrite <- Z.ldiff_ones_r by lia.
        apply Z.lor_ldiff_and. }
    rewrite Z.land_lor_distr_l.
    rewrite <- Z.shiftl_land.
    replace 0xff with (Z.ones 8) by reflexivity.
    rewrite Z.land_ones by lia.
    rewrite (Z.mod_small (n / 2 ^ 24)).
    2:{ split; [apply Z.div_pos; lia|]. apply Z.div_lt_upper_bound; lia. }
    replace (Z.land (n mod 2 ^ 24) (Z.shiftl (Z.ones 8) 24)) with 0.
    2:{ symmetry. apply Z.bits_inj'. intros i Hi.
        rewrite Z.land_spec, Z.bits_0.
        destruct (Z.ltb_spec i 24).
        - rewrite Z.shiftl_spec_low by lia. apply andb_false_r.
        - rewrite Z.mod_pow2_bits_high by lia. reflexivity. }
    rewrite Z.lor_0_r, Z.shiftl_mul_pow2 by lia. lia. }
  rewrite E.
  destruct (Z.ltb_spec n (2 ^ 24)).
  - rewrite Z.div_small by lia. reflexivity.
  - apply Z.eqb_neq.
    assert (1 <= n / 2 ^ 24) by (apply Z.div_le_lower_bound; lia). lia.
Qed.

Lemma getMinBinarySizeOfInt_loop_step (size : nat) (n : Z) :
  0 <= n < 2 ^ 32 ->
  getMinBinarySizeOfInt_loop (S size) n =
  if n <? 2 ^ 24 then getMinBinarySizeOfInt_loop size (n * 256) else S size.
Proof.
  intros Hn. cbn [getMinBinarySizeOfInt_loop].
  rewrite top_byte_zero by assumption.
  destruct (Z.ltb_spec n (2 ^ 24)); [|reflexivity].
  unfold wrap_uint32. rewrite Z.shiftl_mul_pow2 by lia.
  rewrite Z.mod_small by lia. reflexivity.
Qed.

Lemma getMinBinarySizeOfInt_closed (value : Z) :
  getMinBinarySizeOfInt value = unsigned_size (value mod 2 ^ 32).
Proof.
  unfold getMinBinarySizeOfInt, wrap_uint32, unsigned_size.
  pose proof (Z.mod_pos_bound value (2 ^ 32) ltac:(lia)) as Hm.
  set (m := value mod 2 ^ 32) in *.
  rewrite getMinBinarySizeOfInt_loop_step by lia.
  destruct (Z.ltb_spec m (2 ^ 24)).
  2:{ split_cases. }
  rewrite getMinBinarySizeOfInt_loop_step by lia.
  destruct (Z.ltb_spec (m * 256) (2 ^ 24)).
  2:{ split_cases. }
  rewrite getMinBinarySizeOfInt_loop_step by lia.
  destruct (Z.ltb_spec (m * 256 * 256) (2 ^ 24)).
  2:{ split_cases. }
  rewrite getMinBinarySizeOfInt_loop_step by lia.
  destruct (Z.ltb_spec (m * 256 * 256 * 256) (2 ^ 24)).
  2:{ split_cases. }
  assert (m = 0) by lia. subst m.
  destruct (Z.eqb_spec (value mod 2 ^ 32) 0); [reflexivity|lia].
Qed.

Lemma getMinBinarySizeOfInt_range (value : Z) : 0 <= getMinBinarySizeOfInt value <= 4.
Proof.
  rewrite getMinBinarySizeOfInt_closed. unfold unsigned_size. split_cases.
Qed.

Lemma getMinBinarySizeOfInt_truncates (value : Z) :
  getMinBinarySizeOfInt value = getMinBinarySizeOfInt (value mod 2 ^ 32).
Proof.
  rewrite !getMinBinarySizeOfInt_closed. rewrite Z.mod_mod by lia. reflexivity.
Qed.

(** ** The tests of the package, run on the model *)

Example TestReadHeader :
  ReadHeader (hex "a1030b6f8da297")
  = (Ok (mkHeader 0x0b 0x6f8da297), ([] : bytes_Reader)).
Proof. vm_compute. reflexivity. Qed.

Example TestReadHeaderInvalid :
  ReadHeader (hex "a1") = (Error (ErrShortRead FHeader 1 2), ([] : bytes_Reader)).
Proof. vm_compute. reflexivity. Qed.

Example TestReadRecordString :
  ReadRecord (hex "9109746d2e737461747300")
  = Some (Ok (mkRecord 11 TypeString (String (str "tm.stats"))), []).
Proof. vm_compute. reflexivity. Qed.

Example TestReadRecordInt :
  ReadRecord (hex "102a") = Some (Ok (mkRecord 2 TypeInt (Int 42)), []).
Proof. vm_compute. reflexivity. Qed.

Example TestReadRecordStruct :
  exists rsize items,
    ReadRecord (hex "03950863757272656e74001001950877616974696e6700100165746f74616c00308929f5950c746f74616c5f6c6f63616c00302396c7950d72706c5f7265636569766564004001276f74950e72706c5f67656e65726174656400304b8e01950972706c5f73656e74004001277f7e4536787800201cea45357878003022e3d24534787800300e98fa45337878000045327878003057b03895086372656174656400308929f565667265656400308929f4950d64656c617965645f66726565000083")
    = Some (Ok (mkRecord rsize TypeStruct (Items items)), []) /\
    length items = 15%nat /\
    nth_error items 2 = Some (mkStructItem (str "total") (mkRecord 4 TypeInt (Int 8989173))).
Proof. eexists; eexists. split; [vm_compute; reflexivity|]. split; reflexivity. Qed.

Example TestWritePacket :
  WritePacket ([] : bytes_Buffer) [VString (str "tm.stats")] 0x6f8da297
  = (Ok 0x6f8da297, hex "a1030b6f8da2979109746d2e737461747300").
Proof. vm_compute. reflexivity. Qed.

Example TestWritePacketInt :
  WritePacket ([] : bytes_Buffer) [VInt 142] 0x6f8da297
  = (Ok 0x6f8da297, hex "a103026f8da297108e").
Proof. vm_compute. reflexivity. Qed.

Example TestCreateRecord : CreateRecord (VInt 42) = Ok (mkRecord 0 TypeInt (Int 42)).
Proof. reflexivity. Qed.

Example TestReadPacket :
  ReadPacket (hex "a1322a9883af2001f49125636f6d6d616e6420636f72652e6563686f20626f6e6a6f757273206e6f7420666f756e6400") 0x9883af
  = Some (Ok [mkRecord 3 TypeInt (Int 500);
              mkRecord 39 TypeString (String (str "command core.echo bonjours not found"))],
          mkBufio [] [] None).
Proof. vm_compute. reflexivity. Qed.

Example TestTypeDouble :
  Encode (mkRecord 0 TypeDouble (Float64 0x1.96872b020c49cp+0%float)) ([] : bytes_Buffer)
  = (None, hex "220634").
Proof. vm_compute. reflexivity. Qed.

(** The literals of the tests: 42 needs one byte, 8388605 three. *)
Example getMinBinarySizeOfInt_42 : getMinBinarySizeOfInt 42 = 1.
Proof. reflexivity. Qed.

Example getMinBinarySizeOfInt_8388605 : getMinBinarySizeOfInt 8388605 = 3.
Proof. reflexivity. Qed.

(** The v1 function has no three-byte size: 8388605 takes four bytes there. *)
Example V1_getMinBinarySizeOfInt_8388605 : V1.getMinBinarySizeOfInt 8388605 = 4.
Proof. reflexivity. Qed.

(** C3, as stated, fails: the size of 0 is 0, which is none of 1, 2, 3, 4;
    128 gets one byte, which holds only -128..127 in two's complement; and -1
    gets four bytes although one byte holds it in two's complement. *)
Lemma C3_counterexample :
  ~ minimal_twos_complement_size 0 (getMinBinarySizeOfInt 0) /\
  ~ minimal_twos_complement_size 128 (getMinBinarySizeOfInt 128) /\
  ~ minimal_twos_complement_size (-1) (getMinBinarySizeOfInt (-1)).
Proof.
  unfold minimal_twos_complement_size, fits_twos_complement.
  change (getMinBinarySizeOfInt 0) with 0.
  change (getMinBinarySizeOfInt 128) with 1.
  change (getMinBinarySizeOfInt (-1)) with 4.
  repeat split.
  - intros [Hk _]. lia.
  - intros [_ [Hfit _]]. simpl in Hfit. lia.
  - intros [_ [_ Hmin]]. apply (Hmin 1); simpl; lia.
Qed.

(** C3, amended: on 0 <= n < 2^32 the function returns the least number of
    bytes, from 0 to 4, that holds [n] as an unsigned big-endian number (no
    byte at all for 0). *)
Theorem C3_getMinBinarySizeOfInt_unsigned_minimal (n : Z) :
  0 <= n < 2 ^ 32 ->
  0 <= getMinBinarySizeOfInt n <= 4 /\
  fits_unsigned (getMinBinarySizeOfInt n) n /\
  forall j, 0 <= j < getMinBinarySizeOfInt n -> ~ fits_unsigned j n.
Proof.
  intros Hn. split; [apply getMinBinarySizeOfInt_range|].
  rewrite getMinBinarySizeOfInt_closed, Z.mod_small by lia.
  unfold unsigned_size, fits_unsigned.
  destruct (Z.eqb_spec n 0) as [->|Hn0].
  { split; [simpl; lia|]. intros j Hj. lia. }
  destruct (Z.ltb_spec n (2 ^ 8)).
  { split; [simpl; lia|]. intros j Hj. assert (j = 0) as -> by lia. simpl. lia. }
  destruct (Z.ltb_spec n (2 ^ 16)).
  { split; [simpl; lia|]. intros j Hj.
    assert (j = 0 \/ j = 1) as [-> | ->] by lia; simpl; lia. }
  destruct (Z.ltb_spec n (2 ^ 24)).
  { split; [simpl; lia|]. intros j Hj.
    assert (j = 0 \/ j = 1 \/ j = 2) as [-> | [-> | ->]] by lia; simpl; lia. }
  split; [simpl; lia|]. intros j Hj.
  assert (j = 0 \/ j = 1 \/ j = 2 \/ j = 3) as [-> | [-> | [-> | ->]]] by lia; simpl; lia.
Qed.

Lemma C3_witness :
  0 <= 8388605 < 2 ^ 32 /\
  (0 <= getMinBinarySizeOfInt 8388605 <= 4 /\
   fits_unsigned (getMinBinarySizeOfInt 8388605) 8388605 /\
   forall j, 0 <= j < getMinBinarySizeOfInt 8388605 -> ~ fits_unsigned j 8388605).
Proof.
  split; [lia|]. apply (C3_getMinBinarySizeOfInt_unsigned_minimal 8388605). lia.
Defined.

(** ** Big-endian bytes *)

Lemma store_app (pre suf : list byte) (x b : byte) :
  store (length pre) b (pre ++ x :: suf) = pre ++ b :: suf.
Proof. induction pre as [|p pre IH]; simpl; [reflexivity|]. rewrite IH. reflexivity. Qed.

Lemma intToBytesBE_loop_spec (size : nat) :
  forall (n : Z) (pre suf : list byte),
    length pre = size ->
    intToBytesBE_loop size n (pre ++ suf) = be_bytes size n ++ suf.
Proof.
  induction size as [|size IH]; intros n pre suf Hlen.
  - destruct pre; [reflexivity|discriminate].
  - destruct (exists_last (l := pre)) as [pre' [x ->]].
    { intros ->. discriminate. }
    rewrite length_app in Hlen. simpl in Hlen.
    assert (Hlen' : length pre' = size) by lia.
    cbn [intToBytesBE_loop be_bytes].
    rewrite <- app_assoc. cbn [app].
    pose proof (store_app pre' suf x (byte_of_Z n)) as Hs.
    rewrite Hlen' in Hs. rewrite Hs.
    rewrite (IH (Z.shiftr n 8) pre' (byte_of_Z n :: suf) Hlen').
    rewrite <- app_assoc. reflexivity.
Qed.

Lemma intToBytesBE_be_bytes (n : Z) :
  intToBytesBE n = be_bytes (Z.to_nat (getMinBinarySizeOfInt n)) n.
Proof.
  unfold intToBytesBE.
  set (size := Z.to_nat (getMinBinarySizeOfInt n)).
  rewrite <- (app_nil_r (repeat Byte.x00 size)).
  rewrite intToBytesBE_loop_spec by apply repeat_length.
  apply app_nil_r.
Qed.

Lemma be_bytes_length (k : nat) : forall n, length (be_bytes k n) = k.
Proof.
  induction k as [|k IH]; intros n; simpl; [reflexivity|].
  rewrite length_app, IH. simpl. lia.
Qed.

Lemma intToBytesBE_length (n : Z) :
  Z.of_nat (length (intToBytesBE n)) = getMinBinarySizeOfInt n.
Proof.
  rewrite intToBytesBE_be_bytes, be_bytes_length.
  pose proof (getMinBinarySizeOfInt_range n). lia.
Qed.

Lemma be_value_snoc (l : list byte) (b : byte) :
  be_value (l ++ [b]) = be_value l * 256 + Z_of_byte b.
Proof. unfold be_value. rewrite fold_left_app. reflexivity. Qed.

Lemma be_value_be_bytes (k : nat) :
  forall n, be_value (be_bytes k n) = n mod 256 ^ Z.of_nat k.
Proof.
  induction k as [|k IH]; intros n.
  - simpl. rewrite Z.mod_1_r. reflexivity.
  - cbn [be_bytes]. rewrite be_value_snoc, IH, Z_of_byte_of_Z.
    rewrite Z.shiftr_div_pow2 by lia. change (2 ^ 8) with 256.
    rewrite Nat2Z.inj_succ, Z.pow_succ_r by lia.
    rewrite (Z.rem_mul_r n 256 (256 ^ Z.of_nat k)) by lia. lia.
Qed.

Lemma be_value_intToBytesBE (n : Z) : be_value (intToBytesBE n) = n mod 2 ^ 32.
Proof.
  rewrite intToBytesBE_be_bytes, be_value_be_bytes.
  pose proof (getMinBinarySizeOfInt_range n) as Hr.
  rewrite Z2Nat.id by lia.
  rewrite getMinBinarySizeOfInt_closed.
  pose proof (Z.mod_pos_bound n (2 ^ 32) ltac:(lia)) as Hm.
  unfold unsigned_size.
  destruct (Z.eqb_spec (n mod 2 ^ 32) 0) as [E|E].
  { rewrite E. simpl. apply Z.mod_1_r. }
  assert (D : forall k, 0 <= k <= 4 -> n mod 2 ^ 32 < 256 ^ k ->
                        n mod 256 ^ k = n mod 2 ^ 32).
  { intros k Hk Hlt.
    rewrite <- (Z.mod_mod_divide n (2 ^ 32) (256 ^ k)).
    - apply Z.mod_small. lia.
    - exists (256 ^ (4 - k)). rewrite <- Z.pow_add_r by lia.
      replace (4 - k + k) with 4 by lia. reflexivity. }
  destruct (Z.ltb_spec (n mod 2 ^ 32) (2 ^ 8)); [apply D; simpl; lia|].
  destruct (Z.ltb_spec (n mod 2 ^ 32) (2 ^ 16)); [apply D; simpl; lia|].
  destruct (Z.ltb_spec (n mod 2 ^ 32) (2 ^ 24)); [apply D; simpl; lia|].
  apply D; simpl; lia.
Qed.

(** ** WritePacket *)

(** Into its own [bytes.Buffer], encoding the records of host values cannot
    fail. *)
Lemma Encode_bytes_Buffer_ok (v : ValidTypes) (payload : bytes_Buffer) :
  exists record bytes,
    CreateRecord v = Ok record /\ Encode record payload = (None, payload ++ bytes).
Proof.
  destruct v as [i|s|f]; simpl.
  - destruct (i =? 0) eqn:E; eexists; eexists; (split; [reflexivity|]);
      unfold Encode; cbn [Type_ Value]; change (TypeInt =? TypeInt) with true;
      cbv iota; rewrite E; reflexivity.
  - eexists; eexists; (split; [reflexivity|]); reflexivity.
  - eexists; eexists; (split; [reflexivity|]); reflexivity.
Qed.

Lemma WritePacket_loop_ok (values : list ValidTypes) :
  forall payload, exists payload', WritePacket_loop values payload = Ok payload'.
Proof.
  induction values as [|v values IH]; intros payload; simpl.
  - eauto.
  - destruct (Encode_bytes_Buffer_ok v payload) as [record [bytes [-> ->]]]. apply IH.
Qed.

(** C7: with no value to send, [WritePacket] fails with "missing values" and
    leaves the sink, whatever writer it is, as it was. *)
Theorem C7_WritePacket_no_values {W : Type} `{Writer W} (w : W) (rand_Uint32 : Z) :
  WritePacket w [] rand_Uint32 = (Error ErrMissingValues, w).
Proof. reflexivity. Qed.

(** C10: [getMinBinarySizeOfInt] sees only the low 32 bits of its argument
    and returns a size from 0 to 4, [intToBytesBE] returns that many bytes,
    and so [WritePacket] never takes its "packet length too big" branch,
    whatever the sink, the values and the cookie. *)
Theorem C10_length_too_big_unreachable {W : Type} `{Writer W}
    (w : W) (values : list ValidTypes) (rand_Uint32 value len max : Z) :
  getMinBinarySizeOfInt value = getMinBinarySizeOfInt (wrap_uint32 value) /\
  0 <= getMinBinarySizeOfInt value <= 4 /\
  Z.of_nat (length (intToBytesBE value)) = getMinBinarySizeOfInt value /\
  Z.of_nat (length (intToBytesBE value)) <= MaxSizeOfLength /\
  fst (WritePacket w values rand_Uint32) <> Error (ErrPacketLengthTooBig len max).
Proof.
  pose proof (getMinBinarySizeOfInt_range value) as Hr.
  split; [apply getMinBinarySizeOfInt_truncates|].
  split; [exact Hr|].
  split; [apply intToBytesBE_length|].
  split; [rewrite intToBytesBE_length; unfold MaxSizeOfLength; lia|].
  unfold WritePacket.
  destruct values as [|v values]; [simpl; discriminate|].
  destruct (WritePacket_loop_ok (v :: values) []) as [payload ->].
  rewrite intToBytesBE_length.
  pose proof (getMinBinarySizeOfInt_range (Z.of_nat (length payload))) as Hp.
  unfold MaxSizeOfLength.
  destruct (Z.ltb_spec 4 (getMinBinarySizeOfInt (Z.of_nat (length payload)))); [lia|].
  destruct (bufio_Write _ _) as [[e1|] writer1]; [cbn [fst]; discriminate|].
  destruct (bufio_Write _ _) as [[e2|] writer2]; [cbn [fst]; discriminate|].
  destruct (bufio_Flush _) as [[e3|] writer3]; cbn [fst]; discriminate.
Qed.

(** ** Accumulating bytes *)

Lemma fold_be_bounds (buf : list byte) :
  forall (acc k : Z),
    0 <= k -> 0 <= acc < 256 ^ k ->
    0 <= fold_left (fun a b => a * 256 + Z_of_byte b) buf acc
      < 256 ^ (k + Z.of_nat (length buf)).
Proof.
  induction buf as [|b buf IH]; intros acc k Hk Hacc.
  - simpl. rewrite Z.add_0_r. exact Hacc.
  - cbn [fold_left length]. rewrite Nat2Z.inj_succ.
    replace (k + Z.succ (Z.of_nat (length buf))) with ((k + 1) + Z.of_nat (length buf)) by lia.
    apply IH; [lia|].
    pose proof (Z_of_byte_range b). rewrite Z.pow_add_r by lia. lia.
Qed.

Lemma be_value_bounds (buf : list byte) :
  0 <= be_value buf < 256 ^ Z.of_nat (length buf).
Proof.
  pose proof (fold_be_bounds buf 0 0 ltac:(lia) ltac:(simpl; lia)) as Hb.
  exact Hb.
Qed.

Lemma fold_accumulate_small (buf : list byte) :
  forall (acc k : Z),
    0 <= k -> 0 <= acc < 256 ^ k -> k + Z.of_nat (length buf) <= 7 ->
    fold_left (fun x b => int_add (int_shl x 8) (Z_of_byte b)) buf acc =
    fold_left (fun a b => a * 256 + Z_of_byte b) buf acc.
Proof.
  induction buf as [|b buf IH]; intros acc k Hk Hacc Hlen; [reflexivity|].
  cbn [fold_left length] in *. rewrite Nat2Z.inj_succ in Hlen.
  pose proof (Z_of_byte_range b) as Hb.
  assert (Hpow : 256 ^ (k + 1) <= 256 ^ 7) by (apply Z.pow_le_mono_r; lia).
  assert (Hk1 : 256 ^ (k + 1) = 256 ^ k * 256) by (rewrite Z.pow_add_r by lia; lia).
  assert (E : int_add (int_shl acc 8) (Z_of_byte b) = acc * 256 + Z_of_byte b).
  { unfold int_add, int_shl. rewrite Z.shiftl_mul_pow2 by lia.
    change (2 ^ 8) with 256.
    rewrite (wrap_int_small (acc * 256)) by (change (256 ^ 7) with 72057594037927936 in Hpow; lia).
    apply wrap_int_small. change (256 ^ 7) with 72057594037927936 in Hpow. lia. }
  rewrite E. apply (IH _ (k + 1)); lia.
Qed.

Lemma accumulate_small (buf : list byte) :
  Z.of_nat (length buf) <= 7 -> accumulate buf = be_value buf.
Proof.
  intros Hlen. unfold accumulate, be_value.
  apply (fold_accumulate_small buf 0 0); simpl; lia.
Qed.

Lemma accumulate_be_bytes (k : nat) (n : Z) :
  (k <= 7)%nat -> accumulate (be_bytes k n) = n mod 256 ^ Z.of_nat k.
Proof.
  intros Hk. rewrite accumulate_small by (rewrite be_bytes_length; lia).
  apply be_value_be_bytes.
Qed.

Lemma accumulate_intToBytesBE (n : Z) : accumulate (intToBytesBE n) = n mod 2 ^ 32.
Proof.
  rewrite accumulate_small.
  - apply be_value_intToBytesBE.
  - rewrite intToBytesBE_length. pose proof (getMinBinarySizeOfInt_range n). lia.
Qed.

(** ** Reading from a [bytes.Reader] *)

Lemma readField_bytes (what : field) (r : bytes_Reader) (n : Z) :
  0 <= n ->
  readField what r n =
  match r with
  | [] => (Error (ErrCannotRead what EOF), [])
  | _ :: _ =>
      if n <=? Z.of_nat (length r)
      then (Ok (firstn (Z.to_nat n) r), skipn (Z.to_nat n) r)
      else (Error (ErrShortRead what (Z.of_nat (length r)) n), [])
  end.
Proof.
  intros Hn. unfold readField, Read, bytes_Reader_Reader, bytes_Read.
  destruct r as [|b r]; [reflexivity|].
  set (l := b :: r).
  destruct (Z.leb_spec n (Z.of_nat (length l))).
  - rewrite Z.min_l by lia.
    rewrite length_firstn. rewrite Nat.min_l by lia.
    rewrite Z2Nat.id by lia. rewrite Z.eqb_refl. reflexivity.
  - rewrite Z.min_r by lia. rewrite Nat2Z.id.
    rewrite firstn_all, skipn_all.
    destruct (Z.eqb_spec (Z.of_nat (length l)) n); [lia|reflexivity].
Qed.

Lemma readField_bytes_Ok (what : field) (r r' : bytes_Reader) (n : Z) (data : list byte) :
  0 <= n ->
  readField what r n = (Ok data, r') ->
  r = data ++ r' /\ Z.of_nat (length data) = n /\ r <> [].
Proof.
  intros Hn. rewrite readField_bytes by assumption.
  destruct r as [|b r]; [discriminate|].
  set (l := b :: r).
  destruct (Z.leb_spec n (Z.of_nat (length l))); [|discriminate].
  intros E. injection E as <- <-.
  split; [symmetry; apply firstn_skipn|].
  split; [rewrite length_firstn; lia|discriminate].
Qed.

Lemma readField_bytes_Error (what : field) (r r' : bytes_Reader) (n : Z) (e : error) :
  0 <= n ->
  readField what r n = (Error e, r') ->
  r' = [] /\ e <> errEndOfStruct.
Proof.
  intros Hn. rewrite readField_bytes by assumption.
  destruct r as [|b r].
  - intros E. injection E as <- <-. split; [reflexivity|discriminate].
  - set (l := b :: r).
    destruct (Z.leb_spec n (Z.of_nat (length l))); [discriminate|].
    intros E. injection E as <- <-. split; [reflexivity|discriminate].
Qed.

Lemma readField_bytes_app (what : field) (data r' : bytes_Reader) :
  data ++ r' <> [] ->
  readField what (data ++ r') (Z.of_nat (length data)) = (Ok data, r').
Proof.
  intros Hne. rewrite readField_bytes by lia.
  destruct (data ++ r') as [|b l] eqn:E; [contradiction|].
  rewrite <- E. rewrite length_app.
  destruct (Z.leb_spec (Z.of_nat (length data)) (Z.of_nat (length data + length r'))); [|lia].
  rewrite Nat2Z.id.
  rewrite firstn_app, Nat.sub_diag, firstn_all, firstn_O, app_nil_r.
  rewrite skipn_app, Nat.sub_diag, skipn_all. reflexivity.
Qed.

(** The fields of a record header byte. *)
Lemma header_byte_fields (b : byte) :
  0 <= Z.shiftr (Z_of_byte b) 7 <= 1 /\
  0 <= Z.land (Z.shiftr (Z_of_byte b) 4) 0x7 <= 7 /\
  0 <= Z.land (Z_of_byte b) 0x0F <= 15.
Proof.
  pose proof (Z_of_byte_range b) as Hb.
  rewrite !Z.shiftr_div_pow2 by lia.
  assert (E3 : forall x, Z.land x 0x7 = x mod 2 ^ 3)
    by (intros x; apply (Z.land_ones x 3); lia).
  assert (E4 : forall x, Z.land x 0x0F = x mod 2 ^ 4)
    by (intros x; apply (Z.land_ones x 4); lia).
  rewrite E3, E4.
  pose proof (Z.mod_pos_bound (Z_of_byte b / 2 ^ 4) (2 ^ 3) ltac:(lia)).
  pose proof (Z.mod_pos_bound (Z_of_byte b) (2 ^ 4) ltac:(lia)).
  assert (0 <= Z_of_byte b / 2 ^ 7) by (apply Z.div_pos; lia).
  assert (Z_of_byte b / 2 ^ 7 < 2) by (apply Z.div_lt_upper_bound; lia).
  lia.
Qed.

Lemma int_add_small (a b : Z) : - 2 ^ 63 <= a + b < 2 ^ 63 -> int_add a b = a + b.
Proof. apply wrap_int_small. Qed.

Lemma singleton_of_length (data : list byte) :
  Z.of_nat (length data) = 1 -> exists b, data = [b].
Proof.
  destruct data as [|b [|c data]]; simpl; intros Hl; try lia. eauto.
Qed.

(** What the first half of [ReadRecord] takes from a [bytes.Reader]: on
    success exactly [record.size] bytes, at least one. *)
Lemma ReadRecord_front_bytes_Ok (r r' : bytes_Reader) (rsize rtype size1 : Z) (value : list byte) :
  ReadRecord_front r = (Ok (rsize, rtype, size1, value), r') ->
  exists pre,
    r = pre ++ r' /\ rsize = Z.of_nat (length pre) /\ 1 <= rsize /\
    0 <= rtype <= 15 /\ Z.of_nat (length value) = size1 /\ size1 < rsize.
Proof.
  unfold ReadRecord_front.
  destruct (readField FRecordHeader r 1) as [[hb|e] r1] eqn:E1; [|discriminate].
  apply readField_bytes_Ok in E1; [|lia]. destruct E1 as [-> [Hl _]].
  destruct (singleton_of_length hb Hl) as [b ->]. cbn [nth].
  destruct (header_byte_fields b) as [Hflag [Hsize Htype]].
  set (flag := Z.shiftr (Z_of_byte b) 7) in *.
  set (size0 := Z.land (Z.shiftr (Z_of_byte b) 4) 7) in *.
  set (rtype0 := Z.land (Z_of_byte b) 15) in *.
  clearbody flag size0 rtype0.
  destruct ((flag =? 1) && (size0 =? 0) && (rtype0 =? TypeStruct)); [discriminate|].
  assert (Hs0 : int_add 1 size0 = 1 + size0) by (apply int_add_small; lia).
  remember (int_add 1 size0) as rs0 eqn:Hrs0. rewrite Hs0 in Hrs0.
  destruct (flag =? 1).
  - destruct (readField FRecordSize r1 size0) as [[sb|e] r2] eqn:E2; [|discriminate].
    apply readField_bytes_Ok in E2; [|lia]. destruct E2 as [-> [Hsb _]].
    pose proof (be_value_bounds sb) as Hbv. rewrite Hsb in Hbv.
    assert (Hp : 256 ^ size0 <= 256 ^ 7) by (apply Z.pow_le_mono_r; lia).
    change (256 ^ 7) with 72057594037927936 in Hp.
    rewrite accumulate_small by lia.
    remember (int_add rs0 (be_value sb)) as rs1 eqn:Hrs1.
    rewrite int_add_small in Hrs1 by lia.
    destruct (Z.eqb_spec (be_value sb) 0) as [E0|E0].
    + intros E. injection E as <- <- <- <- <-.
      exists (b :: sb). simpl app. simpl length.
      repeat split; try lia.
    + destruct (readField FRecordValue r2 (be_value sb)) as [[vb|e] r3] eqn:E3; [|discriminate].
      apply readField_bytes_Ok in E3; [|lia]. destruct E3 as [-> [Hvb _]].
      intros E. injection E as <- <- <- <- <-.
      exists (b :: sb ++ vb). simpl app. simpl length. rewrite <- ?app_assoc, ?length_app.
      repeat split; try lia.
  - destruct (Z.eqb_spec size0 0) as [E0|E0].
    + intros E. injection E as <- <- <- <- <-.
      exists [b]. simpl app. simpl length. repeat split; try lia.
    + destruct (readField FRecordValue r1 size0) as [[vb|e] r3] eqn:E3; [|discriminate].
      apply readField_bytes_Ok in E3; [|lia]. destruct E3 as [-> [Hvb _]].
      intros E. injection E as <- <- <- <- <-.
      exists (b :: vb). simpl app. simpl length. repeat split; lia.
Qed.

Lemma ReadRecord_front_bytes_Error (r r' : bytes_Reader) (e : error) :
  ReadRecord_front r = (Error e, r') ->
  (length r' <= length r)%nat /\ (e = errEndOfStruct -> exists b, r = b :: r').
Proof.
  unfold ReadRecord_front.
  destruct (readField FRecordHeader r 1) as [[hb|e1] r1] eqn:E1.
  2:{ apply readField_bytes_Error in E1; [|lia]. destruct E1 as [-> Hne].
      intros E. injection E as <- <-. split; [simpl; lia|contradiction]. }
  apply readField_bytes_Ok in E1; [|lia]. destruct E1 as [-> [Hl _]].
  destruct (singleton_of_length hb Hl) as [b ->]. cbn [nth].
  destruct (header_byte_fields b) as [Hflag [Hsize Htype]].
  set (flag := Z.shiftr (Z_of_byte b) 7) in *.
  set (size0 := Z.land (Z.shiftr (Z_of_byte b) 4) 7) in *.
  set (rtype0 := Z.land (Z_of_byte b) 15) in *.
  clearbody flag size0 rtype0.
  destruct ((flag =? 1) && (size0 =? 0) && (rtype0 =? TypeStruct)).
  { intros E. injection E as <- <-. split; [simpl; lia|]. intros _. exists b. reflexivity. }
  assert (Hfinal : forall (size1 rs : Z) (r2 : bytes_Reader),
             0 <= size1 -> (length r2 <= length r1)%nat ->
             match (if size1 =? 0 then (Ok [], r2) else readField FRecordValue r2 size1) with
             | (Error e0, r0) => (Error e0, r0)
             | (Ok buf0, r0) => (Ok (rs, rtype0, size1, buf0), r0)
             end = (Error e, r') ->
             (length r' <= length ([b] ++ r1))%nat /\
             (e = errEndOfStruct -> exists b0, [b] ++ r1 = b0 :: r')).
  { intros size1 rs r2 Hs1 Hr2.
    destruct (size1 =? 0); [discriminate|].
    destruct (readField FRecordValue r2 size1) as [[vb|e3] r3] eqn:E3; [discriminate|].
    apply readField_bytes_Error in E3; [|lia]. destruct E3 as [-> Hne].
    intros E. injection E as <- <-. split; [simpl; lia|contradiction]. }
  destruct (flag =? 1).
  - destruct (readField FRecordSize r1 size0) as [[sb|e2] r2] eqn:E2.
    + apply readField_bytes_Ok in E2; [|lia]. destruct E2 as [E2 [Hsb _]].
      apply Hfinal.
      * pose proof (be_value_bounds sb). rewrite accumulate_small by lia. lia.
      * rewrite E2, length_app. lia.
    + apply readField_bytes_Error in E2; [|lia]. destruct E2 as [-> Hne].
      intros E. injection E as <- <-. split; [simpl; lia|contradiction].
  - apply Hfinal; lia.
Qed.

(** ** Fuel *)

Section Fuel.
Context {R : Type} `{Reader R}.

Lemma ReadRecord_step_mono
    (loop1 loop2 : R -> Z -> list StructItem -> option (result (Z * list StructItem) * R))
    (r : R) (x : result Record * R) :
  (forall r1 rs it y, loop1 r1 rs it = Some y -> loop2 r1 rs it = Some y) ->
  ReadRecord_step loop1 r = Some x -> ReadRecord_step loop2 r = Some x.
Proof.
  intros Hloop. unfold ReadRecord_step.
  destruct (ReadRecord_front r) as [[[[[rsize rtype] size1] value]|e] r1]; [|auto].
  destruct ((rtype =? TypeAVP) || (rtype =? TypeString)); [auto|].
  destruct (rtype =? TypeInt); [auto|].
  destruct (rtype =? TypeDouble); [auto|].
  destruct (rtype =? TypeStruct); [|auto].
  destruct (loop1 r1 rsize []) as [y|] eqn:E; [|discriminate].
  rewrite (Hloop _ _ _ _ E). auto.
Qed.

Lemma readStructItems_step_mono
    (rr1 rr2 : R -> option (result Record * R))
    (next1 next2 : R -> Z -> list StructItem -> option (result (Z * list StructItem) * R))
    (r : R) (rsize : Z) (items : list StructItem) (x : result (Z * list StructItem) * R) :
  (forall r1 y, rr1 r1 = Some y -> rr2 r1 = Some y) ->
  (forall r1 rs it y, next1 r1 rs it = Some y -> next2 r1 rs it = Some y) ->
  readStructItems_step rr1 next1 r rsize items = Some x ->
  readStructItems_step rr2 next2 r rsize items = Some x.
Proof.
  intros Hrr Hnext. unfold readStructItems_step.
  destruct (rr1 r) as [[[avpName|e] r1]|] eqn:E1; [| |discriminate];
    rewrite (Hrr _ _ E1); [|auto].
  destruct (negb (Type_ avpName =? TypeAVP)); [auto|].
  destruct (rr1 r1) as [[[avpValue|e] r2]|] eqn:E2; [| |discriminate];
    rewrite (Hrr _ _ E2); [|auto].
  apply Hnext.
Qed.

(** A result obtained with some fuel is obtained with any larger fuel. *)
Lemma fuel_mono (fuel : nat) :
  (forall fuel' r x, (fuel <= fuel')%nat ->
     ReadRecord_fuel fuel r = Some x -> ReadRecord_fuel fuel' r = Some x) /\
  (forall fuel' r rs it x, (fuel <= fuel')%nat ->
     readStructItems_fuel fuel r rs it = Some x ->
     readStructItems_fuel fuel' r rs it = Some x).
Proof.
  induction fuel as [|fuel [IHr IHs]]; split; try discriminate.
  - intros [|fuel'] r x Hle; [lia|]. cbn [ReadRecord_fuel].
    apply ReadRecord_step_mono. intros r1 rs it y. apply IHs. lia.
  - intros [|fuel'] r rs it x Hle; [lia|]. cbn [readStructItems_fuel].
    apply readStructItems_step_mono.
    + intros r1 y. apply IHr. lia.
    + intros r1 rs1 it1 y. apply IHs. lia.
Qed.

End Fuel.

(** ** Bytes taken by [ReadRecord] *)

Lemma ReadRecord_step_consumes
    (loop : bytes_Reader -> Z -> list StructItem
            -> option (result (Z * list StructItem) * bytes_Reader))
    (r : bytes_Reader) (x : result Record * bytes_Reader) :
  (forall r1 rs it y, (length r1 < length r)%nat ->
     loop r1 rs it = Some y -> items_consumption r1 rs y) ->
  ReadRecord_step loop r = Some x -> record_consumption r x.
Proof.
  intros Hloop. unfold ReadRecord_step.
  destruct (ReadRecord_front r) as [[[[[rsize rtype] size1] value]|e] r1] eqn:Ef.
  2:{ apply ReadRecord_front_bytes_Error in Ef. destruct Ef as [Hle Hend].
      intros E. injection E as <-. split; [exact Hle|].
      destruct e; try exact I. destruct (Hend eq_refl) as [b ->]. simpl. lia. }
  apply ReadRecord_front_bytes_Ok in Ef.
  destruct Ef as [pre [-> [Hrs [Hpos [Htype Hval]]]]].
  assert (Hsimple : forall v,
             record_consumption (pre ++ r1) (Ok (mkRecord rsize rtype v), r1)).
  { intros v. unfold record_consumption. rewrite length_app. cbn [size].
    split; [lia|]. split; lia. }
  destruct ((rtype =? TypeAVP) || (rtype =? TypeString)).
  { intros E. injection E as <-. apply Hsimple. }
  destruct (rtype =? TypeInt).
  { intros E. injection E as <-. apply Hsimple. }
  destruct (rtype =? TypeDouble).
  { intros E. injection E as <-. apply Hsimple. }
  destruct (rtype =? TypeStruct).
  2:{ intros E. injection E as <-. split; [rewrite length_app; lia|exact I]. }
  destruct (loop r1 rsize []) as [[[[rsize' items]|e] r2]|] eqn:El; [| |discriminate].
  - apply Hloop in El; [|rewrite length_app; lia].
    destruct El as [Hle [Hlt Hsz]].
    intros E. injection E as <-. unfold record_consumption. rewrite length_app in *.
    cbn [size]. split; [lia|]. split; [lia|]. intros Hbig.
    specialize (Hsz ltac:(lia) ltac:(lia)). lia.
  - apply Hloop in El; [|rewrite length_app; lia].
    destruct El as [Hle Hend].
    intros E. injection E as <-. unfold record_consumption. rewrite length_app in *.
    split; [lia|]. destruct e; try exact I. lia.
Qed.

Lemma readStructItems_step_consumes
    (rr : bytes_Reader -> option (result Record * bytes_Reader))
    (next : bytes_Reader -> Z -> list StructItem
            -> option (result (Z * list StructItem) * bytes_Reader))
    (r : bytes_Reader) (rsize : Z) (items : list StructItem)
    (x : result (Z * list StructItem) * bytes_Reader) :
  (forall r1 y, rr r1 = Some y -> record_consumption r1 y) ->
  (forall r1 rs it y, (length r1 < length r)%nat ->
     next r1 rs it = Some y -> items_consumption r1 rs y) ->
  readStructItems_step rr next r rsize items = Some x -> items_consumption r rsize x.
Proof.
  intros Hrr Hnext. unfold readStructItems_step.
  destruct (rr r) as [[[avpName|e] r1]|] eqn:E1; [| |discriminate].
  2:{ apply Hrr in E1. destruct E1 as [Hle Hend].
      destruct e; intros E; injection E as <-; (split; [exact Hle|]); try exact I.
      split; [exact Hend|]. intros Hrs Hbig. rewrite int_add_small by lia. lia. }
  apply Hrr in E1. destruct E1 as [Hle1 [Hlt1 Hsz1]].
  destruct (negb (Type_ avpName =? TypeAVP)).
  { intros E. injection E as <-. split; [exact Hle1|exact I]. }
  destruct (rr r1) as [[[avpValue|e] r2]|] eqn:E2; [| |discriminate].
  2:{ apply Hrr in E2. destruct E2 as [Hle2 Hend].
      intros E. injection E as <-. split; [lia|]. destruct e; try exact I. lia. }
  apply Hrr in E2. destruct E2 as [Hle2 [Hlt2 Hsz2]].
  intros E. apply Hnext in E; [|lia].
  destruct x as [[[rsize' items']|e] r3]; destruct E as [Hle3 Hrest].
  - destruct Hrest as [Hlt3 Hsz3]. split; [lia|]. split; [lia|].
    intros Hrs Hbig.
    specialize (Hsz1 ltac:(lia)). specialize (Hsz2 ltac:(lia)).
    rewrite (int_add_small rsize) in Hsz3 by lia.
    rewrite int_add_small in Hsz3 by lia.
    specialize (Hsz3 ltac:(lia) ltac:(lia)). lia.
  - split; [lia|]. destruct e; try exact I. lia.
Qed.

Lemma fuel_consumes (fuel : nat) :
  (forall r x, ReadRecord_fuel fuel r = Some x -> record_consumption r x) /\
  (forall r rs it x, readStructItems_fuel fuel r rs it = Some x -> items_consumption r rs x).
Proof.
  induction fuel as [|fuel [IHr IHs]]; split; try discriminate.
  - intros r x. cbn [ReadRecord_fuel]. apply ReadRecord_step_consumes.
    intros r1 rs it y _. apply IHs.
  - intros r rs it x. cbn [readStructItems_fuel]. apply readStructItems_step_consumes.
    + apply IHr.
    + intros r1 rs1 it1 y _. apply IHs.
Qed.

(** ** [ReadRecord] returns *)

Lemma ReadRecord_step_total
    (loop : bytes_Reader -> Z -> list StructItem
            -> option (result (Z * list StructItem) * bytes_Reader))
    (r : bytes_Reader) :
  (forall r1 rs it, (length r1 < length r)%nat -> loop r1 rs it <> None) ->
  ReadRecord_step loop r <> None.
Proof.
  intros Hloop. unfold ReadRecord_step.
  destruct (ReadRecord_front r) as [[[[[rsize rtype] size1] value]|e] r1] eqn:Ef;
    [|discriminate].
  apply ReadRecord_front_bytes_Ok in Ef.
  destruct Ef as [pre [-> [Hrs [Hpos _]]]].
  destruct ((rtype =? TypeAVP) || (rtype =? TypeString)); [discriminate|].
  destruct (rtype =? TypeInt); [discriminate|].
  destruct (rtype =? TypeDouble); [discriminate|].
  destruct (rtype =? TypeStruct); [|discriminate].
  specialize (Hloop r1 rsize [] ltac:(rewrite length_app; lia)).
  destruct (loop r1 rsize []) as [[[[rsize' items]|e] r2]|];
    [discriminate|discriminate|contradiction].
Qed.

Lemma readStructItems_step_total
    (rr : bytes_Reader -> option (result Record * bytes_Reader))
    (next : bytes_Reader -> Z -> list StructItem
            -> option (result (Z * list StructItem) * bytes_Reader))
    (r : bytes_Reader) (rsize : Z) (items : list StructItem) :
  (forall r1, (length r1 <= length r)%nat -> rr r1 <> None) ->
  (forall r1 y, rr r1 = Some y -> record_consumption r1 y) ->
  (forall r1 rs it, (length r1 + 2 <= length r)%nat -> next r1 rs it <> None) ->
  readStructItems_step rr next r rsize items <> None.
Proof.
  intros Hrr Hcons Hnext. unfold readStructItems_step.
  pose proof (Hrr r ltac:(lia)) as Hr.
  destruct (rr r) as [[[avpName|e] r1]|] eqn:E1; [| |contradiction].
  2:{ destruct e; discriminate. }
  apply Hcons in E1. destruct E1 as [Hle1 [Hlt1 _]].
  destruct (negb (Type_ avpName =? TypeAVP)); [discriminate|].
  pose proof (Hrr r1 ltac:(lia)) as Hr1.
  destruct (rr r1) as [[[avpValue|e] r2]|] eqn:E2; [|discriminate|contradiction].
  apply Hcons in E2. destruct E2 as [Hle2 [Hlt2 _]].
  apply Hnext. lia.
Qed.

(** Fuel of twice the length of the input (and one, or two for the loop) is
    never exhausted. *)
Lemma fuel_total (fuel : nat) :
  (forall r : bytes_Reader, (2 * length r + 1 <= fuel)%nat -> ReadRecord_fuel fuel r <> None) /\
  (forall (r : bytes_Reader) rs it, (2 * length r + 2 <= fuel)%nat ->
     readStructItems_fuel fuel r rs it <> None).
Proof.
  induction fuel as [|fuel [IHr IHs]]; split.
  - intros r Hf. lia.
  - intros r rs it Hf. lia.
  - intros r Hf. cbn [ReadRecord_fuel]. apply ReadRecord_step_total.
    intros r1 rs it Hlt. apply IHs. lia.
  - intros r rs it Hf. cbn [readStructItems_fuel]. apply readStructItems_step_total.
    + intros r1 Hle. apply IHr. lia.
    + apply (fuel_consumes fuel).
    + intros r1 rs1 it1 Hle. apply IHs. lia.
Qed.

Theorem ReadRecord_total (r : bytes_Reader) : exists x, ReadRecord r = Some x.
Proof.
  unfold ReadRecord.
  pose proof (proj1 (fuel_total (2 * length r + 1)) r ltac:(lia)) as Hne.
  destruct (ReadRecord_fuel (2 * length r + 1) r) as [x|]; [eauto|contradiction].
Qed.

Theorem readStructItems_total (r : bytes_Reader) (rsize : Z) (items : list StructItem) :
  exists x, readStructItems r rsize items = Some x.
Proof.
  unfold readStructItems.
  pose proof (proj2 (fuel_total (2 * length r + 2)) r rsize items ltac:(lia)) as Hne.
  destruct (readStructItems_fuel (2 * length r + 2) r rsize items) as [x|];
    [eauto|contradiction].
Qed.

(** Whatever the fuel, a result is the result of [ReadRecord]. *)
Lemma ReadRecord_fuel_complete (fuel : nat) (r : bytes_Reader) (x : result Record * bytes_Reader) :
  ReadRecord_fuel fuel r = Some x -> ReadRecord r = Some x.
Proof.
  intros E. destruct (ReadRecord_total r) as [y Hy].
  destruct (Nat.le_ge_cases fuel (2 * length r + 1)) as [Hle|Hge].
  - apply (proj1 (fuel_mono fuel) _ _ _ Hle E).
  - unfold ReadRecord in Hy.
    pose proof (proj1 (fuel_mono _) _ _ _ Hge Hy) as E'.
    rewrite E in E'. injection E' as ->. exact Hy.
Qed.

Lemma readStructItems_fuel_complete (fuel : nat) (r : bytes_Reader) (rsize : Z)
    (items : list StructItem) (x : result (Z * list StructItem) * bytes_Reader) :
  readStructItems_fuel fuel r rsize items = Some x -> readStructItems r rsize items = Some x.
Proof.
  intros E. destruct (readStructItems_total r rsize items) as [y Hy].
  destruct (Nat.le_ge_cases fuel (2 * length r + 2)) as [Hle|Hge].
  - apply (proj2 (fuel_mono fuel) _ _ _ _ _ Hle E).
  - unfold readStructItems in Hy.
    pose proof (proj2 (fuel_mono _) _ _ _ _ _ Hge Hy) as E'.
    rewrite E in E'. injection E' as ->. exact Hy.
Qed.

(** The equations of [ReadRecord] and of its loop, free of fuel. *)
Theorem ReadRecord_eq (r : bytes_Reader) :
  ReadRecord r = ReadRecord_step readStructItems r.
Proof.
  destruct (ReadRecord_total r) as [x Hx]. rewrite Hx. symmetry.
  unfold ReadRecord in Hx. rewrite Nat.add_1_r in Hx. cbn [ReadRecord_fuel] in Hx.
  revert Hx. apply ReadRecord_step_mono.
  intros r1 rs it y. apply readStructItems_fuel_complete.
Qed.

Theorem readStructItems_eq (r : bytes_Reader) (rsize : Z) (items : list StructItem) :
  readStructItems r rsize items =
  readStructItems_step ReadRecord readStructItems r rsize items.
Proof.
  destruct (readStructItems_total r rsize items) as [x Hx]. rewrite Hx. symmetry.
  unfold readStructItems in Hx.
  replace (2 * length r + 2)%nat with (S (2 * length r + 1)) in Hx by lia.
  cbn [readStructItems_fuel] in Hx.
  revert Hx. apply readStructItems_step_mono.
  - intros r1 y. apply ReadRecord_fuel_complete.
  - intros r1 rs it y. apply readStructItems_fuel_complete.
Qed.

Lemma ReadRecord_consumes (r : bytes_Reader) (x : result Record * bytes_Reader) :
  ReadRecord r = Some x -> record_consumption r x.
Proof. apply (fuel_consumes _). Qed.

Lemma readStructItems_consumes (r : bytes_Reader) (rsize : Z) (items : list StructItem)
    (x : result (Z * list StructItem) * bytes_Reader) :
  readStructItems r rsize items = Some x -> items_consumption r rsize x.
Proof. apply (fuel_consumes _). Qed.

(** ** Decoded integers *)

(** The value of a decoded record of type [TypeInt] is the accumulation of
    its payload bytes. *)
Lemma ReadRecord_int_value (r r' : bytes_Reader) (record : Record) :
  ReadRecord r = Some (Ok record, r') ->
  Type_ record = TypeInt ->
  exists size1 value,
    Z.of_nat (length value) = size1 /\ size1 < size record /\
    Value record = Int (if size1 =? 0 then 0 else accumulate value).
Proof.
  rewrite ReadRecord_eq. unfold ReadRecord_step.
  destruct (ReadRecord_front r) as [[[[[rsize rtype] size1] value]|e] r1] eqn:Ef;
    [|discriminate].
  apply ReadRecord_front_bytes_Ok in Ef.
  destruct Ef as [pre [-> [Hrs [Hpos [Htype [Hval Hlt]]]]]].
  destruct (Z.eqb_spec rtype TypeAVP) as [Ea|Ea].
  { cbn [orb]. intros E. injection E as <- <-. cbn [Type_]. rewrite Ea. discriminate. }
  destruct (Z.eqb_spec rtype TypeString) as [Es|Es].
  { cbn [orb]. intros E. injection E as <- <-. cbn [Type_]. rewrite Es. discriminate. }
  cbn [orb].
  destruct (Z.eqb_spec rtype TypeInt) as [Ei|Ei].
  { intros E. injection E as <- <-. intros _. exists size1, value. cbn [size Value]. auto. }
  destruct (Z.eqb_spec rtype TypeDouble) as [Ed|Ed].
  { intros E. injection E as <- <-. cbn [Type_]. contradiction. }
  destruct (Z.eqb_spec rtype TypeStruct) as [Et|Et].
  { destruct (readStructItems r1 rsize []) as [[[[rsize' items]|e] r2]|]; try discriminate.
    intros E. injection E as <- <-. cbn [Type_]. contradiction. }
  discriminate.
Qed.

(** The value of a decoded record of type [TypeAVP] is a string: the
    assertion [avpName.Value.(string)] of the struct loop cannot fail. *)
Lemma ReadRecord_avp_value (r r' : bytes_Reader) (record : Record) :
  ReadRecord r = Some (Ok record, r') ->
  Type_ record = TypeAVP ->
  exists s, Value record = String s.
Proof.
  rewrite ReadRecord_eq. unfold ReadRecord_step.
  destruct (ReadRecord_front r) as [[[[[rsize rtype] size1] value]|e] r1]; [|discriminate].
  destruct ((rtype =? TypeAVP) || (rtype =? TypeString)).
  { intros E. injection E as <- <-. cbn [Value]. eauto. }
  destruct (Z.eqb_spec rtype TypeInt) as [Ei|Ei].
  { intros E. injection E as <- <-. cbn [Type_]. rewrite Ei. discriminate. }
  destruct (Z.eqb_spec rtype TypeDouble) as [Ed|Ed].
  { intros E. injection E as <- <-. cbn [Type_]. rewrite Ed. discriminate. }
  destruct (Z.eqb_spec rtype TypeStruct) as [Et|Et]; [|discriminate].
  destruct (readStructItems r1 rsize []) as [[[[rsize' items]|e] r2]|]; try discriminate.
  intros E. injection E as <- <-. cbn [Type_]. rewrite Et. discriminate.
Qed.

(** C9, as stated, fails: the eight payload bytes ff..ff of the record
    90 08 ff ff ff ff ff ff ff ff fill the 64 bits of Go's [int], and the
    decoded integer is -1. *)
Lemma C9_counterexample :
  ReadRecord (hex "9008ffffffffffffffff")
  = Some (Ok (mkRecord 10 TypeInt (Int (-1))), []) /\ -1 < 0.
Proof. split; [vm_compute; reflexivity|lia]. Qed.

(** C9, amended: a decoded record of integer type that takes at most 8 bytes
    on the wire (so at most 7 payload bytes, as every record with an inline
    size does) has a non-negative value, below 2^56. *)
Theorem C9_decoded_int_nonnegative (r r' : bytes_Reader) (record : Record) :
  ReadRecord r = Some (Ok record, r') ->
  Type_ record = TypeInt ->
  size record <= 8 ->
  exists v, Value record = Int v /\ 0 <= v < 2 ^ 56.
Proof.
  intros Hread Htype Hsize.
  destruct (ReadRecord_int_value r r' record Hread Htype) as [size1 [value [Hlen [Hlt ->]]]].
  eexists. split; [reflexivity|].
  destruct (size1 =? 0); [lia|].
  rewrite accumulate_small by lia.
  pose proof (be_value_bounds value) as Hb.
  assert (256 ^ Z.of_nat (length value) <= 256 ^ 7) by (apply Z.pow_le_mono_r; lia).
  change (256 ^ 7) with (2 ^ 56) in *. lia.
Qed.

Lemma C9_witness :
  exists v, Value (mkRecord 2 TypeInt (Int 42)) = Int v /\ 0 <= v < 2 ^ 56.
Proof.
  apply (C9_decoded_int_nonnegative (hex "102a") [] (mkRecord 2 TypeInt (Int 42))).
  - vm_compute. reflexivity.
  - reflexivity.
  - cbn [size]. lia.
Defined.

(** ** Record headers written by [Encode] *)

Lemma inline_header_fields (type k : Z) :
  0 <= type <= 15 -> 0 <= k <= 7 ->
  let b0 := Z_of_byte (byte_of_Z (Z.lor (wrap_uint8 (Z.shiftl k 4)) type)) in
  Z.shiftr b0 7 = 0 /\ Z.land (Z.shiftr b0 4) 0x7 = k /\ Z.land b0 0x0F = type.
Proof.
  intros Ht Hk.
  assert (Hk' : k = 0 \/ k = 1 \/ k = 2 \/ k = 3 \/ k = 4 \/ k = 5 \/ k = 6 \/ k = 7) by lia.
  assert (Ht' : type = 0 \/ type = 1 \/ type = 2 \/ type = 3 \/ type = 4 \/ type = 5 \/
                type = 6 \/ type = 7 \/ type = 8 \/ type = 9 \/ type = 10 \/ type = 11 \/
                type = 12 \/ type = 13 \/ type = 14 \/ type = 15) by lia.
  clear Ht Hk. enumerate_cases; vm_compute; auto.
Qed.

Lemma extended_header_fields (type s : Z) :
  0 <= type <= 15 -> 0 <= s <= 7 ->
  let b0 := Z_of_byte (byte_of_Z
              (Z.lor (Z.lor (Z.shiftl 1 7) (wrap_uint8 (Z.shiftl s 4))) type)) in
  Z.shiftr b0 7 = 1 /\ Z.land (Z.shiftr b0 4) 0x7 = s /\ Z.land b0 0x0F = type.
Proof.
  intros Ht Hs.
  assert (Hs' : s = 0 \/ s = 1 \/ s = 2 \/ s = 3 \/ s = 4 \/ s = 5 \/ s = 6 \/ s = 7) by lia.
  assert (Ht' : type = 0 \/ type = 1 \/ type = 2 \/ type = 3 \/ type = 4 \/ type = 5 \/
                type = 6 \/ type = 7 \/ type = 8 \/ type = 9 \/ type = 10 \/ type = 11 \/
                type = 12 \/ type = 13 \/ type = 14 \/ type = 15) by lia.
  clear Ht Hs. enumerate_cases; vm_compute; auto.
Qed.

Lemma readField_bytes_cons (what : field) (b : byte) (r : bytes_Reader) :
  readField what (b :: r) 1 = (Ok [b], r).
Proof. apply (readField_bytes_app what [b] r). discriminate. Qed.

(** [ReadRecord] reads back the header [Encode] writes: the first half of
    [ReadRecord] on an encoded frame gives the frame's length as
    [record.size], the type, and the value bytes. *)
Lemma ReadRecord_front_frame (type : Z) (value r' : list byte) :
  0 <= type <= 15 ->
  Z.of_nat (length value) < 2 ^ 32 ->
  @ReadRecord_front bytes_Reader _ (Encode_frame type value ++ r') =
  (Ok (Z.of_nat (length (Encode_frame type value)), type, Z.of_nat (length value), value), r').
Proof.
  intros Ht Hlen. unfold Encode_frame.
  destruct (Z.ltb_spec (Z.of_nat (length value)) 8) as [Hsmall|Hbig].
  - (* inline size *)
    destruct (inline_header_fields type (Z.of_nat (length value)) Ht ltac:(lia))
      as [Hflag [Hsize Htype]].
    cbn zeta in *. cbn [app]. unfold ReadRecord_front.
    rewrite readField_bytes_cons. cbn [nth].
    rewrite Hflag, Hsize, Htype. cbn [Z.eqb andb].
    rewrite int_add_small by lia.
    replace (Z.of_nat (length (byte_of_Z
               (Z.lor (wrap_uint8 (Z.shiftl (Z.of_nat (length value)) 4)) type) :: value)))
      with (1 + Z.of_nat (length value)) by (simpl length; lia).
    destruct (Z.eqb_spec (Z.of_nat (length value)) 0) as [E0|E0].
    + destruct value; [reflexivity|simpl in E0; lia].
    + rewrite readField_bytes_app; [reflexivity|].
      destruct value; [simpl in E0; lia|discriminate].
  - (* explicit size *)
    pose proof (getMinBinarySizeOfInt_range (Z.of_nat (length value))) as Hr.
    pose proof (intToBytesBE_length (Z.of_nat (length value))) as Hsl.
    set (sizeBytes := intToBytesBE (Z.of_nat (length value))) in *.
    assert (Hs1 : 1 <= Z.of_nat (length sizeBytes)).
    { rewrite Hsl, getMinBinarySizeOfInt_closed, Z.mod_small by lia.
      unfold unsigned_size. split_cases. }
    destruct (extended_header_fields type (Z.of_nat (length sizeBytes)) Ht ltac:(lia))
      as [Hflag [Hsize Htype]].
    cbn zeta in *. cbn [app]. unfold ReadRecord_front.
    rewrite readField_bytes_cons. cbn [nth].
    rewrite Hflag, Hsize, Htype. cbn [Z.eqb Pos.eqb].
    destruct (Z.eqb_spec (Z.of_nat (length sizeBytes)) 0) as [E0|_]; [lia|].
    cbn [andb]. rewrite <- app_assoc.
    rewrite readField_bytes_app.
    2:{ destruct sizeBytes; [simpl in Hs1; lia|discriminate]. }
    assert (Hacc : accumulate sizeBytes = Z.of_nat (length value)).
    { unfold sizeBytes. rewrite accumulate_intToBytesBE. apply Z.mod_small. lia. }
    rewrite Hacc.
    destruct (Z.eqb_spec (Z.of_nat (length value)) 0) as [E0|_]; [lia|].
    rewrite readField_bytes_app.
    2:{ destruct value; [simpl in Hbig; lia|discriminate]. }
    rewrite (int_add_small 1) by lia. rewrite int_add_small by lia.
    replace (Z.of_nat (length (byte_of_Z
               (Z.lor (Z.lor (Z.shiftl 1 7)
                  (wrap_uint8 (Z.shiftl (Z.of_nat (length sizeBytes)) 4))) type)
               :: sizeBytes ++ value)))
      with (1 + Z.of_nat (length sizeBytes) + Z.of_nat (length value))
      by (simpl length; rewrite length_app; lia).
    reflexivity.
Qed.

(** ** Round trip *)

(** [ReadRecord] of an encoded scalar frame followed by anything. *)
Lemma ReadRecord_frame (type : Z) (value r' : list byte) :
  0 <= type <= 15 ->
  Z.of_nat (length value) < 2 ^ 32 ->
  ReadRecord (Encode_frame type value ++ r') =
  ReadRecord_step readStructItems (Encode_frame type value ++ r') /\
  @ReadRecord_front bytes_Reader _ (Encode_frame type value ++ r') =
  (Ok (Z.of_nat (length (Encode_frame type value)), type, Z.of_nat (length value), value), r').
Proof.
  intros Ht Hlen. split; [apply ReadRecord_eq|apply ReadRecord_front_frame; assumption].
Qed.

Lemma roundtrip_int (i : Z) :
  0 <= i < 2 ^ 32 ->
  exists rsize, roundtrip (VInt i) = Some (Ok (mkRecord rsize TypeInt (Int i)), []).
Proof.
  intros Hi. unfold roundtrip, CreateRecord, Encode. cbn [Type_ Value].
  change (TypeInt =? TypeInt) with true. cbv iota.
  destruct (Z.eqb_spec i 0) as [->|Hne].
  { exists 1. vm_compute. reflexivity. }
  unfold write_all, Write, bytes_Buffer_Writer. cbn [app].
  pose proof (intToBytesBE_length i) as Hl.
  pose proof (getMinBinarySizeOfInt_range i) as Hr.
  rewrite <- (app_nil_r (Encode_frame TypeInt (intToBytesBE i))).
  destruct (ReadRecord_frame TypeInt (intToBytesBE i) []) as [-> Hf];
    [unfold TypeInt; lia|lia|].
  unfold ReadRecord_step. rewrite Hf.
  change ((TypeInt =? TypeAVP) || (TypeInt =? TypeString)) with false.
  change (TypeInt =? TypeInt) with true. cbv iota.
  rewrite accumulate_intToBytesBE, Z.mod_small by lia.
  eexists. repeat f_equal.
  destruct (Z.eqb_spec (Z.of_nat (length (intToBytesBE i))) 0) as [E0|_]; [|reflexivity].
  rewrite Hl, getMinBinarySizeOfInt_closed, Z.mod_small in E0 by lia.
  unfold unsigned_size in E0. revert E0. split_cases.
Qed.

Lemma roundtrip_string (s : list byte) :
  Z.of_nat (length s) + 1 < 2 ^ 32 ->
  exists rsize, roundtrip (VString s) = Some (Ok (mkRecord rsize TypeString (String s)), []).
Proof.
  intros Hs. unfold roundtrip, CreateRecord, Encode. cbn [Type_ Value].
  change (TypeString =? TypeInt) with false.
  change (TypeString =? TypeString) with true. cbv iota.
  unfold write_all, Write, bytes_Buffer_Writer. cbn [app].
  assert (Hl : Z.of_nat (length (s ++ [Byte.x00])) = Z.of_nat (length s) + 1)
    by (rewrite length_app; simpl length; lia).
  rewrite <- (app_nil_r (Encode_frame TypeString (s ++ [Byte.x00]))).
  destruct (ReadRecord_frame TypeString (s ++ [Byte.x00]) []) as [-> Hf];
    [unfold TypeString; lia|lia|].
  unfold ReadRecord_step. rewrite Hf.
  change ((TypeString =? TypeAVP) || (TypeString =? TypeString)) with true. cbv iota.
  destruct (Z.eqb_spec (Z.of_nat (length (s ++ [Byte.x00]))) 0) as [E0|_]; [lia|].
  rewrite removelast_last. eauto.
Qed.

Lemma roundtrip_double (f : float) :
  let k := int_of_float64 (PrimFloat.mul f 1000%float) in
  0 <= k < 2 ^ 32 ->
  exists rsize,
    roundtrip (VFloat64 f) =
    Some (Ok (mkRecord rsize TypeDouble
                (Float64 (PrimFloat.div (float64_of_int k) 1000%float))), []).
Proof.
  intros k Hk. unfold roundtrip, CreateRecord, Encode. cbn [Type_ Value].
  change (TypeDouble =? TypeInt) with false.
  change (TypeDouble =? TypeString) with false.
  change (TypeDouble =? TypeDouble) with true. cbv iota.
  unfold write_all, Write, bytes_Buffer_Writer. cbn [app].
  fold k.
  pose proof (intToBytesBE_length k) as Hl.
  pose proof (getMinBinarySizeOfInt_range k) as Hr.
  rewrite <- (app_nil_r (Encode_frame TypeDouble (intToBytesBE k))).
  destruct (ReadRecord_frame TypeDouble (intToBytesBE k) []) as [-> Hf];
    [unfold TypeDouble; lia|lia|].
  unfold ReadRecord_step. rewrite Hf.
  change ((TypeDouble =? TypeAVP) || (TypeDouble =? TypeString)) with false.
  change (TypeDouble =? TypeInt) with false.
  change (TypeDouble =? TypeDouble) with true. cbv iota.
  rewrite accumulate_intToBytesBE, Z.mod_small by lia.
  eauto.
Qed.

(** C1, as stated, fails.  The integer -1 is sent as ff ff ff ff and comes
    back as 4294967295; 2^32 is sent with no payload and comes back as 0; the
    double 1.001 is sent as 1000 (the product 1000.9999999999999 is cut, not
    rounded) and comes back as 1.0. *)
Lemma C1_counterexample :
  (roundtrip (VInt (-1)) = Some (Ok (mkRecord 5 TypeInt (Int 4294967295)), []) /\
   ~ same_value (VInt (-1)) (Int 4294967295)) /\
  (roundtrip (VInt (2 ^ 32)) = Some (Ok (mkRecord 1 TypeInt (Int 0)), []) /\
   ~ same_value (VInt (2 ^ 32)) (Int 0)) /\
  (roundtrip (VFloat64 0x1.004189374bc6ap+0%float)
   = Some (Ok (mkRecord 3 TypeDouble (Float64 1%float)), []) /\
   ~ same_value (VFloat64 0x1.004189374bc6ap+0%float) (Float64 1%float)).
Proof.
  repeat split; try (vm_compute; reflexivity).
  - cbn [same_value]. lia.
  - cbn [same_value]. lia.
  - cbn [same_value]. vm_compute. discriminate.
Qed.

(** C1, amended: encoding a representable host value (an integer of
    0..2^32-1, a string whose length with its NUL fits 32 bits, a double that
    is 1/1000 of an integer of 0..2^32-1 exactly as [float64] computes it) and
    decoding the bytes gives a record of the same type and an equal value,
    with nothing left over. *)
Theorem C1_roundtrip (v : ValidTypes) :
  representable v ->
  exists record,
    roundtrip v = Some (Ok record, []) /\
    Type_ record = type_of v /\
    same_value v (Value record).
Proof.
  destruct v as [i|s|f]; cbn [representable type_of].
  - intros Hi. destruct (roundtrip_int i Hi) as [rsize ->].
    eexists. split; [reflexivity|]. cbn [Type_ Value same_value]. auto.
  - intros Hs. destruct (roundtrip_string s Hs) as [rsize ->].
    eexists. split; [reflexivity|]. cbn [Type_ Value same_value]. auto.
  - intros [Hk Heq]. destruct (roundtrip_double f Hk) as [rsize ->].
    eexists. split; [reflexivity|]. cbn [Type_ Value same_value]. auto.
Qed.

(** The double of the tests, 1.588, is representable: it is sent as 06 34
    (1588) and comes back equal. *)
Lemma C1_witness :
  exists record,
    roundtrip (VFloat64 0x1.96872b020c49cp+0%float) = Some (Ok record, []) /\
    Type_ record = TypeDouble /\
    same_value (VFloat64 0x1.96872b020c49cp+0%float) (Value record).
Proof.
  apply (C1_roundtrip (VFloat64 0x1.96872b020c49cp+0%float)).
  cbn [representable]. split; [split|].
  - vm_compute. discriminate.
  - vm_compute. reflexivity.
  - vm_compute. reflexivity.
Defined.

(** ** Structs on the wire *)

Lemma ReadRecord_front_end_mark (r' : bytes_Reader) :
  @ReadRecord_front bytes_Reader _ (Byte.x83 :: r') = (Error errEndOfStruct, r').
Proof. unfold ReadRecord_front. rewrite readField_bytes_cons. reflexivity. Qed.

Lemma ReadRecord_end_mark (r' : bytes_Reader) :
  ReadRecord (Byte.x83 :: r') = Some (Error errEndOfStruct, r').
Proof.
  rewrite ReadRecord_eq. unfold ReadRecord_step.
  rewrite ReadRecord_front_end_mark. reflexivity.
Qed.

Lemma ReadRecord_front_struct_header (r' : bytes_Reader) :
  @ReadRecord_front bytes_Reader _ (Byte.x03 :: r') = (Ok (1, TypeStruct, 0, []), r').
Proof. unfold ReadRecord_front. rewrite readField_bytes_cons. reflexivity. Qed.

Lemma ReadRecord_empty_key (r' : bytes_Reader) :
  ReadRecord (Byte.x05 :: r') = Some (Ok (mkRecord 1 TypeAVP (String [])), r').
Proof.
  rewrite ReadRecord_eq. unfold ReadRecord_step, ReadRecord_front.
  rewrite readField_bytes_cons. reflexivity.
Qed.

(** A struct whose body is the end mark alone. *)
Lemma readStructItems_end_mark (r' : bytes_Reader) (rsize : Z) (items : list StructItem) :
  readStructItems (Byte.x83 :: r') rsize items = Some (Ok (int_add rsize 1, items), r').
Proof.
  rewrite readStructItems_eq. unfold readStructItems_step.
  rewrite ReadRecord_end_mark. reflexivity.
Qed.

(** [ReadRecord] of a struct is its loop run on what follows the header. *)
Lemma ReadRecord_struct (r body : bytes_Reader) (rsize size1 : Z) (value : list byte) :
  ReadRecord_front r = (Ok (rsize, TypeStruct, size1, value), body) ->
  ReadRecord r =
  match readStructItems body rsize [] with
  | None => None
  | Some (Error e, r') => Some (Error e, r')
  | Some (Ok (rsize', items), r') => Some (Ok (mkRecord rsize' TypeStruct (Items items)), r')
  end.
Proof.
  intros Hf. rewrite ReadRecord_eq. unfold ReadRecord_step. rewrite Hf. reflexivity.
Qed.

Lemma ReadRecord_nested (n : nat) :
  forall r' : bytes_Reader, ReadRecord (nested n ++ r') = Some (Ok (nested_record n), r').
Proof.
  induction n as [|n IH]; intros r'.
  - cbn [nested app].
    rewrite (ReadRecord_struct _ _ _ _ _ (ReadRecord_front_struct_header _)).
    rewrite readStructItems_end_mark. reflexivity.
  - cbn [nested app]. rewrite <- app_assoc. cbn [app].
    rewrite (ReadRecord_struct _ _ _ _ _ (ReadRecord_front_struct_header _)).
    rewrite readStructItems_eq. unfold readStructItems_step.
    rewrite ReadRecord_empty_key. cbn [Type_ size Value string_of_any].
    change (negb (TypeAVP =? TypeAVP)) with false. cbv iota.
    rewrite IH. rewrite readStructItems_end_mark. reflexivity.
Qed.

Lemma depth_nested_record (n : nat) : depth (nested_record n) = S n.
Proof.
  induction n as [|n IH]; [reflexivity|].
  cbn [nested_record depth]. cbn [depth] in IH. rewrite IH.
  rewrite Nat.max_0_r. reflexivity.
Qed.

(** C6, as stated, fails: no depth bounds the decoder.  Whatever maximum is
    named, [ReadRecord] decodes an input nested deeper instead of failing. *)
Lemma C6_counterexample :
  ~ exists maxDepth : nat,
      forall n : nat, (maxDepth < n)%nat ->
        exists e r', ReadRecord (nested n) = Some (Error e, r').
Proof.
  intros [maxDepth Hmax].
  destruct (Hmax (S maxDepth) ltac:(lia)) as [e [r' Herr]].
  pose proof (ReadRecord_nested (S maxDepth) []) as Hok.
  rewrite app_nil_r in Hok. rewrite Hok in Herr. discriminate.
Qed.

(** C6, amended: struct decoding has no nesting limit and no depth error.
    For every [n], [ReadRecord] decodes the [n + 1] structures nested in
    [nested n] and returns a record of depth [n + 1]; only the length of the
    input bounds the recursion. *)
Theorem C6_no_depth_limit (n : nat) (r' : bytes_Reader) :
  ReadRecord (nested n ++ r') = Some (Ok (nested_record n), r') /\
  depth (nested_record n) = S n.
Proof. split; [apply ReadRecord_nested|apply depth_nested_record]. Qed.

(** ** The struct loop and the pairs on the wire *)

Lemma wire_pairs_app (a b c : bytes_Reader) (items1 items2 : list StructItem) :
  wire_pairs a items1 b -> wire_pairs b items2 c -> wire_pairs a (items1 ++ items2) c.
Proof.
  intros H1 H2. induction H1 as [r|r r1 r2 r' key value rest Hk Ht Hv Hrest IH].
  - exact H2.
  - cbn [app]. apply (wire_pairs_cons r r1 r2 c key value); auto.
Qed.

(** One turn of the loop on a well-formed pair. *)
Lemma readStructItems_pair (r r1 r2 : bytes_Reader) (key value : Record)
    (rsize : Z) (acc : list StructItem) :
  ReadRecord r = Some (Ok key, r1) ->
  Type_ key = TypeAVP ->
  ReadRecord r1 = Some (Ok value, r2) ->
  readStructItems r rsize acc =
  readStructItems r2 (int_add (int_add rsize (size key)) (size value))
                  (acc ++ [mkStructItem (string_of_any (Value key)) value]).
Proof.
  intros Hk Ht Hv. rewrite (readStructItems_eq r). unfold readStructItems_step.
  rewrite Hk, Ht. change (negb (TypeAVP =? TypeAVP)) with false. cbv iota.
  rewrite Hv. reflexivity.
Qed.

(** One turn of the loop on a key of another type. *)
Lemma readStructItems_bad_key (r r1 : bytes_Reader) (key : Record)
    (rsize : Z) (acc : list StructItem) :
  ReadRecord r = Some (Ok key, r1) ->
  Type_ key <> TypeAVP ->
  readStructItems r rsize acc = Some (Error (ErrStructKey (Type_ key)), r1).
Proof.
  intros Hk Ht. rewrite (readStructItems_eq r). unfold readStructItems_step.
  rewrite Hk. destruct (Z.eqb_spec (Type_ key) TypeAVP); [contradiction|reflexivity].
Qed.

(** The loop appends the pairs it passes, in their order, to what it has. *)
Lemma readStructItems_wire_pairs (r r' : bytes_Reader) (items : list StructItem) :
  wire_pairs r items r' ->
  forall rsize acc, exists rsize',
    readStructItems r rsize acc = readStructItems r' rsize' (acc ++ items).
Proof.
  intros Hw. induction Hw as [r|r r1 r2 r' key value rest Hk Ht Hv Hrest IH];
    intros rsize acc.
  - exists rsize. rewrite app_nil_r. reflexivity.
  - destruct (IH (int_add (int_add rsize (size key)) (size value))
                 (acc ++ [mkStructItem (string_of_any (Value key)) value]))
      as [rsize' Heq].
    exists rsize'. rewrite <- app_assoc in Heq. cbn [app] in Heq. rewrite <- Heq.
    apply (readStructItems_pair r r1 r2); assumption.
Qed.

(** Conversely, the items the loop returns are what it had, then the pairs
    on the wire up to the end mark. *)
Lemma readStructItems_fuel_wire_items (fuel : nat) :
  forall (r r' : bytes_Reader) (rsize rsize' : Z) (acc items : list StructItem),
    readStructItems_fuel fuel r rsize acc = Some (Ok (rsize', items), r') ->
    exists new, items = acc ++ new /\ wire_items r new r'.
Proof.
  induction fuel as [|fuel IH]; intros r r' rsize rsize' acc items; [discriminate|].
  change (readStructItems_fuel (S fuel) r rsize acc)
    with (readStructItems_step (ReadRecord_fuel fuel) (readStructItems_fuel fuel) r rsize acc).
  unfold readStructItems_step.
  destruct (ReadRecord_fuel fuel r) as [[[key|e] r1]|] eqn:Ek; [| |discriminate].
  2:{ destruct e; try discriminate.
      intros E. injection E as <- <- <-.
      exists []. split; [symmetry; apply app_nil_r|].
      exists r. split; [constructor|].
      apply (ReadRecord_fuel_complete fuel). exact Ek. }
  apply ReadRecord_fuel_complete in Ek.
  destruct (Z.eqb_spec (Type_ key) TypeAVP) as [Ht|Ht]; [|discriminate].
  cbn [negb].
  destruct (ReadRecord_fuel fuel r1) as [[[value|e] r2]|] eqn:Ev; try discriminate.
  apply ReadRecord_fuel_complete in Ev.
  intros E. apply IH in E. destruct E as [new [-> [r3 [Hw Hend]]]].
  exists (mkStructItem (string_of_any (Value key)) value :: new).
  split; [rewrite <- app_assoc; reflexivity|].
  exists r3. split; [|exact Hend].
  apply (wire_pairs_cons r r1 r2 r3 key value); assumption.
Qed.

(** C5: the value of a decoded struct is the sequence of the key/value
    pairs of its body, one item for each pair on the wire and in the order of
    the wire, whatever the keys (equal keys give as many items): [ReadRecord]
    returns a struct with the items [items] exactly when [items] are the
    pairs read in order up to the end mark. *)
Theorem C5_struct_items_in_wire_order
    (s body : bytes_Reader) (rsize0 size1 : Z) (value0 : list byte) :
  ReadRecord_front s = (Ok (rsize0, TypeStruct, size1, value0), body) ->
  forall (items : list StructItem) (r' : bytes_Reader),
    wire_items body items r' <->
    exists rsize, ReadRecord s = Some (Ok (mkRecord rsize TypeStruct (Items items)), r').
Proof.
  intros Hf items r'. rewrite (ReadRecord_struct _ _ _ _ _ Hf). split.
  - intros [r2 [Hw Hend]].
    destruct (readStructItems_wire_pairs _ _ _ Hw rsize0 []) as [rsize' ->].
    cbn [app]. rewrite (readStructItems_eq r2). unfold readStructItems_step.
    rewrite Hend. eauto.
  - intros [rsize Hr].
    destruct (readStructItems body rsize0 []) as [[[[rsize' items']|e] r2]|] eqn:El;
      try discriminate.
    injection Hr as <- <- <-.
    apply readStructItems_fuel_wire_items in El.
    destruct El as [new [-> Hw]]. exact Hw.
Qed.

(** A struct with the key "a" twice: 03, "a" => 1, "a" => 2, 83. *)
Lemma C5_witness :
  exists rsize,
    ReadRecord (hex "032561001001256100100283")
    = Some (Ok (mkRecord rsize TypeStruct
                  (Items [mkStructItem (str "a") (mkRecord 2 TypeInt (Int 1));
                          mkStructItem (str "a") (mkRecord 2 TypeInt (Int 2))])), []).
Proof.
  apply (C5_struct_items_in_wire_order
           (hex "032561001001256100100283") (hex "2561001001256100100283") 1 0 []).
  - vm_compute. reflexivity.
  - exists (hex "83"). split.
    + apply (wire_pairs_cons _ (hex "1001256100100283") (hex "256100100283")
                             _ (mkRecord 3 TypeAVP (String (str "a")))
                             (mkRecord 2 TypeInt (Int 1)));
        [vm_compute; reflexivity|reflexivity|vm_compute; reflexivity|].
      apply (wire_pairs_cons _ (hex "100283") (hex "83")
                             _ (mkRecord 3 TypeAVP (String (str "a")))
                             (mkRecord 2 TypeInt (Int 2)));
        [vm_compute; reflexivity|reflexivity|vm_compute; reflexivity|].
      constructor.
    + vm_compute. reflexivity.
Defined.

(** C8: in a struct, after any number of pairs, a key record of another type
    than [TypeAVP] makes [ReadRecord] fail with "struct contains something
    else than avp" (also a key of type [TypeString]); a key of type [TypeAVP]
    followed by any record [ReadRecord] decodes is taken as a pair: it is
    appended to the items and the loop goes on behind it. *)
Theorem C8_struct_keys
    (s body r r1 : bytes_Reader) (rsize0 size1 : Z) (value0 : list byte)
    (items : list StructItem) (key : Record) :
  ReadRecord_front s = (Ok (rsize0, TypeStruct, size1, value0), body) ->
  wire_pairs body items r ->
  ReadRecord r = Some (Ok key, r1) ->
  (Type_ key <> TypeAVP ->
   ReadRecord s = Some (Error (ErrStructKey (Type_ key)), r1)) /\
  (Type_ key = TypeAVP ->
   forall (value : Record) (r2 : bytes_Reader),
     ReadRecord r1 = Some (Ok value, r2) ->
     wire_pairs body (items ++ [mkStructItem (string_of_any (Value key)) value]) r2 /\
     forall rsize acc,
       readStructItems r rsize acc =
       readStructItems r2 (int_add (int_add rsize (size key)) (size value))
                       (acc ++ [mkStructItem (string_of_any (Value key)) value])).
Proof.
  intros Hf Hw Hk. split.
  - intros Ht. rewrite (ReadRecord_struct _ _ _ _ _ Hf).
    destruct (readStructItems_wire_pairs _ _ _ Hw rsize0 []) as [rsize' ->].
    rewrite (readStructItems_bad_key _ _ _ _ _ Hk Ht). reflexivity.
  - intros Ht value r2 Hv. split.
    + apply (wire_pairs_app body r r2); [exact Hw|].
      apply (wire_pairs_cons r r1 r2 r2 key value); auto. constructor.
    + intros rsize acc. apply (readStructItems_pair r r1 r2); assumption.
Qed.

(** A struct whose key has the type of a string, 03 | 21 61 00 | 10 01 | 83,
    is refused. *)
Lemma C8_witness :
  ReadRecord (hex "03216100100183")
  = Some (Error (ErrStructKey TypeString), hex "100183").
Proof.
  refine (proj1 (C8_struct_keys
            (hex "03216100100183") (hex "216100100183") (hex "216100100183")
            (hex "100183") 1 0 [] [] (mkRecord 3 TypeString (String (str "a"))) _ _ _) _).
  - vm_compute. reflexivity.
  - constructor.
  - vm_compute. reflexivity.
  - cbn [Type_]. discriminate.
Defined.

(** ** [bufio.Reader] over a [bytes.Reader] *)

Lemma bytes_Read_spec (r : bytes_Reader) (n : Z) (data : list byte)
    (e : option io_error) (r' : bytes_Reader) :
  0 < n ->
  bytes_Read r n = ((data, e), r') ->
  (r = [] -> data = [] /\ e = Some EOF /\ r' = []) /\
  (r <> [] -> e = None /\ data <> [] /\ Z.of_nat (length data) <= n /\ r = data ++ r').
Proof.
  intros Hn. unfold bytes_Read. destruct r as [|b r].
  - intros E. injection E as <- <- <-. split; [auto|congruence].
  - set (l := b :: r). intros E. injection E as <- <- <-.
    split; [discriminate|]. intros _.
    assert (Hk : (1 <= Z.to_nat (Z.min n (Z.of_nat (length l))))%nat)
      by (subst l; simpl length; lia).
    split; [reflexivity|]. split.
    + subst l. destruct (Z.to_nat _); [lia|discriminate].
    + split; [rewrite length_firstn; lia|symmetry; apply firstn_skipn].
Qed.

Lemma bufio_copy_spec (b : bufio_Reader bytes_Reader) (n : Z) (data : list byte)
    (e : option io_error) (b' : bufio_Reader bytes_Reader) :
  0 < n -> buf b <> [] ->
  bufio_copy b n = ((data, e), b') ->
  e = None /\ data <> [] /\ Z.of_nat (length data) <= n /\
  unread b = data ++ unread b' /\ err b' = err b.
Proof.
  intros Hn Hne. unfold bufio_copy. intros E. injection E as <- <- <-.
  assert (Hk : (1 <= Z.to_nat (Z.min n (Z.of_nat (length (buf b)))))%nat).
  { destruct (buf b); [contradiction|simpl length; lia]. }
  split; [reflexivity|]. split.
  { destruct (buf b); [contradiction|]. destruct (Z.to_nat _); [lia|discriminate]. }
  split; [rewrite length_firstn; lia|].
  split; [|reflexivity].
  unfold unread. cbn [buf rd]. rewrite app_assoc, firstn_skipn. reflexivity.
Qed.

(** A read of [n > 0] bytes through the buffer delivers the next unread bytes,
    at least one and at most [n], or reports the end of the data. *)
Lemma bufio_Read_spec (b : bufio_Reader bytes_Reader) (n : Z) (data : list byte)
    (e : option io_error) (b' : bufio_Reader bytes_Reader) :
  0 < n -> err b = None ->
  bufio_Read b n = ((data, e), b') ->
  err b' = None /\
  (unread b = [] -> data = [] /\ e = Some EOF /\ unread b' = []) /\
  (unread b <> [] ->
   e = None /\ data <> [] /\ Z.of_nat (length data) <= n /\ unread b = data ++ unread b').
Proof.
  intros Hn Herr. unfold bufio_Read.
  destruct (Z.eqb_spec n 0) as [|_]; [lia|].
  destruct (buf b) as [|x bf] eqn:Eb.
  - rewrite Herr.
    assert (Hu : unread b = rd b) by (unfold unread; rewrite Eb; reflexivity).
    rewrite !Hu. clear Hu.
    destruct (defaultBufSize <=? n).
    + unfold Read, bytes_Reader_Reader.
      destruct (bytes_Read (rd b) n) as [[data0 e0] rd'] eqn:Er.
      intros E. injection E as <- <- <-.
      destruct (bytes_Read_spec _ _ _ _ _ Hn Er) as [Hnil Hcons].
      split; [reflexivity|]. unfold unread. cbn [buf rd app]. split.
      * intros H0. destruct (Hnil H0) as [-> [-> ->]]. auto.
      * intros H0. apply Hcons. exact H0.
    + unfold Read, bytes_Reader_Reader.
      destruct (bytes_Read (rd b) defaultBufSize) as [[data0 e0] rd'] eqn:Er.
      assert (Hpos : 0 < defaultBufSize) by (unfold defaultBufSize; lia).
      destruct (bytes_Read_spec _ _ _ _ _ Hpos Er) as [Hnil Hcons].
      destruct (rd b) as [|y rdb] eqn:Erd.
      * destruct (Hnil eq_refl) as [-> [-> ->]].
        intros E. injection E as <- <- <-.
        split; [reflexivity|]. split; [auto|]. intros H0. contradiction.
      * destruct (Hcons ltac:(discriminate)) as [-> [Hd [_ Happ]]].
        destruct data0 as [|d0 data0]; [contradiction|].
        intros E. apply bufio_copy_spec in E; [|lia|cbn [buf]; discriminate].
        destruct E as [-> [Hdata [Hlen [Hun Herr']]]].
        cbn [err] in Herr'. split; [exact Herr'|].
        split; [discriminate|]. intros _.
        repeat split; try assumption.
        rewrite Happ. unfold unread in Hun at 1. cbn [buf rd] in Hun. exact Hun.
  - intros E. apply bufio_copy_spec in E; [|lia|rewrite Eb; discriminate].
    destruct E as [-> [Hdata [Hlen [Hun Herr']]]].
    split; [congruence|]. split.
    + unfold unread. rewrite Eb. discriminate.
    + intros _. repeat split; assumption.
Qed.

(** A field read through the buffer, when it succeeds, took the next [n]
    unread bytes. *)
Lemma readField_bufio_Ok (what : field) (b b' : bufio_Reader bytes_Reader) (n : Z)
    (data : list byte) :
  0 < n -> err b = None ->
  readField what b n = (Ok data, b') ->
  err b' = None /\ unread b = data ++ unread b' /\ Z.of_nat (length data) = n.
Proof.
  intros Hn Herr. unfold readField, Read, bufio_Reader_Reader.
  destruct (bufio_Read b n) as [[data0 e] b0] eqn:Er.
  destruct (bufio_Read_spec _ _ _ _ _ Hn Herr Er) as [Herr' [Hnil Hcons]].
  destruct e as [e|]; [discriminate|].
  destruct (Z.eqb_spec (Z.of_nat (length data0)) n) as [Hl|]; [|discriminate].
  intros E. injection E as <- <-.
  split; [exact Herr'|]. split; [|exact Hl].
  destruct (unread b) as [|x u] eqn:Eu.
  - destruct (Hnil eq_refl) as [_ [Hcontra _]]. discriminate.
  - apply Hcons. discriminate.
Qed.

(** ** [io.ReadFull] through the buffer *)

Lemma ReadAtLeast_loop_unfold {R : Type} `{Reader R} (fuel : nat) (r : R) (len min : Z)
    (got : list byte) (e : option io_error) :
  ReadAtLeast_loop fuel r len min got e =
  if (Z.of_nat (length got) <? min) && (match e with None => true | Some _ => false end) then
    match fuel with
    | O => None
    | S fuel' =>
        match Read r (len - Z.of_nat (length got)) with
        | ((data, e'), r') => ReadAtLeast_loop fuel' r' len min (got ++ data) e'
        end
    end
  else Some ((got, e), r).
Proof. destruct fuel; reflexivity. Qed.

Lemma ReadAtLeast_loop_spec (len : Z) (fuel : nat) :
  forall (b b' : bufio_Reader bytes_Reader) (got res : list byte) (e e' : option io_error),
    err b = None -> Z.of_nat (length got) <= len ->
    ReadAtLeast_loop fuel b len len got e = Some ((res, e'), b') ->
    exists more,
      res = got ++ more /\ unread b = more ++ unread b' /\ err b' = None /\
      Z.of_nat (length res) <= len /\ (e' = None -> Z.of_nat (length res) = len).
Proof.
  induction fuel as [|fuel IH]; intros b b' got res e e' Herr Hgot;
    rewrite ReadAtLeast_loop_unfold;
    destruct ((Z.of_nat (length got) <? len) &&
              (match e with None => true | Some _ => false end)) eqn:Ec;
    try discriminate.
  1,3: intros E; injection E as <- <- <-; exists [];
    rewrite app_nil_r; repeat split; auto;
    intros ->; rewrite andb_true_r in Ec; apply Z.ltb_ge in Ec; lia.
  apply andb_prop in Ec. destruct Ec as [Hlt _]. apply Z.ltb_lt in Hlt.
  unfold Read, bufio_Reader_Reader.
  destruct (bufio_Read b (len - Z.of_nat (length got))) as [[data e1] b1] eqn:Er.
  assert (Hpos : 0 < len - Z.of_nat (length got)) by lia.
  destruct (bufio_Read_spec _ _ _ _ _ Hpos Herr Er) as [Herr1 [Hnil Hcons]].
  intros E. apply IH in E; [|exact Herr1|].
  - destruct E as [more [-> [Hun [Herr' [Hle Hfull]]]]].
    exists (data ++ more). rewrite app_assoc. repeat split; auto.
    destruct (unread b) as [|x u] eqn:Eu.
    + destruct (Hnil eq_refl) as [-> [_ Hb1]]. rewrite Hb1 in Hun. exact Hun.
    + destruct (Hcons ltac:(discriminate)) as [_ [_ [_ Happ]]].
      rewrite Happ, Hun, app_assoc. reflexivity.
  - rewrite length_app.
    destruct (unread b) as [|x u] eqn:Eu.
    + destruct (Hnil eq_refl) as [-> _]. simpl length. lia.
    + destruct (Hcons ltac:(discriminate)) as [_ [_ [Hl _]]]. lia.
Qed.

Lemma ReadAtLeast_loop_total (len : Z) (fuel : nat) :
  forall (b : bufio_Reader bytes_Reader) (got : list byte) (e : option io_error),
    err b = None -> Z.of_nat (length got) <= len ->
    (Z.to_nat (len - Z.of_nat (length got)) < fuel)%nat ->
    ReadAtLeast_loop fuel b len len got e <> None.
Proof.
  induction fuel as [|fuel IH]; intros b got e Herr Hgot Hfuel; [lia|].
  rewrite ReadAtLeast_loop_unfold.
  destruct ((Z.of_nat (length got) <? len) &&
            (match e with None => true | Some _ => false end)) eqn:Ec; [|discriminate].
  apply andb_prop in Ec. destruct Ec as [Hlt _]. apply Z.ltb_lt in Hlt.
  unfold Read, bufio_Reader_Reader.
  destruct (bufio_Read b (len - Z.of_nat (length got))) as [[data e1] b1] eqn:Er.
  assert (Hpos : 0 < len - Z.of_nat (length got)) by lia.
  destruct (bufio_Read_spec _ _ _ _ _ Hpos Herr Er) as [Herr1 [Hnil Hcons]].
  destruct (unread b) as [|x u] eqn:Eu.
  - destruct (Hnil eq_refl) as [-> [-> _]].
    rewrite ReadAtLeast_loop_unfold. rewrite andb_false_r. discriminate.
  - destruct (Hcons ltac:(discriminate)) as [-> [Hd [Hl _]]].
    apply IH; [exact Herr1| |]; rewrite length_app.
    + lia.
    + destruct data; [contradiction|]. simpl length in *. lia.
Qed.

Lemma ReadFull_spec (b b' : bufio_Reader bytes_Reader) (len : Z) (payload : list byte) :
  0 <= len -> err b = None ->
  ReadFull b len = Some ((payload, None), b') ->
  unread b = payload ++ unread b' /\ Z.of_nat (length payload) = len /\ err b' = None.
Proof.
  intros Hlen Herr. unfold ReadFull.
  destruct (ReadAtLeast_loop (S (Z.to_nat len)) b len len [] None)
    as [[[got e] b1]|] eqn:El; [|discriminate].
  apply ReadAtLeast_loop_spec in El; [|exact Herr|simpl length; lia].
  destruct El as [more [Hres [Hun [Herr1 [Hle Hfull]]]]]. cbn [app] in Hres. subst more.
  destruct (Z.leb_spec len (Z.of_nat (length got))).
  - intros E. injection E as <- <-. repeat split; auto. lia.
  - destruct got as [|g got]; destruct e as [[| |]|]; intros E; try discriminate;
      injection E as <- <-; specialize (Hfull eq_refl); lia.
Qed.

Lemma ReadFull_total (b : bufio_Reader bytes_Reader) (len : Z) :
  0 <= len -> err b = None -> ReadFull b len <> None.
Proof.
  intros Hlen Herr. unfold ReadFull.
  pose proof (ReadAtLeast_loop_total len (S (Z.to_nat len)) b [] None Herr
                ltac:(simpl length; lia) ltac:(simpl length; lia)) as Hne.
  destruct (ReadAtLeast_loop (S (Z.to_nat len)) b len len [] None) as [[[got e] b1]|];
    [|contradiction].
  destruct (len <=? Z.of_nat (length got)); [discriminate|].
  destruct got; destruct e as [[| |]|]; discriminate.
Qed.

(** ** Packets *)

(** The widths of the length and cookie fields are 1 to 4. *)
Lemma header_sizes (b : byte) :
  1 <= wrap_uint8 (Z.shiftr (Z.land (Z_of_byte b) 0x0C) 2 + 1) <= 4 /\
  1 <= wrap_uint8 (Z.land (Z_of_byte b) 0x3 + 1) <= 4.
Proof. destruct b; vm_compute; repeat split; discriminate. Qed.

(** A header decoded through the buffer of [ReadPacket] took the first bytes
    of the stream, 4 to 10 of them, and its length is below 2^32. *)
Lemma ReadHeader_bufio_Ok (r : bytes_Reader) (header : Header)
    (b : bufio_Reader bytes_Reader) :
  ReadHeader (bufio_NewReader r) = (Ok header, b) ->
  err b = None /\
  0 <= PayloadLength header < 2 ^ 32 /\
  exists hdr, r = hdr ++ unread b /\ 4 <= Z.of_nat (length hdr) <= 10.
Proof.
  unfold ReadHeader.
  destruct (readField FHeader (bufio_NewReader r) 2) as [[data|e] b1] eqn:E1;
    [|discriminate].
  apply readField_bufio_Ok in E1; [|lia|reflexivity].
  destruct E1 as [Herr1 [Hun1 Hl1]]. change (unread (bufio_NewReader r)) with r in Hun1.
  destruct (negb (Z.shiftr (Z_of_byte (nth 0 data Byte.x00)) 4 =? BinRPCMagic));
    [discriminate|].
  destruct (negb (Z.land (Z_of_byte (nth 0 data Byte.x00)) 15 =? BinRPCVersion));
    [discriminate|].
  destruct (header_sizes (nth 1 data Byte.x00)) as [Hsl Hsc].
  set (sl := wrap_uint8 (Z.shiftr (Z.land (Z_of_byte (nth 1 data Byte.x00)) 12) 2 + 1)) in *.
  set (sc := wrap_uint8 (Z.land (Z_of_byte (nth 1 data Byte.x00)) 3 + 1)) in *.
  clearbody sl sc.
  destruct (readField FTotalLength b1 sl) as [[data2|e] b2] eqn:E2; [|discriminate].
  apply readField_bufio_Ok in E2; [|lia|exact Herr1].
  destruct E2 as [Herr2 [Hun2 Hl2]].
  destruct (readField FCookie b2 sc) as [[data3|e] b3] eqn:E3; [|discriminate].
  apply readField_bufio_Ok in E3; [|lia|exact Herr2].
  destruct E3 as [Herr3 [Hun3 Hl3]].
  intros E. injection E as <- <-. cbn [PayloadLength].
  split; [exact Herr3|]. split.
  - rewrite accumulate_small by lia.
    pose proof (be_value_bounds data2) as Hb.
    assert (256 ^ Z.of_nat (length data2) <= 256 ^ 4) by (apply Z.pow_le_mono_r; lia).
    change (256 ^ 4) with (2 ^ 32) in *. lia.
  - exists (data ++ data2 ++ data3).
    rewrite Hun1, Hun2, Hun3, <- !app_assoc. split; [reflexivity|].
    rewrite !length_app. lia.
Qed.

(** What the buffer takes from the stream does not depend on the packet: the
    first read fills it with the first 4096 bytes of the stream (all of them
    if there are fewer), and the header is read from these. *)
Lemma firstn_min_length (a : nat) (l : list byte) :
  firstn (Nat.min a (length l)) l = firstn a l /\
  skipn (Nat.min a (length l)) l = skipn a l.
Proof.
  destruct (Nat.le_ge_cases a (length l)) as [Hle|Hge].
  - rewrite Nat.min_l by exact Hle. auto.
  - rewrite Nat.min_r by exact Hge.
    rewrite firstn_all, skipn_all, firstn_all2, skipn_all2 by exact Hge. auto.
Qed.

Lemma bytes_Read_defaultBufSize (r : bytes_Reader) :
  r <> [] ->
  bytes_Read r defaultBufSize =
  ((firstn (Z.to_nat defaultBufSize) r, None), skipn (Z.to_nat defaultBufSize) r).
Proof.
  intros Hne. unfold bytes_Read. destruct r as [|x r]; [contradiction|].
  set (l := x :: r).
  replace (Z.to_nat (Z.min defaultBufSize (Z.of_nat (length l))))
    with (Nat.min (Z.to_nat defaultBufSize) (length l))
    by (unfold defaultBufSize; lia).
  destruct (firstn_min_length (Z.to_nat defaultBufSize) l) as [-> ->]. reflexivity.
Qed.

Lemma readField_bufio_first (what : field) (r : bytes_Reader)
    (b' : bufio_Reader bytes_Reader) (n : Z) (data : list byte) :
  0 < n < defaultBufSize ->
  readField what (bufio_NewReader r) n = (Ok data, b') ->
  err b' = None /\
  buf b' = skipn (Z.to_nat n) (firstn (Z.to_nat defaultBufSize) r) /\
  rd b' = skipn (Z.to_nat defaultBufSize) r.
Proof.
  intros Hn. unfold readField, Read, bufio_Reader_Reader, bufio_Read, bufio_NewReader.
  cbv beta iota delta [buf rd err].
  destruct (Z.eqb_spec n 0); [lia|].
  destruct (Z.leb_spec defaultBufSize n); [lia|].
  unfold Read, bytes_Reader_Reader.
  destruct r as [|x r]; [discriminate|].
  rewrite bytes_Read_defaultBufSize by discriminate.
  assert (HF : firstn (Z.to_nat defaultBufSize) (x :: r) <> [])
    by (unfold defaultBufSize; discriminate).
  remember (Z.to_nat defaultBufSize) as N eqn:HN.
  remember (firstn N (x :: r)) as F eqn:EF.
  destruct F as [|f F']; [contradiction|].
  unfold bufio_copy. cbv beta iota delta [buf rd err].
  remember (f :: F') as G eqn:EG.
  destruct (Z.eqb_spec (Z.of_nat (length (firstn
              (Z.to_nat (Z.min n (Z.of_nat (length G)))) G))) n)
    as [Hl|]; [|discriminate].
  intros E. injection E as <- <-. cbv beta iota delta [buf rd err].
  rewrite length_firstn in Hl.
  replace (Z.to_nat (Z.min n (Z.of_nat (length G)))) with (Z.to_nat n) by lia.
  auto.
Qed.

Lemma readField_bufio_next (what : field) (r : bytes_Reader)
    (b b' : bufio_Reader bytes_Reader) (k : nat) (n : Z) (data : list byte) :
  err b = None ->
  buf b = skipn k (firstn (Z.to_nat defaultBufSize) r) ->
  rd b = skipn (Z.to_nat defaultBufSize) r ->
  0 < n -> Z.of_nat k + n < defaultBufSize ->
  readField what b n = (Ok data, b') ->
  err b' = None /\
  buf b' = skipn (k + Z.to_nat n) (firstn (Z.to_nat defaultBufSize) r) /\
  rd b' = skipn (Z.to_nat defaultBufSize) r.
Proof.
  destruct b as [bbuf brd berr]. cbv beta iota delta [buf rd err].
  intros -> -> -> Hn Hk.
  unfold readField, Read, bufio_Reader_Reader, bufio_Read.
  cbv beta iota delta [buf rd err].
  destruct (Z.eqb_spec n 0); [lia|].
  assert (HN : Z.of_nat (Z.to_nat defaultBufSize) = 4096) by reflexivity.
  assert (HD : defaultBufSize = 4096) by reflexivity.
  remember (Z.to_nat defaultBufSize) as N eqn:EN. clear EN.
  remember (skipn k (firstn N r)) as G eqn:EG.
  destruct G as [|x bf].
  - (* an empty buffer here means a stream of fewer than 4096 bytes, at its end *)
    destruct (Z.leb_spec defaultBufSize n); [lia|].
    assert (Hshort : (length r <= k)%nat).
    { apply (f_equal (@length byte)) in EG.
      rewrite length_skipn, length_firstn in EG. simpl length in EG. lia. }
    rewrite skipn_all2 by lia.
    unfold Read, bytes_Reader_Reader, bytes_Read. discriminate.
  - unfold bufio_copy. cbv beta iota delta [buf rd err].
    remember (x :: bf) as G' eqn:EG'.
    destruct (Z.eqb_spec (Z.of_nat (length (firstn
                (Z.to_nat (Z.min n (Z.of_nat (length G')))) G'))) n)
      as [Hl|]; [|discriminate].
    intros E. injection E as <- <-. cbv beta iota delta [buf rd err].
    rewrite length_firstn in Hl.
    replace (Z.to_nat (Z.min n (Z.of_nat (length G')))) with (Z.to_nat n) by lia.
    rewrite EG, skipn_skipn, (Nat.add_comm (Z.to_nat n) k). auto.
Qed.

Lemma ReadHeader_bufio_prefetch (r : bytes_Reader) (header : Header)
    (b : bufio_Reader bytes_Reader) :
  ReadHeader (bufio_NewReader r) = (Ok header, b) ->
  rd b = skipn (Z.to_nat defaultBufSize) r.
Proof.
  unfold ReadHeader.
  destruct (readField FHeader (bufio_NewReader r) 2) as [[data|e] b1] eqn:E1;
    [|discriminate].
  apply readField_bufio_first in E1; [|unfold defaultBufSize; lia].
  destruct E1 as [Herr1 [Hbuf1 Hrd1]].
  destruct (negb (Z.shiftr (Z_of_byte (nth 0 data Byte.x00)) 4 =? BinRPCMagic));
    [discriminate|].
  destruct (negb (Z.land (Z_of_byte (nth 0 data Byte.x00)) 15 =? BinRPCVersion));
    [discriminate|].
  destruct (header_sizes (nth 1 data Byte.x00)) as [Hsl Hsc].
  set (sl := wrap_uint8 (Z.shiftr (Z.land (Z_of_byte (nth 1 data Byte.x00)) 12) 2 + 1)) in *.
  set (sc := wrap_uint8 (Z.land (Z_of_byte (nth 1 data Byte.x00)) 3 + 1)) in *.
  clearbody sl sc.
  destruct (readField FTotalLength b1 sl) as [[data2|e] b2] eqn:E2; [|discriminate].
  apply (readField_bufio_next _ r _ _ (Z.to_nat 2)) in E2;
    [|assumption|assumption|assumption|lia|unfold defaultBufSize; lia].
  destruct E2 as [Herr2 [Hbuf2 Hrd2]].
  destruct (readField FCookie b2 sc) as [[data3|e] b3] eqn:E3; [|discriminate].
  apply (readField_bufio_next _ r _ _ (Z.to_nat 2 + Z.to_nat sl)) in E3;
    [|assumption|assumption|assumption|lia|unfold defaultBufSize; lia].
  destruct E3 as [Herr3 [Hbuf3 Hrd3]].
  intros E. injection E as <- <-. exact Hrd3.
Qed.

Lemma ReadPacket_loop_unfold (fuel : nat) (payload : bytes_Reader) (payloadLength read : Z)
    (records : list Record) :
  ReadPacket_loop fuel payload payloadLength read records =
  if read <? payloadLength then
    match fuel with
    | O => None
    | S fuel' =>
        match ReadRecord payload with
        | None => None
        | Some (Error e, _) => Some (Error e)
        | Some (Ok record, payload') =>
            ReadPacket_loop fuel' payload' payloadLength
                            (int_add read (size record)) (records ++ [record])
        end
    end
  else Some (Ok records).
Proof. destruct fuel; reflexivity. Qed.

(** The loop of [ReadPacket], entered with [read] bytes accounted for and at
    most [payloadLength - read] bytes left: if it succeeds, the records it
    adds are those of the bytes left, all of them used, and their sizes sum
    to [payloadLength - read]. *)
Lemma ReadPacket_loop_spec (payloadLength : Z) (fuel : nat) :
  forall (payload : bytes_Reader) (read : Z) (records res : list Record),
    0 <= read ->
    read + Z.of_nat (length payload) <= payloadLength ->
    payloadLength < 2 ^ 63 ->
    ReadPacket_loop fuel payload payloadLength read records = Some (Ok res) ->
    exists new,
      res = records ++ new /\ wire_records payload new [] /\
      read + sum_sizes new = payloadLength.
Proof.
  induction fuel as [|fuel IH]; intros payload read records res Hread Hleft Hbig;
    rewrite ReadPacket_loop_unfold;
    destruct (Z.ltb_spec read payloadLength) as [Hlt|Hge]; try discriminate.
  1,3: intros E; injection E as <-; exists []; rewrite app_nil_r;
    assert (payload = []) as -> by (destruct payload; [reflexivity|simpl length in *; lia]);
    simpl length in *; repeat split; [constructor|unfold sum_sizes; simpl; lia].
  destruct (ReadRecord payload) as [[[record|e] payload1]|] eqn:Er; try discriminate.
  apply ReadRecord_consumes in Er as Hc. destruct Hc as [_ [Hshort Hsize]].
  specialize (Hsize ltac:(lia)).
  rewrite int_add_small by lia.
  intros E. apply IH in E; [|lia|lia|lia].
  destruct E as [new [-> [Hw Hsum]]].
  exists (record :: new). rewrite <- app_assoc. split; [reflexivity|].
  split; [apply (wire_records_cons payload payload1); assumption|].
  unfold sum_sizes in *. cbn [map fold_right]. lia.
Qed.

Lemma ReadPacket_loop_total (payloadLength : Z) (fuel : nat) :
  forall (payload : bytes_Reader) (read : Z) (records : list Record),
    (length payload < fuel)%nat ->
    ReadPacket_loop fuel payload payloadLength read records <> None.
Proof.
  induction fuel as [|fuel IH]; intros payload read records Hfuel; [lia|].
  rewrite ReadPacket_loop_unfold.
  destruct (read <? payloadLength); [|discriminate].
  destruct (ReadRecord_total payload) as [[[record|e] payload1] Er]; rewrite Er;
    [|discriminate].
  apply ReadRecord_consumes in Er. destruct Er as [_ [Hshort _]].
  apply IH. lia.
Qed.

(** C4: [ReadPacket] always returns, and when it returns records, they are
    the records of exactly the [payloadLength] bytes that follow the header,
    all of them used and none beyond, and their sizes sum to [payloadLength];
    a record that would reach beyond these bytes is no success but an
    error. *)
Theorem C4_packet_length_invariant (r : bytes_Reader) (expectedCookie : Z) :
  exists res b,
    ReadPacket r expectedCookie = Some (res, b) /\
    forall records, res = Ok records ->
      exists header b0 payload,
        ReadHeader (bufio_NewReader r) = (Ok header, b0) /\
        unread b0 = payload ++ unread b /\
        Z.of_nat (length payload) = PayloadLength header /\
        wire_records payload records [] /\
        sum_sizes records = PayloadLength header.
Proof.
  unfold ReadPacket.
  destruct (ReadHeader (bufio_NewReader r)) as [[header|e] b0] eqn:Eh.
  2:{ eexists; eexists. split; [reflexivity|]. discriminate. }
  destruct (ReadHeader_bufio_Ok _ _ _ Eh) as [Herr0 [Hpl _]].
  destruct (negb (expectedCookie =? 0) && negb (expectedCookie =? Cookie header)).
  { eexists; eexists. split; [reflexivity|]. discriminate. }
  pose proof (ReadFull_total b0 (PayloadLength header) ltac:(lia) Herr0) as Hfull.
  destruct (ReadFull b0 (PayloadLength header)) as [[[payload [e|]] b1]|] eqn:Ef;
    [|clear Hfull|contradiction].
  { eexists; eexists. split; [reflexivity|]. discriminate. }
  apply ReadFull_spec in Ef; [|lia|exact Herr0]. destruct Ef as [Hun [Hlen _]].
  pose proof (ReadPacket_loop_total (PayloadLength header) (S (length payload))
                payload 0 [] ltac:(lia)) as Hloop.
  destruct (ReadPacket_loop (S (length payload)) payload (PayloadLength header) 0 [])
    as [res|] eqn:El; [|contradiction].
  eexists; eexists. split; [reflexivity|].
  intros records ->.
  apply ReadPacket_loop_spec in El; [|lia|lia|lia].
  destruct El as [new [Hres [Hw Hsum]]]. cbn [app] in Hres. subst new.
  exists header, b0, payload. repeat split; auto.
Qed.

(** The packet of [TestReadPacket]: a payload of 0x2a = 42 bytes, two records
    of 3 and 39 bytes. *)
Lemma C4_witness :
  exists header b0 payload,
    ReadHeader (bufio_NewReader (hex "a1322a9883af2001f49125636f6d6d616e6420636f72652e6563686f20626f6e6a6f757273206e6f7420666f756e6400"))
    = (Ok header, b0) /\
    unread b0 = payload ++ unread (mkBufio [] ([] : bytes_Reader) None) /\
    Z.of_nat (length payload) = PayloadLength header /\
    wire_records payload
      [mkRecord 3 TypeInt (Int 500);
       mkRecord 39 TypeString (String (str "command core.echo bonjours not found"))] [] /\
    sum_sizes
      [mkRecord 3 TypeInt (Int 500);
       mkRecord 39 TypeString (String (str "command core.echo bonjours not found"))]
    = PayloadLength header.
Proof.
  destruct (C4_packet_length_invariant
              (hex "a1322a9883af2001f49125636f6d6d616e6420636f72652e6563686f20626f6e6a6f757273206e6f7420666f756e6400")
              0x9883af) as [res [b [E H]]].
  pose proof (eq_trans (eq_sym E) TestReadPacket) as E'. injection E' as -> ->.
  apply H. reflexivity.
Defined.

(** The packet of the tests that carries the double 1.588:
    a1 03 03 4d309725 | 22 06 34. *)
Example ReadPacket_double :
  ReadPacket (hex "a103034d309725220634") 0x4d309725
  = Some (Ok [mkRecord 3 TypeDouble (Float64 0x1.96872b020c49cp+0%float)],
          mkBufio [] [] None).
Proof. vm_compute. reflexivity. Qed.

(** A record that declares three value bytes in a payload of two bytes: the
    packet fails although the stream goes on behind the payload. *)
Example ReadPacket_overrun :
  ReadPacket (hex "a1000201" ++ hex "3001" ++ hex "0203") 0
  = Some (Error (ErrShortRead FRecordValue 1 3), mkBufio (hex "0203") [] None).
Proof. vm_compute. reflexivity. Qed.

(** C2, as stated, fails.  Two packets follow each other on the stream,
    a1 03 03 4d309725 | 22 06 34, twice; the first is read with another cookie.
    [ReadPacket] reports the mismatch, and its reader still holds the three
    payload bytes unread, before the second packet: the payload is not
    drained, and what is unread is not the second packet.  Nor is the
    caller's stream left at the second packet: it is at its end, the buffer
    took all 20 bytes from it, not the 10 of the first packet. *)
Lemma C2_counterexample :
  ReadPacket (hex "a103034d309725220634a103034d309725220634") 0x4d309726
  = Some (Error ErrCookieMismatch,
          mkBufio (hex "220634a103034d309725220634") [] None) /\
  hex "220634a103034d309725220634" <> hex "a103034d309725220634" /\
  ([] : list byte) <> hex "a103034d309725220634".
Proof. split; [vm_compute; reflexivity|split; vm_compute; discriminate]. Qed.

(** C2, amended: when the header decodes and a non-zero expected cookie
    differs from the header's, [ReadPacket] returns no records and the
    cookie error at once, with its reader as [ReadHeader] left it: all the
    bytes behind the 4 to 10 bytes of the header, the payload first, are still
    unread.  Of the caller's stream the buffer has taken the first 4096 bytes
    (all of them if there are fewer), whatever the declared length. *)
Theorem C2_cookie_mismatch_stops_after_header
    (r : bytes_Reader) (expectedCookie : Z) (header : Header)
    (b : bufio_Reader bytes_Reader) :
  ReadHeader (bufio_NewReader r) = (Ok header, b) ->
  expectedCookie <> 0 ->
  expectedCookie <> Cookie header ->
  ReadPacket r expectedCookie = Some (Error ErrCookieMismatch, b) /\
  (exists hdr, r = hdr ++ unread b /\ 4 <= Z.of_nat (length hdr) <= 10) /\
  rd b = skipn (Z.to_nat defaultBufSize) r.
Proof.
  intros Hh Hnz Hne. split; [|split].
  - unfold ReadPacket. rewrite Hh.
    destruct (Z.eqb_spec expectedCookie 0); [contradiction|].
    destruct (Z.eqb_spec expectedCookie (Cookie header)); [contradiction|].
    reflexivity.
  - apply (ReadHeader_bufio_Ok r header b Hh).
  - apply (ReadHeader_bufio_prefetch r header b Hh).
Qed.

Lemma C2_witness :
  ReadPacket (hex "a103034d309725220634") 1
  = Some (Error ErrCookieMismatch, mkBufio (hex "220634") [] None) /\
  (exists hdr,
     hex "a103034d309725220634" = hdr ++ unread (mkBufio (hex "220634") [] None) /\
     4 <= Z.of_nat (length hdr) <= 10) /\
  rd (mkBufio (hex "220634") ([] : bytes_Reader) None)
  = skipn (Z.to_nat defaultBufSize) (hex "a103034d309725220634").
Proof.
  apply (C2_cookie_mismatch_stops_after_header
           (hex "a103034d309725220634") 1
           (mkHeader 3 0x4d309725) (mkBufio (hex "220634") [] None)).
  - vm_compute. reflexivity.
  - discriminate.
  - cbn [Cookie]. discriminate.
Defined.

(** * Further properties of the code *)

(** ** More on the sizing function and on big-endian bytes *)

Lemma unsigned_size_lower (m : Z) (j : Z) :
  0 <= m < 2 ^ 32 -> 0 <= j < unsigned_size m -> 256 ^ j <= m.
Proof.
  unfold unsigned_size. intros Hm Hj.
  destruct (Z.eqb_spec m 0); [lia|].
  destruct (Z.ltb_spec m (2 ^ 8)).
  { assert (j = 0) as -> by lia. simpl. lia. }
  destruct (Z.ltb_spec m (2 ^ 16)).
  { assert (j = 0 \/ j = 1) as [-> | ->] by lia; simpl; lia. }
  destruct (Z.ltb_spec m (2 ^ 24)).
  { assert (j = 0 \/ j = 1 \/ j = 2) as [-> | [-> | ->]] by lia; simpl; lia. }
  assert (j = 0 \/ j = 1 \/ j = 2 \/ j = 3) as [-> | [-> | [-> | ->]]] by lia; simpl; lia.
Qed.

(** X24: [intToBytesBE] gives the low 32 bits of its argument as a big-endian
    number, in the shortest byte string with that value. *)
Theorem intToBytesBE_shortest (n : Z) :
  be_value (intToBytesBE n) = n mod 2 ^ 32 /\
  forall l : list byte,
    be_value l = n mod 2 ^ 32 -> (length (intToBytesBE n) <= length l)%nat.
Proof.
  split; [apply be_value_intToBytesBE|].
  intros l Hl.
  pose proof (intToBytesBE_length n) as Hlen.
  rewrite getMinBinarySizeOfInt_closed in Hlen.
  pose proof (Z.mod_pos_bound n (2 ^ 32) ltac:(lia)) as Hm.
  pose proof (be_value_bounds l) as Hb. rewrite Hl in Hb.
  destruct (Nat.le_gt_cases (length (intToBytesBE n)) (length l)) as [|Hlt]; [assumption|].
  exfalso.
  pose proof (unsigned_size_lower (n mod 2 ^ 32) (Z.of_nat (length l)) Hm ltac:(lia)).
  lia.
Qed.

Lemma wrap_int_mod (z : Z) : wrap_int z mod 2 ^ 64 = z mod 2 ^ 64.
Proof.
  unfold wrap_int.
  rewrite Zminus_mod, Zmod_mod, <- Zminus_mod.
  replace (z + 2 ^ 63 - 2 ^ 63) with z by lia. reflexivity.
Qed.

Lemma wrap_int_eq (a b : Z) : a mod 2 ^ 64 = b mod 2 ^ 64 -> wrap_int a = wrap_int b.
Proof.
  intros E. unfold wrap_int.
  rewrite (Zplus_mod a), (Zplus_mod b), E. reflexivity.
Qed.

Lemma wrap_int_step (x b : Z) :
  int_add (int_shl (wrap_int x) 8) b = wrap_int (x * 256 + b).
Proof.
  unfold int_add, int_shl.
  apply wrap_int_eq.
  rewrite Zplus_mod, wrap_int_mod, <- Zplus_mod.
  rewrite Z.shiftl_mul_pow2 by lia. change (2 ^ 8) with 256.
  rewrite (Zplus_mod (wrap_int x * 256)), (Zmult_mod (wrap_int x)), wrap_int_mod,
    <- Zmult_mod, <- Zplus_mod.
  reflexivity.
Qed.

Lemma fold_accumulate_wrap (buf : list byte) :
  forall acc : Z,
    fold_left (fun x b => int_add (int_shl x 8) (Z_of_byte b)) buf (wrap_int acc) =
    wrap_int (fold_left (fun a b => a * 256 + Z_of_byte b) buf acc).
Proof.
  induction buf as [|b buf IH]; intros acc; cbn [fold_left]; [reflexivity|].
  rewrite wrap_int_step. apply IH.
Qed.

(** The accumulation of [ReadRecord] and [ReadHeader] on Go's [int] is the
    big-endian value of the bytes, wrapped to 64 bits. *)
Lemma accumulate_wrap (buf : list byte) : accumulate buf = wrap_int (be_value buf).
Proof.
  unfold accumulate, be_value.
  rewrite <- fold_accumulate_wrap. reflexivity.
Qed.

Lemma lor_shift_byte (c : Z) (b : byte) :
  0 <= c -> Z.lor (Z.shiftl c 8) (Z_of_byte b) = c * 256 + Z_of_byte b.
Proof.
  intros Hc. pose proof (Z_of_byte_range b) as Hb.
  rewrite Z.shiftl_mul_pow2 by lia.
  assert (Hland : Z.land (c * 2 ^ 8) (Z_of_byte b) = 0).
  { apply Z.bits_inj'. intros i Hi. rewrite Z.land_spec, Z.bits_0.
    destruct (Z.ltb_spec i 8).
    - rewrite Z.mul_pow2_bits_low by lia. reflexivity.
    - replace (Z_of_byte b) with (Z_of_byte b mod 2 ^ 8) by (apply Z.mod_small; simpl; lia).
      rewrite Z.mod_pow2_bits_high by lia. apply andb_false_r. }
  rewrite <- Z.lxor_lor by exact Hland.
  rewrite <- Z.add_nocarry_lxor by exact Hland.
  reflexivity.
Qed.

Lemma fold_accumulate_uint32 (buf : list byte) :
  forall (acc k : Z),
    0 <= k -> 0 <= acc < 256 ^ k -> k + Z.of_nat (length buf) <= 4 ->
    fold_left (fun c b => Z.lor (wrap_uint32 (Z.shiftl c 8)) (Z_of_byte b)) buf acc =
    fold_left (fun a b => a * 256 + Z_of_byte b) buf acc.
Proof.
  induction buf as [|b buf IH]; intros acc k Hk Hacc Hlen; cbn [fold_left]; [reflexivity|].
  simpl length in Hlen.
  pose proof (Z_of_byte_range b) as Hb.
  assert (H4 : 256 ^ k * 256 <= 256 ^ 4).
  { replace (256 ^ k * 256) with (256 ^ (k + 1))
      by (rewrite Z.pow_add_r by lia; reflexivity).
    apply Z.pow_le_mono_r; lia. }
  change (256 ^ 4) with (2 ^ 32) in H4.
  assert (E : Z.lor (wrap_uint32 (Z.shiftl acc 8)) (Z_of_byte b) = acc * 256 + Z_of_byte b).
  { unfold wrap_uint32. rewrite (Z.shiftl_mul_pow2 acc 8) by lia. change (2 ^ 8) with 256.
    rewrite Z.mod_small by nia.
    rewrite <- lor_shift_byte by lia. rewrite Z.shiftl_mul_pow2 by lia. reflexivity. }
  rewrite E.
  apply (IH _ (k + 1)); [lia| |lia].
  rewrite Z.pow_add_r by lia. change (256 ^ 1) with 256. nia.
Qed.

(** On the 1 to 4 bytes of a cookie, the accumulation on [uint32] is the
    big-endian value. *)
Lemma accumulate_uint32_small (buf : list byte) :
  Z.of_nat (length buf) <= 4 -> accumulate_uint32 buf = be_value buf.
Proof.
  intros Hl. unfold accumulate_uint32, be_value.
  apply (fold_accumulate_uint32 buf 0 0); simpl; lia.
Qed.

(** ** [ReadHeader] on a [bytes.Reader] *)

(** [readField_bytes_app] for a reader given as a [bytes_Reader]. *)
Lemma readField_bytes_next (what : field) (data r' : bytes_Reader) :
  data ++ r' <> [] ->
  @readField bytes_Reader _ what (@app byte data r') (Z.of_nat (length data)) = (Ok data, r').
Proof. apply readField_bytes_app. Qed.

Lemma magic_version_byte (b : byte) :
  Z.shiftr (Z_of_byte b) 4 = BinRPCMagic -> Z.land (Z_of_byte b) 0x0F = BinRPCVersion ->
  b = Byte.xa1.
Proof. destruct b; vm_compute; intros H1 H2; try discriminate; reflexivity. Qed.

Lemma header_widths (b : byte) :
  wrap_uint8 (Z.shiftr (Z.land (Z_of_byte b) 0x0C) 2 + 1) = Z_of_byte b / 4 mod 4 + 1 /\
  wrap_uint8 (Z.land (Z_of_byte b) 0x3 + 1) = Z_of_byte b mod 4 + 1.
Proof. destruct b; vm_compute; split; reflexivity. Qed.

Lemma pair_of_length (data : list byte) :
  Z.of_nat (length data) = 2 -> exists b0 b1, data = [b0; b1].
Proof.
  destruct data as [|b0 [|b1 [|b2 data]]]; simpl length; intros Hl; try lia.
  eauto.
Qed.

Lemma ReadHeader_bytes_iff (r r' : bytes_Reader) (header : Header) :
  ReadHeader r = (Ok header, r') <->
  exists (b1 : byte) (lengthBytes cookieBytes : list byte),
    r = Byte.xa1 :: b1 :: lengthBytes ++ cookieBytes ++ r' /\
    Z.of_nat (length lengthBytes) = Z_of_byte b1 / 4 mod 4 + 1 /\
    Z.of_nat (length cookieBytes) = Z_of_byte b1 mod 4 + 1 /\
    PayloadLength header = be_value lengthBytes /\
    Cookie header = be_value cookieBytes.
Proof.
  split.
  - unfold ReadHeader.
    destruct (readField FHeader r 2) as [[data|e] r1] eqn:E1; [|discriminate].
    apply readField_bytes_Ok in E1; [|lia]. destruct E1 as [Hr [Hl1 _]].
    destruct (pair_of_length data Hl1) as [b0 [b1 ->]]. cbn [nth].
    destruct (Z.eqb_spec (Z.shiftr (Z_of_byte b0) 4) BinRPCMagic) as [Hm|];
      [|discriminate].
    destruct (Z.eqb_spec (Z.land (Z_of_byte b0) 15) BinRPCVersion) as [Hv|];
      [|discriminate].
    cbn [negb].
    pose proof (magic_version_byte b0 Hm Hv) as ->.
    destruct (header_widths b1) as [-> ->].
    pose proof (Z.mod_pos_bound (Z_of_byte b1 / 4) 4 ltac:(lia)) as Hsl.
    pose proof (Z.mod_pos_bound (Z_of_byte b1) 4 ltac:(lia)) as Hsc.
    destruct (readField FTotalLength r1 (Z_of_byte b1 / 4 mod 4 + 1))
      as [[data2|e] r2] eqn:E2; [|discriminate].
    apply readField_bytes_Ok in E2; [|lia]. destruct E2 as [Hr1 [Hl2 _]].
    destruct (readField FCookie r2 (Z_of_byte b1 mod 4 + 1))
      as [[data3|e] r3] eqn:E3; [|discriminate].
    apply readField_bytes_Ok in E3; [|lia]. destruct E3 as [Hr2 [Hl3 _]].
    intros E. injection E as <- <-.
    exists b1, data2, data3. cbn [PayloadLength Cookie].
    split; [subst r r1 r2; reflexivity|].
    split; [exact Hl2|]. split; [exact Hl3|].
    split; [apply accumulate_small; lia|apply accumulate_uint32_small; lia].
  - intros [b1 [lengthBytes [cookieBytes [-> [Hl2 [Hl3 [Hpl Hck]]]]]]].
    pose proof (Z.mod_pos_bound (Z_of_byte b1 / 4) 4 ltac:(lia)) as Hsl.
    pose proof (Z.mod_pos_bound (Z_of_byte b1) 4 ltac:(lia)) as Hsc.
    unfold ReadHeader.
    change (Byte.xa1 :: b1 :: lengthBytes ++ cookieBytes ++ r')
      with (@app byte [Byte.xa1; b1] (lengthBytes ++ cookieBytes ++ r')).
    pose proof (readField_bytes_next FHeader [Byte.xa1; b1]
                  (lengthBytes ++ cookieBytes ++ r') ltac:(discriminate)) as E1.
    change (Z.of_nat (length [Byte.xa1; b1])) with 2 in E1. rewrite E1.
    cbn [nth].
    change (negb (Z.shiftr (Z_of_byte Byte.xa1) 4 =? BinRPCMagic)) with false.
    change (negb (Z.land (Z_of_byte Byte.xa1) 15 =? BinRPCVersion)) with false.
    cbv iota.
    destruct (header_widths b1) as [-> ->].
    rewrite <- Hl2, <- Hl3.
    rewrite readField_bytes_next
      by (destruct lengthBytes; [simpl length in Hl2; lia|discriminate]).
    rewrite readField_bytes_next
      by (destruct cookieBytes; [simpl length in Hl3; lia|discriminate]).
    rewrite accumulate_small by lia.
    rewrite accumulate_uint32_small by lia.
    destruct header as [pl ck]. cbn [PayloadLength Cookie] in Hpl, Hck.
    subst pl ck. reflexivity.
Qed.

(** X7: [ReadHeader] accepts exactly the streams that open with a1, a byte [b1]
    whose bits 2-3 and 0-1 give the widths (less one) of the two fields that
    follow, the length and the cookie, both big-endian; the high four bits of
    [b1] are not looked at, and the stream is left behind the cookie. *)
Theorem ReadHeader_bytes_spec (r r' : bytes_Reader) (header : Header) :
  ReadHeader r = (Ok header, r') <->
  exists (b1 : byte) (lengthBytes cookieBytes : list byte),
    r = Byte.xa1 :: b1 :: lengthBytes ++ cookieBytes ++ r' /\
    Z.of_nat (length lengthBytes) = Z_of_byte b1 / 4 mod 4 + 1 /\
    Z.of_nat (length cookieBytes) = Z_of_byte b1 mod 4 + 1 /\
    PayloadLength header = be_value lengthBytes /\
    Cookie header = be_value cookieBytes.
Proof. apply ReadHeader_bytes_iff. Qed.

(** X8: What [ReadHeader] refuses, and what it has read by then: an empty or
    one-byte stream; a first byte whose high half is not the magic a, the
    version not being looked at; a first byte with the magic and another
    version than 1.  For the last two, the first two bytes are taken. *)
Theorem ReadHeader_rejects (b0 b1 : byte) (r : bytes_Reader) :
  ReadHeader ([] : bytes_Reader) = (Error (ErrCannotRead FHeader EOF), []) /\
  ReadHeader [b0] = (Error (ErrShortRead FHeader 1 2), ([] : bytes_Reader)) /\
  (Z.shiftr (Z_of_byte b0) 4 <> BinRPCMagic ->
   ReadHeader (b0 :: b1 :: r) = (Error (ErrMagic (Z.shiftr (Z_of_byte b0) 4)), r)) /\
  (Z.shiftr (Z_of_byte b0) 4 = BinRPCMagic ->
   Z.land (Z_of_byte b0) 0x0F <> BinRPCVersion ->
   ReadHeader (b0 :: b1 :: r) = (Error (ErrVersion (Z.land (Z_of_byte b0) 0x0F)), r)).
Proof.
  split; [reflexivity|]. split; [reflexivity|].
  assert (E1 : readField FHeader (b0 :: b1 :: r) 2 = (Ok [b0; b1], r)).
  { exact (readField_bytes_next FHeader [b0; b1] r ltac:(discriminate)). }
  split.
  - intros Hm. unfold ReadHeader. rewrite E1. cbn [nth].
    destruct (Z.eqb_spec (Z.shiftr (Z_of_byte b0) 4) BinRPCMagic); [contradiction|].
    reflexivity.
  - intros Hm Hv. unfold ReadHeader. rewrite E1. cbn [nth].
    destruct (Z.eqb_spec (Z.shiftr (Z_of_byte b0) 4) BinRPCMagic); [|contradiction].
    destruct (Z.eqb_spec (Z.land (Z_of_byte b0) 15) BinRPCVersion); [contradiction|].
    reflexivity.
Qed.

(** ** The bytes of a record *)

(** The first half of [ReadRecord] on a [bytes.Reader], when it succeeds, has
    taken a header [hd] of 1 to 8 bytes (the header byte and the bytes of an
    explicit size) and the value bytes behind it; [record.size] counts both;
    and it does the same whatever follows, provided something follows. *)
Lemma ReadRecord_front_bytes_shape (r r' : bytes_Reader) (rsize rtype size1 : Z)
    (value : list byte) :
  ReadRecord_front r = (Ok (rsize, rtype, size1, value), r') ->
  exists hd : list byte,
    r = hd ++ value ++ r' /\
    1 <= Z.of_nat (length hd) <= 8 /\
    rsize = Z.of_nat (length hd) + Z.of_nat (length value) /\
    Z.of_nat (length value) = size1 /\
    forall r2 : bytes_Reader,
      r2 <> [] ->
      @ReadRecord_front bytes_Reader _ (hd ++ value ++ r2)
      = (Ok (rsize, rtype, size1, value), r2).
Proof.
  unfold ReadRecord_front.
  destruct (readField FRecordHeader r 1) as [[hb|e] r1] eqn:E1; [|discriminate].
  apply readField_bytes_Ok in E1; [|lia]. destruct E1 as [-> [Hl _]].
  destruct (singleton_of_length hb Hl) as [b ->]. cbn [nth].
  destruct (header_byte_fields b) as [Hflag [Hsize Htype]].
  remember (Z.shiftr (Z_of_byte b) 7) as flag eqn:Eflag.
  remember (Z.land (Z.shiftr (Z_of_byte b) 4) 7) as size0 eqn:Esize0.
  remember (Z.land (Z_of_byte b) 15) as rtype0 eqn:Ertype0.
  destruct ((flag =? 1) && (size0 =? 0) && (rtype0 =? TypeStruct)) eqn:Eend; [discriminate|].
  assert (Hs0 : int_add 1 size0 = 1 + size0) by (apply int_add_small; lia).
  remember (int_add 1 size0) as rs0 eqn:Hrs0. rewrite Hs0 in Hrs0.
  (* the same computation on other bytes behind the same header byte *)
  assert (Hhead : forall rest : bytes_Reader,
            @readField bytes_Reader _ FRecordHeader (b :: rest) 1 = (Ok [b], rest))
    by (intros rest; apply readField_bytes_cons).
  destruct (flag =? 1) eqn:Ef.
  - destruct (readField FRecordSize r1 size0) as [[sb|e] r2] eqn:E2; [|discriminate].
    apply readField_bytes_Ok in E2; [|lia]. destruct E2 as [-> [Hsb _]].
    pose proof (be_value_bounds sb) as Hbv. rewrite Hsb in Hbv.
    assert (Hp : 256 ^ size0 <= 256 ^ 7) by (apply Z.pow_le_mono_r; lia).
    change (256 ^ 7) with 72057594037927936 in Hp.
    rewrite accumulate_small by lia.
    remember (int_add rs0 (be_value sb)) as rs1 eqn:Hrs1.
    assert (Hrs1' : rs1 = rs0 + be_value sb) by (rewrite Hrs1; apply int_add_small; lia).
    destruct (Z.eqb_spec (be_value sb) 0) as [E0|E0].
    + intros E. injection E as <- <- <- <- <-.
      exists (b :: sb). simpl app. simpl length.
      split; [reflexivity|].
      split; [lia|]. split; [lia|]. split; [lia|].
      intros r3 Hr3. rewrite (Hhead (sb ++ r3)). cbn [nth].
      rewrite <- Eflag, <- Esize0, <- Ertype0, Ef, Eend.
      rewrite <- Hsb.
      rewrite (readField_bytes_next FRecordSize sb r3
            ltac:(destruct sb; [assumption|discriminate])).
      rewrite accumulate_small by lia.
      destruct (Z.eqb_spec (be_value sb) 0) as [_|]; [|contradiction].
      rewrite Hsb, <- Hrs0, <- Hs0, <- Hrs1. reflexivity.
    + destruct (readField FRecordValue r2 (be_value sb)) as [[vb|e] r3] eqn:E3; [|discriminate].
      apply readField_bytes_Ok in E3; [|lia]. destruct E3 as [-> [Hvb _]].
      intros E. injection E as <- <- <- <- <-.
      exists (b :: sb). simpl app. simpl length. rewrite <- ?app_assoc.
      split; [reflexivity|].
      split; [lia|]. split; [lia|]. split; [lia|].
      intros r4 Hr4. rewrite (Hhead (sb ++ vb ++ r4)). cbn [nth].
      rewrite <- Eflag, <- Esize0, <- Ertype0, Ef, Eend.
      rewrite <- Hsb.
      rewrite (readField_bytes_next FRecordSize sb (vb ++ r4)
            ltac:(destruct sb; [destruct vb; [assumption|discriminate]|discriminate])).
      rewrite accumulate_small by lia.
      destruct (Z.eqb_spec (be_value sb) 0) as [|_]; [contradiction|].
      rewrite <- Hvb.
      rewrite (readField_bytes_next FRecordValue vb r4
            ltac:(destruct vb; [assumption|discriminate])).
      rewrite Hsb, <- Hrs0, <- Hs0, Hvb, <- Hrs1. reflexivity.
  - destruct (Z.eqb_spec size0 0) as [E0|E0].
    + intros E. injection E as <- <- <- <- <-.
      exists [b]. simpl app. simpl length.
      split; [reflexivity|].
      split; [lia|]. split; [lia|]. split; [lia|].
      intros r3 Hr3. rewrite (Hhead r3). cbn [nth].
      rewrite <- Eflag, <- Esize0, <- Ertype0, Ef. cbn [andb].
      rewrite E0. change (0 =? 0) with true. cbv iota.
      rewrite <- E0, <- Hrs0, <- Hs0. reflexivity.
    + destruct (readField FRecordValue r1 size0) as [[vb|e] r3] eqn:E3; [|discriminate].
      apply readField_bytes_Ok in E3; [|lia]. destruct E3 as [-> [Hvb _]].
      intros E. injection E as <- <- <- <- <-.
      exists [b]. simpl app. simpl length.
      split; [reflexivity|].
      split; [lia|]. split; [lia|]. split; [lia|].
      intros r4 Hr4. rewrite (Hhead (vb ++ r4)). cbn [nth].
      rewrite <- Eflag, <- Esize0, <- Ertype0, Ef. cbn [andb].
      destruct (Z.eqb_spec size0 0) as [|_]; [contradiction|].
      rewrite <- Hvb.
      rewrite (readField_bytes_next FRecordValue vb r4
            ltac:(destruct vb; [assumption|discriminate])).
      rewrite Hvb, <- Hrs0, <- Hs0. reflexivity.
Qed.

(** ** The value of a decoded scalar *)

(** X9: A decoded record that is no struct has taken a header of 1 to 8 bytes
    and its value bytes, [record.size] counts exactly these, and the value is
    read off the value bytes: for an integer their big-endian number wrapped
    to the 64 bits of [int], for a double that number over 1000, for a string
    (also of type [TypeAVP]) the bytes without the last one, whatever it is. *)
Theorem ReadRecord_scalar_value (r r' : bytes_Reader) (record : Record) :
  ReadRecord r = Some (Ok record, r') ->
  Type_ record <> TypeStruct ->
  exists hd value : list byte,
    r = hd ++ value ++ r' /\
    1 <= Z.of_nat (length hd) <= 8 /\
    size record = Z.of_nat (length hd) + Z.of_nat (length value) /\
    Value record =
      if Type_ record =? TypeInt then Int (wrap_int (be_value value))
      else if Type_ record =? TypeDouble then
        Float64 (PrimFloat.div (float64_of_int (wrap_int (be_value value))) 1000%float)
      else String (removelast value).
Proof.
  rewrite ReadRecord_eq. unfold ReadRecord_step.
  destruct (ReadRecord_front r) as [[[[[rsize rtype] size1] value]|e] r1] eqn:Ef;
    [|discriminate].
  apply ReadRecord_front_bytes_shape in Ef.
  destruct Ef as [hd [Hr [Hhd [Hrs [Hval _]]]]].
  assert (Hacc : (if size1 =? 0 then 0 else accumulate value) = wrap_int (be_value value)).
  { destruct (Z.eqb_spec size1 0) as [E0|_]; [|apply accumulate_wrap].
    destruct value; [reflexivity|simpl length in Hval; lia]. }
  assert (Hstr : (if size1 =? 0 then [] else removelast value) = removelast value).
  { destruct (Z.eqb_spec size1 0) as [E0|_]; [|reflexivity].
    destruct value; [reflexivity|simpl length in Hval; lia]. }
  destruct ((rtype =? TypeAVP) || (rtype =? TypeString)) eqn:Es.
  { intros E Hns. injection E as <- <-. exists hd, value. cbn [size Type_ Value].
    repeat split; try assumption; try lia.
    rewrite Hstr.
    apply orb_prop in Es. destruct Es as [Es|Es]; apply Z.eqb_eq in Es; subst rtype;
      reflexivity. }
  destruct (Z.eqb_spec rtype TypeInt) as [Ei|Ei].
  { intros E Hns. injection E as <- <-. exists hd, value. cbn [size Type_ Value].
    repeat split; try assumption; try lia.
    subst rtype. rewrite Hacc. reflexivity. }
  destruct (Z.eqb_spec rtype TypeDouble) as [Ed|Ed].
  { intros E Hns. injection E as <- <-. exists hd, value. cbn [size Type_ Value].
    repeat split; try assumption; try lia.
    subst rtype. rewrite accumulate_wrap. reflexivity. }
  destruct (Z.eqb_spec rtype TypeStruct) as [Et|Et]; [|discriminate].
  destruct (readStructItems r1 rsize []) as [[[[rsize' items]|e] r2]|]; try discriminate.
  intros E Hns. injection E as <- <-. cbn [Type_] in Hns. contradiction.
Qed.

Lemma ReadRecord_scalar_value_witness :
  exists hd value : list byte,
    hex "102a" = hd ++ value ++ [] /\
    1 <= Z.of_nat (length hd) <= 8 /\
    size (mkRecord 2 TypeInt (Int 42)) = Z.of_nat (length hd) + Z.of_nat (length value) /\
    Value (mkRecord 2 TypeInt (Int 42)) =
      if Type_ (mkRecord 2 TypeInt (Int 42)) =? TypeInt then Int (wrap_int (be_value value))
      else if Type_ (mkRecord 2 TypeInt (Int 42)) =? TypeDouble then
        Float64 (PrimFloat.div (float64_of_int (wrap_int (be_value value))) 1000%float)
      else String (removelast value).
Proof.
  apply (ReadRecord_scalar_value (hex "102a") [] (mkRecord 2 TypeInt (Int 42))).
  - vm_compute. reflexivity.
  - discriminate.
Defined.

(** X10: A record of a type the package does not implement ([TypeArray],
    [TypeBytes], and the unassigned 7 to 15) is refused, but only once its
    header and its value bytes have been taken from the stream. *)
Theorem ReadRecord_type_not_implemented (type : Z) (value r' : list byte) :
  type = TypeArray \/ TypeBytes <= type <= 15 ->
  Z.of_nat (length value) < 2 ^ 32 ->
  ReadRecord (Encode_frame type value ++ r')
  = Some (Error (ErrTypeNotImplemented type), r').
Proof.
  intros Ht Hl.
  assert (Hr : 0 <= type <= 15) by (unfold TypeArray, TypeBytes in Ht; lia).
  destruct (ReadRecord_frame type value r' Hr Hl) as [-> Hf].
  unfold ReadRecord_step. rewrite Hf.
  unfold TypeArray, TypeBytes in Ht.
  destruct (Z.eqb_spec type TypeAVP) as [E|_]; [unfold TypeAVP in E; lia|].
  destruct (Z.eqb_spec type TypeString) as [E|_]; [unfold TypeString in E; lia|].
  destruct (Z.eqb_spec type TypeInt) as [E|_]; [unfold TypeInt in E; lia|].
  destruct (Z.eqb_spec type TypeDouble) as [E|_]; [unfold TypeDouble in E; lia|].
  destruct (Z.eqb_spec type TypeStruct) as [E|_]; [unfold TypeStruct in E; lia|].
  reflexivity.
Qed.

Lemma ReadRecord_type_not_implemented_witness :
  ReadRecord (Encode_frame TypeBytes (hex "0102") ++ hex "ff")
  = Some (Error (ErrTypeNotImplemented TypeBytes), hex "ff").
Proof.
  apply (ReadRecord_type_not_implemented TypeBytes (hex "0102") (hex "ff")).
  - right. unfold TypeBytes. lia.
  - vm_compute. reflexivity.
Defined.

(** ** Decoded records are well typed *)

Lemma well_typed_Items (rsize rtype : Z) (items : list StructItem) :
  well_typed (mkRecord rsize rtype (Items items)) <->
  rtype = TypeStruct /\ items_well_typed items.
Proof.
  cbn [well_typed]. unfold items_well_typed.
  split; intros [Ht Hall]; (split; [exact Ht|]).
  - induction items as [|[key value] items IH]; constructor.
    + exact (proj1 Hall).
    + apply IH. exact (proj2 Hall).
  - induction Hall as [|[key value] items Hv Hall IH]; [exact I|].
    split; [exact Hv|exact IH].
Qed.

Section WellTyped.
Context {R : Type} `{Reader R}.

Lemma ReadRecord_step_well_typed
    (loop : R -> Z -> list StructItem -> option (result (Z * list StructItem) * R))
    (r r' : R) (record : Record) :
  (forall r1 rs it rs' items r2,
     loop r1 rs it = Some (Ok (rs', items), r2) ->
     items_well_typed it -> items_well_typed items) ->
  ReadRecord_step loop r = Some (Ok record, r') -> well_typed record.
Proof.
  intros Hloop. unfold ReadRecord_step.
  destruct (ReadRecord_front r) as [[[[[rsize rtype] size1] value]|e] r1]; [|discriminate].
  destruct ((rtype =? TypeAVP) || (rtype =? TypeString)) eqn:Es.
  { intros E. injection E as <- <-. cbn [well_typed].
    apply orb_prop in Es. destruct Es as [Es|Es]; apply Z.eqb_eq in Es; auto. }
  destruct (Z.eqb_spec rtype TypeInt) as [Ei|Ei].
  { intros E. injection E as <- <-. assumption. }
  destruct (Z.eqb_spec rtype TypeDouble) as [Ed|Ed].
  { intros E. injection E as <- <-. assumption. }
  destruct (Z.eqb_spec rtype TypeStruct) as [Et|Et]; [|discriminate].
  destruct (loop r1 rsize []) as [[[[rsize' items]|e] r2]|] eqn:El; try discriminate.
  intros E. injection E as <- <-.
  apply well_typed_Items. split; [assumption|].
  apply (Hloop _ _ _ _ _ _ El). constructor.
Qed.

Lemma readStructItems_step_well_typed
    (rr : R -> option (result Record * R))
    (next : R -> Z -> list StructItem -> option (result (Z * list StructItem) * R))
    (r r' : R) (rsize rsize' : Z) (acc items : list StructItem) :
  (forall r1 record r2, rr r1 = Some (Ok record, r2) -> well_typed record) ->
  (forall r1 rs it rs' items r2,
     next r1 rs it = Some (Ok (rs', items), r2) ->
     items_well_typed it -> items_well_typed items) ->
  readStructItems_step rr next r rsize acc = Some (Ok (rsize', items), r') ->
  items_well_typed acc -> items_well_typed items.
Proof.
  intros Hrr Hnext. unfold readStructItems_step.
  destruct (rr r) as [[[avpName|e] r1]|] eqn:E1; [| |discriminate].
  2:{ destruct e; try discriminate. intros E. injection E as _ <- _. auto. }
  destruct (negb (Type_ avpName =? TypeAVP)); [discriminate|].
  destruct (rr r1) as [[[avpValue|e] r2]|] eqn:E2; try discriminate.
  intros E Hacc. apply (Hnext _ _ _ _ _ _ E).
  apply Forall_app. split; [exact Hacc|].
  constructor; [|constructor]. cbn [ItemValue]. apply (Hrr _ _ _ E2).
Qed.

Lemma fuel_well_typed (fuel : nat) :
  (forall (r r' : R) record,
     ReadRecord_fuel fuel r = Some (Ok record, r') -> well_typed record) /\
  (forall (r r' : R) rs rs' acc items,
     readStructItems_fuel fuel r rs acc = Some (Ok (rs', items), r') ->
     items_well_typed acc -> items_well_typed items).
Proof.
  induction fuel as [|fuel [IHr IHs]]; split; try discriminate.
  - intros r r' record. cbn [ReadRecord_fuel]. apply ReadRecord_step_well_typed.
    intros r1 rs it rs' items r2. apply IHs.
  - intros r r' rs rs' acc items. cbn [readStructItems_fuel].
    apply readStructItems_step_well_typed.
    + intros r1 record r2. apply IHr.
    + intros r1 rs1 it rs1' items1 r2. apply IHs.
Qed.

End WellTyped.

(** X11: Whatever the reader, the value of a record [ReadRecord] returns has the
    Go type its [Type] announces, and so have the values of its items, at any
    depth; its [Type] is one of [TypeInt], [TypeString], [TypeDouble],
    [TypeStruct] and [TypeAVP]. *)
Theorem ReadRecord_well_typed {R : Type} `{Reader R} (fuel : nat) (r r' : R)
    (record : Record) :
  ReadRecord_fuel fuel r = Some (Ok record, r') ->
  well_typed record /\
  (Type_ record = TypeInt \/ Type_ record = TypeString \/ Type_ record = TypeDouble \/
   Type_ record = TypeStruct \/ Type_ record = TypeAVP).
Proof.
  intros E. apply (proj1 (fuel_well_typed fuel)) in E.
  split; [exact E|].
  destruct record as [rsize rtype [|v|s|f|items]]; cbn [well_typed Type_] in *;
    try contradiction; intuition.
Qed.

Lemma ReadRecord_well_typed_witness :
  well_typed (mkRecord 7 TypeStruct
                (Items [mkStructItem (str "a") (mkRecord 2 TypeInt (Int 1))])) /\
  (TypeStruct = TypeInt \/ TypeStruct = TypeString \/ TypeStruct = TypeDouble \/
   TypeStruct = TypeStruct \/ TypeStruct = TypeAVP).
Proof.
  apply (@ReadRecord_well_typed bytes_Reader _ 10 (hex "032561001001" ++ hex "83") []
           (mkRecord 7 TypeStruct
              (Items [mkStructItem (str "a") (mkRecord 2 TypeInt (Int 1))]))).
  vm_compute. reflexivity.
Defined.

(** ** The accessors and [Scan] on decoded records *)

Lemma inside_well_typed (sub record : Record) :
  inside sub record -> well_typed record -> well_typed sub.
Proof.
  induction 1 as [record|sub record key items rsize rtype Hin Hsub IH]; [auto|].
  intros Hwt. apply IH.
  apply well_typed_Items in Hwt. destruct Hwt as [_ Hall].
  unfold items_well_typed in Hall. rewrite Forall_forall in Hall.
  exact (Hall _ Hin).
Qed.

Lemma well_typed_accessors (record : Record) :
  well_typed record ->
  match Value record with
  | Nil => False
  | Int v =>
      Record_Int record = Returns v /\
      Record_String record = Fails (ErrWrongType TypeString (Type_ record)) /\
      Record_Double record = Fails (ErrWrongType TypeDouble (Type_ record)) /\
      Record_StructItems record = Fails (ErrWrongType TypeStruct (Type_ record))
  | String s =>
      (Type_ record = TypeString /\ Record_String record = Returns s \/
       Type_ record = TypeAVP /\
       Record_String record = Fails (ErrWrongType TypeString (Type_ record))) /\
      Record_Int record = Fails (ErrWrongType TypeInt (Type_ record)) /\
      Record_Double record = Fails (ErrWrongType TypeDouble (Type_ record)) /\
      Record_StructItems record = Fails (ErrWrongType TypeStruct (Type_ record))
  | Float64 f =>
      Record_Double record = Returns f /\
      Record_String record = Fails (ErrWrongType TypeString (Type_ record)) /\
      Record_Int record = Fails (ErrWrongType TypeInt (Type_ record)) /\
      Record_StructItems record = Fails (ErrWrongType TypeStruct (Type_ record))
  | Items items =>
      Record_StructItems record = Returns items /\
      Record_String record = Fails (ErrWrongType TypeString (Type_ record)) /\
      Record_Int record = Fails (ErrWrongType TypeInt (Type_ record)) /\
      Record_Double record = Fails (ErrWrongType TypeDouble (Type_ record))
  end.
Proof.
  destruct record as [rsize rtype [|v|s|f|items]]; cbn [well_typed Value Type_].
  - auto.
  - intros ->. repeat split.
  - intros [-> | ->]; repeat split; [left|right]; split; reflexivity.
  - intros ->. repeat split.
  - intros [-> _]. repeat split.
Qed.

(** X1: On a record [ReadRecord] returned, and on every record met in it, no
    accessor panics: the accessor of the record's type returns its value and
    the three others return their type error.  A record of type [TypeAVP]
    holds a string that all four refuse. *)
Theorem accessors_of_decoded {R : Type} `{Reader R} (fuel : nat) (r r' : R)
    (record sub : Record) :
  ReadRecord_fuel fuel r = Some (Ok record, r') ->
  inside sub record ->
  match Value sub with
  | Nil => False
  | Int v =>
      Record_Int sub = Returns v /\
      Record_String sub = Fails (ErrWrongType TypeString (Type_ sub)) /\
      Record_Double sub = Fails (ErrWrongType TypeDouble (Type_ sub)) /\
      Record_StructItems sub = Fails (ErrWrongType TypeStruct (Type_ sub))
  | String s =>
      (Type_ sub = TypeString /\ Record_String sub = Returns s \/
       Type_ sub = TypeAVP /\
       Record_String sub = Fails (ErrWrongType TypeString (Type_ sub))) /\
      Record_Int sub = Fails (ErrWrongType TypeInt (Type_ sub)) /\
      Record_Double sub = Fails (ErrWrongType TypeDouble (Type_ sub)) /\
      Record_StructItems sub = Fails (ErrWrongType TypeStruct (Type_ sub))
  | Float64 f =>
      Record_Double sub = Returns f /\
      Record_String sub = Fails (ErrWrongType TypeString (Type_ sub)) /\
      Record_Int sub = Fails (ErrWrongType TypeInt (Type_ sub)) /\
      Record_StructItems sub = Fails (ErrWrongType TypeStruct (Type_ sub))
  | Items items =>
      Record_StructItems sub = Returns items /\
      Record_String sub = Fails (ErrWrongType TypeString (Type_ sub)) /\
      Record_Int sub = Fails (ErrWrongType TypeInt (Type_ sub)) /\
      Record_Double sub = Fails (ErrWrongType TypeDouble (Type_ sub))
  end.
Proof.
  intros E Hin. apply well_typed_accessors.
  apply (inside_well_typed sub record Hin).
  apply (proj1 (fuel_well_typed fuel) _ _ _ E).
Qed.

Lemma accessors_of_decoded_witness :
  Record_Int (mkRecord 2 TypeInt (Int 1)) = Returns 1 /\
  Record_String (mkRecord 2 TypeInt (Int 1)) = Fails (ErrWrongType TypeString TypeInt) /\
  Record_Double (mkRecord 2 TypeInt (Int 1)) = Fails (ErrWrongType TypeDouble TypeInt) /\
  Record_StructItems (mkRecord 2 TypeInt (Int 1)) = Fails (ErrWrongType TypeStruct TypeInt).
Proof.
  apply (@accessors_of_decoded bytes_Reader _ 10 (hex "032561001001" ++ hex "83") []
           (mkRecord 7 TypeStruct
              (Items [mkStructItem (str "a") (mkRecord 2 TypeInt (Int 1))]))
           (mkRecord 2 TypeInt (Int 1))).
  - vm_compute. reflexivity.
  - apply (inside_item _ (mkRecord 2 TypeInt (Int 1)) (str "a")).
    + left. reflexivity.
    + apply inside_self.
Defined.

Section ScanFacts.
Context {E : Type}.
Variable strconv_Itoa : Z -> list byte.
Variable strconv_Atoi : list byte -> Z + E.
Variable strconv_ParseFloat : list byte -> float + E.
Variable fmt_Sprintf_3f : float -> list byte.

Lemma well_typed_Scan (record : Record) (dest : dest_value) :
  well_typed record -> ~ nil_pointer dest ->
  Scan strconv_Itoa strconv_Atoi strconv_ParseFloat fmt_Sprintf_3f record dest <> Panics.
Proof.
  destruct record as [rsize rtype [|v|s|f|items]]; cbn [well_typed]; try contradiction.
  - intros -> Hnil.
    destruct dest as [[t|]|[t|]|[t|]|[t|]|]; cbn in Hnil; try contradiction;
      cbn; discriminate.
  - intros [-> | ->] Hnil;
      destruct dest as [[t|]|[t|]|[t|]|[t|]|]; cbn in Hnil; try contradiction;
      unfold Scan; cbn [Type_ Value]; cbn;
      try discriminate.
    + destruct (strconv_Atoi s); discriminate.
    + destruct (strconv_ParseFloat s); discriminate.
  - intros -> Hnil.
    destruct dest as [[t|]|[t|]|[t|]|[t|]|]; cbn in Hnil; try contradiction;
      cbn; discriminate.
  - intros [-> _] Hnil.
    destruct dest as [[t|]|[t|]|[t|]|[t|]|]; cbn in Hnil; try contradiction;
      cbn; discriminate.
Qed.

End ScanFacts.

(** X2: [Scan] into a pointer of the record's own type stores what the accessor
    of that type returns: [String] and [*string], [Int] and [*int], [Double]
    and [*float64], [StructItems] and [*[]StructItem]. *)
Theorem Scan_agrees_with_accessors {E : Type}
    (strconv_Itoa : Z -> list byte) (strconv_Atoi : list byte -> Z + E)
    (strconv_ParseFloat : list byte -> float + E) (fmt_Sprintf_3f : float -> list byte)
    (record : Record) :
  (forall s old, Record_String record = Returns s ->
     Scan strconv_Itoa strconv_Atoi strconv_ParseFloat fmt_Sprintf_3f
          record (PString (Some old)) = Returns (PString (Some s))) /\
  (forall i old, Record_Int record = Returns i ->
     Scan strconv_Itoa strconv_Atoi strconv_ParseFloat fmt_Sprintf_3f
          record (PInt (Some old)) = Returns (PInt (Some i))) /\
  (forall f old, Record_Double record = Returns f ->
     Scan strconv_Itoa strconv_Atoi strconv_ParseFloat fmt_Sprintf_3f
          record (PFloat64 (Some old)) = Returns (PFloat64 (Some f))) /\
  (forall items old, Record_StructItems record = Returns items ->
     Scan strconv_Itoa strconv_Atoi strconv_ParseFloat fmt_Sprintf_3f
          record (PItems (Some old)) = Returns (PItems (Some items))).
Proof.
  destruct record as [rsize rtype v].
  unfold Record_String, Record_Int, Record_Double, Record_StructItems, Scan.
  cbn [Type_ Value].
  repeat split.
  - intros s old. destruct (Z.eqb_spec rtype TypeString); [|discriminate].
    cbn [negb]. destruct v; try discriminate. intros E0. injection E0 as ->. reflexivity.
  - intros i old. destruct (Z.eqb_spec rtype TypeInt) as [->|]; [|discriminate].
    cbn [negb]. destruct v; try discriminate. intros E0. injection E0 as ->. reflexivity.
  - intros f old. destruct (Z.eqb_spec rtype TypeDouble) as [->|]; [|discriminate].
    cbn [negb]. destruct v; try discriminate. intros E0. injection E0 as ->. reflexivity.
  - intros items old. destruct (Z.eqb_spec rtype TypeStruct) as [->|]; [|discriminate].
    cbn [negb]. destruct v; try discriminate. intros E0. injection E0 as ->. reflexivity.
Qed.

(** X3: On a record [ReadRecord] returned, and on every record met in it,
    [Scan] does not panic, whatever [dest] is, a nil pointer apart, and
    whatever [strconv] and [fmt] return. *)
Theorem Scan_of_decoded {R : Type} `{Reader R} {E : Type}
    (strconv_Itoa : Z -> list byte) (strconv_Atoi : list byte -> Z + E)
    (strconv_ParseFloat : list byte -> float + E) (fmt_Sprintf_3f : float -> list byte)
    (fuel : nat) (r r' : R) (record sub : Record) (dest : dest_value) :
  ReadRecord_fuel fuel r = Some (Ok record, r') ->
  inside sub record ->
  ~ nil_pointer dest ->
  Scan strconv_Itoa strconv_Atoi strconv_ParseFloat fmt_Sprintf_3f sub dest <> Panics.
Proof.
  intros E0 Hin Hnil. apply well_typed_Scan; [|exact Hnil].
  apply (inside_well_typed sub record Hin).
  apply (proj1 (fuel_well_typed fuel) _ _ _ E0).
Qed.

Lemma Scan_of_decoded_witness :
  Scan (fun _ => []) (fun _ => inr tt) (fun _ => inr tt) (fun _ => [])
       (mkRecord 2 TypeInt (Int 42)) (PString (Some [])) <> Panics.
Proof.
  apply (@Scan_of_decoded bytes_Reader _ unit _ _ _ _ 1 (hex "102a") []
           (mkRecord 2 TypeInt (Int 42)) (mkRecord 2 TypeInt (Int 42))
           (PString (Some []))).
  - vm_compute. reflexivity.
  - apply inside_self.
  - intros Hnil. exact Hnil.
Defined.

(** ** A struct that ends behind a key *)

(** X12: In a struct, after any number of pairs, a key of type [TypeAVP] followed
    by the end mark where its value should be makes [ReadRecord] fail with
    the error it uses inside to detect that mark, END_OF_STRUCT. *)
Theorem ReadRecord_struct_missing_value
    (s body r r2 : bytes_Reader) (rsize0 size1 : Z) (value0 : list byte)
    (items : list StructItem) (key : Record) :
  ReadRecord_front s = (Ok (rsize0, TypeStruct, size1, value0), body) ->
  wire_pairs body items r ->
  ReadRecord r = Some (Ok key, Byte.x83 :: r2) ->
  Type_ key = TypeAVP ->
  ReadRecord s = Some (Error errEndOfStruct, r2).
Proof.
  intros Hf Hw Hk Ht.
  rewrite (ReadRecord_struct _ _ _ _ _ Hf).
  destruct (readStructItems_wire_pairs _ _ _ Hw rsize0 []) as [rsize' ->].
  rewrite readStructItems_eq. unfold readStructItems_step.
  rewrite Hk, Ht. change (negb (TypeAVP =? TypeAVP)) with false. cbv iota.
  rewrite ReadRecord_end_mark. reflexivity.
Qed.

Lemma ReadRecord_struct_missing_value_witness :
  ReadRecord (hex "0325610083") = Some (Error errEndOfStruct, []).
Proof.
  apply (ReadRecord_struct_missing_value (hex "0325610083") (hex "25610083")
           (hex "25610083") [] 1 0 [] [] (mkRecord 3 TypeAVP (String (str "a")))).
  - vm_compute. reflexivity.
  - constructor.
  - vm_compute. reflexivity.
  - reflexivity.
Defined.

(** ** [ReadPacket]: the cookie, an empty payload, a short payload *)

(** X15: The expected cookie only gates the packet: [ReadPacket] either reports
    the mismatch, the expected cookie being non-zero and another than the
    header's, or returns what it returns when no cookie is expected. *)
Theorem ReadPacket_cookie_gate {R : Type} `{Reader R} (r : R) (expectedCookie : Z) :
  ReadPacket r expectedCookie = ReadPacket r 0 \/
  exists header b,
    ReadHeader (bufio_NewReader r) = (Ok header, b) /\
    expectedCookie <> 0 /\ expectedCookie <> Cookie header /\
    ReadPacket r expectedCookie = Some (Error ErrCookieMismatch, b).
Proof.
  unfold ReadPacket.
  destruct (ReadHeader (bufio_NewReader r)) as [[header|e] b] eqn:Eh; [|left; reflexivity].
  change (negb (0 =? 0)) with false. cbn [andb].
  destruct (Z.eqb_spec expectedCookie 0) as [E0|E0]; [left; reflexivity|].
  destruct (Z.eqb_spec expectedCookie (Cookie header)) as [Ec|Ec]; [left; reflexivity|].
  right. exists header, b. cbn [negb andb]. auto.
Qed.

(** X16: A packet whose header declares a payload of no byte is read as the empty
    list of records, with no error, and nothing is read behind the header. *)
Theorem ReadPacket_empty_payload {R : Type} `{Reader R} (r : R) (expectedCookie : Z)
    (header : Header) (b : bufio_Reader R) :
  ReadHeader (bufio_NewReader r) = (Ok header, b) ->
  PayloadLength header = 0 ->
  expectedCookie = 0 \/ expectedCookie = Cookie header ->
  ReadPacket r expectedCookie = Some (Ok [], b).
Proof.
  intros Hh Hl Hc. unfold ReadPacket. rewrite Hh, Hl.
  assert (Hgate : negb (expectedCookie =? 0) && negb (expectedCookie =? Cookie header) = false).
  { destruct Hc as [-> | ->]; [reflexivity|].
    rewrite Z.eqb_refl. apply andb_false_r. }
  rewrite Hgate. reflexivity.
Qed.

Lemma ReadPacket_empty_payload_witness :
  ReadPacket (hex "a1000007") 7 = Some (Ok [], mkBufio [] [] None).
Proof.
  apply (ReadPacket_empty_payload (hex "a1000007") 7 (mkHeader 0 7) (mkBufio [] [] None)).
  - vm_compute. reflexivity.
  - reflexivity.
  - right. reflexivity.
Defined.

(** [io.ReadAtLeast] through the buffer when the stream ends early: it
    delivers what is left and reports the end of the stream. *)
Lemma ReadAtLeast_loop_short (len : Z) (fuel : nat) :
  forall (b : bufio_Reader bytes_Reader) (got : list byte),
    err b = None ->
    Z.of_nat (length got) + Z.of_nat (length (unread b)) < len ->
    (length (unread b) < fuel)%nat ->
    exists b',
      ReadAtLeast_loop fuel b len len got None
      = Some ((got ++ unread b, Some EOF), b').
Proof.
  induction fuel as [|fuel IH]; intros b got Herr Hshort Hfuel; [lia|].
  rewrite ReadAtLeast_loop_unfold.
  destruct (Z.ltb_spec (Z.of_nat (length got)) len) as [Hlt|]; [|lia].
  cbn [andb].
  unfold Read, bufio_Reader_Reader.
  destruct (bufio_Read b (len - Z.of_nat (length got))) as [[data e1] b1] eqn:Er.
  assert (Hpos : 0 < len - Z.of_nat (length got)) by lia.
  destruct (bufio_Read_spec _ _ _ _ _ Hpos Herr Er) as [Herr1 [Hnil Hcons]].
  destruct (unread b) as [|x u] eqn:Eu.
  - destruct (Hnil eq_refl) as [-> [-> _]].
    rewrite ReadAtLeast_loop_unfold. rewrite andb_false_r.
    exists b1. reflexivity.
  - destruct (Hcons ltac:(discriminate)) as [-> [Hd [Hl Happ]]].
    assert (Hlen : length (x :: u) = (length data + length (unread b1))%nat)
      by (rewrite Happ, length_app; reflexivity).
    destruct (IH b1 (got ++ data) Herr1) as [b' E'].
    + rewrite length_app. lia.
    + destruct data; [contradiction|]. simpl length in *. lia.
    + exists b'. rewrite Happ, app_assoc. exact E'.
Qed.

(** X17: When fewer bytes than the header declares follow it, [ReadPacket] fails
    with the error of [io.ReadFull]: [io.EOF] if no byte follows the header,
    [io.ErrUnexpectedEOF] if some do. *)
Theorem ReadPacket_short_payload (r : bytes_Reader) (expectedCookie : Z)
    (header : Header) (b0 : bufio_Reader bytes_Reader) :
  ReadHeader (bufio_NewReader r) = (Ok header, b0) ->
  expectedCookie = 0 \/ expectedCookie = Cookie header ->
  Z.of_nat (length (unread b0)) < PayloadLength header ->
  exists b,
    ReadPacket r expectedCookie
    = Some (Error (IOError (match unread b0 with
                            | [] => EOF
                            | _ :: _ => ErrUnexpectedEOF
                            end)), b).
Proof.
  intros Hh Hc Hshort. unfold ReadPacket. rewrite Hh.
  assert (Hgate : negb (expectedCookie =? 0) && negb (expectedCookie =? Cookie header) = false).
  { destruct Hc as [-> | ->]; [reflexivity|].
    rewrite Z.eqb_refl. apply andb_false_r. }
  rewrite Hgate.
  destruct (ReadHeader_bufio_Ok _ _ _ Hh) as [Herr0 _].
  unfold ReadFull.
  destruct (ReadAtLeast_loop_short (PayloadLength header) (S (Z.to_nat (PayloadLength header)))
              b0 [] Herr0 ltac:(simpl length; lia) ltac:(lia)) as [b' ->].
  cbn [app].
  destruct (Z.leb_spec (PayloadLength header) (Z.of_nat (length (unread b0)))); [lia|].
  exists b'. destruct (unread b0); reflexivity.
Qed.

Lemma ReadPacket_short_payload_witness :
  exists b,
    ReadPacket (hex "a100050722") 7
    = Some (Error (IOError (match unread (mkBufio (hex "22") ([] : bytes_Reader) None) with
                            | [] => EOF
                            | _ :: _ => ErrUnexpectedEOF
                            end)), b).
Proof.
  apply (ReadPacket_short_payload (hex "a100050722") 7 (mkHeader 5 7)
           (mkBufio (hex "22") [] None)).
  - vm_compute. reflexivity.
  - right. reflexivity.
  - vm_compute. reflexivity.
Defined.

(** ** The bytes of an encoded value *)

Lemma encoding_frame (v : ValidTypes) :
  encoding v =
  Encode_frame (type_of v)
    match v with
    | VInt i => intToBytesBE i
    | VString s => s ++ [Byte.x00]
    | VFloat64 f => intToBytesBE (int_of_float64 (PrimFloat.mul f 1000%float))
    end.
Proof.
  destruct v as [i|s|f]; unfold encoding, CreateRecord, Encode; cbn [Type_ Value type_of].
  - change (TypeInt =? TypeInt) with true. cbv iota.
    destruct (Z.eqb_spec i 0) as [->|_]; reflexivity.
  - reflexivity.
  - reflexivity.
Qed.

(** Whatever the sink, [Encode] of the record of a host value is one [Write]
    of its encoding. *)
Lemma Encode_encoding {W : Type} `{Writer W} (v : ValidTypes) (w : W) :
  exists record, CreateRecord v = Ok record /\ Encode record w = write_all w (encoding v).
Proof.
  destruct v as [i|s|f]; eexists; (split; [reflexivity|]);
    unfold encoding, CreateRecord, Encode; cbn [Type_ Value].
  - change (TypeInt =? TypeInt) with true. cbv iota.
    destruct (Z.eqb_spec i 0) as [->|_]; reflexivity.
  - reflexivity.
  - reflexivity.
Qed.

Lemma Encode_frame_length (type : Z) (value : list byte) :
  (length value < length (Encode_frame type value))%nat.
Proof.
  unfold Encode_frame. destruct (Z.of_nat (length value) <? 8); simpl length.
  - lia.
  - rewrite length_app. lia.
Qed.

Lemma encoding_nonempty (v : ValidTypes) : (1 <= length (encoding v))%nat.
Proof. rewrite encoding_frame. pose proof (Encode_frame_length (type_of v)). 
  match goal with |- (1 <= length (Encode_frame _ ?x))%nat => specialize (H x) end. lia.
Qed.

(** [ReadRecord] of the encoding of a representable value, whatever follows
    it on the stream. *)
Lemma ReadRecord_encoding (v : ValidTypes) (r' : list byte) :
  representable v ->
  exists record,
    ReadRecord (encoding v ++ r') = Some (Ok record, r') /\
    decodes_to v record /\
    size record = Z.of_nat (length (encoding v)).
Proof.
  intros Hv. rewrite encoding_frame. unfold decodes_to.
  destruct v as [i|s|f]; cbn [representable type_of] in *.
  - pose proof (intToBytesBE_length i) as Hl.
    pose proof (getMinBinarySizeOfInt_range i) as Hr.
    destruct (ReadRecord_frame TypeInt (intToBytesBE i) r') as [-> Hf];
      [unfold TypeInt; lia|lia|].
    unfold ReadRecord_step. rewrite Hf.
    change ((TypeInt =? TypeAVP) || (TypeInt =? TypeString)) with false.
    change (TypeInt =? TypeInt) with true. cbv iota.
    rewrite accumulate_intToBytesBE, Z.mod_small by lia.
    eexists. split; [reflexivity|]. cbn [Type_ Value size same_value].
    split; [|reflexivity]. split; [reflexivity|].
    destruct (Z.eqb_spec (Z.of_nat (length (intToBytesBE i))) 0) as [E0|_]; [|reflexivity].
    rewrite Hl, getMinBinarySizeOfInt_closed, Z.mod_small in E0 by lia.
    unfold unsigned_size in E0. revert E0. split_cases.
  - assert (Hl : Z.of_nat (length (s ++ [Byte.x00])) = Z.of_nat (length s) + 1)
      by (rewrite length_app; simpl length; lia).
    destruct (ReadRecord_frame TypeString (s ++ [Byte.x00]) r') as [-> Hf];
      [unfold TypeString; lia|lia|].
    unfold ReadRecord_step. rewrite Hf.
    change ((TypeString =? TypeAVP) || (TypeString =? TypeString)) with true. cbv iota.
    destruct (Z.eqb_spec (Z.of_nat (length (s ++ [Byte.x00]))) 0) as [E0|_]; [lia|].
    rewrite removelast_last.
    eexists. split; [reflexivity|]. cbn [Type_ Value size same_value]. auto.
  - destruct Hv as [Hk Heq].
    set (k := int_of_float64 (PrimFloat.mul f 1000%float)) in *.
    pose proof (intToBytesBE_length k) as Hl.
    pose proof (getMinBinarySizeOfInt_range k) as Hr.
    destruct (ReadRecord_frame TypeDouble (intToBytesBE k) r') as [-> Hf];
      [unfold TypeDouble; lia|lia|].
    unfold ReadRecord_step. rewrite Hf.
    change ((TypeDouble =? TypeAVP) || (TypeDouble =? TypeString)) with false.
    change (TypeDouble =? TypeInt) with false.
    change (TypeDouble =? TypeDouble) with true. cbv iota.
    rewrite accumulate_intToBytesBE, Z.mod_small by lia.
    eexists. split; [reflexivity|]. cbn [Type_ Value size same_value]. auto.
Qed.

(** X6: Encoding a representable value into a buffer and decoding from the bytes
    written, whatever follows them on the stream: [ReadRecord] returns a
    record of the value's type, with an equal value, whose [size] is the
    number of bytes [Encode] wrote, and leaves the stream right behind
    them. *)
Theorem Encode_ReadRecord_stream (v : ValidTypes) (payload : bytes_Buffer)
    (r' : list byte) :
  representable v ->
  exists (record decoded : Record) (bytes : list byte),
    CreateRecord v = Ok record /\
    Encode record payload = (None, payload ++ bytes) /\
    ReadRecord (bytes ++ r') = Some (Ok decoded, r') /\
    Type_ decoded = type_of v /\
    same_value v (Value decoded) /\
    size decoded = Z.of_nat (length bytes).
Proof.
  intros Hv.
  destruct (Encode_encoding v payload) as [record [Hc He]].
  destruct (ReadRecord_encoding v r' Hv) as [decoded [Hd [[Ht Hs] Hsz]]].
  exists record, decoded, (encoding v).
  repeat split; try assumption.
Qed.

Lemma Encode_ReadRecord_stream_witness :
  exists (record decoded : Record) (bytes : list byte),
    CreateRecord (VInt 142) = Ok record /\
    Encode record (hex "00" : bytes_Buffer) = (None, hex "00" ++ bytes) /\
    ReadRecord (bytes ++ hex "ffff") = Some (Ok decoded, hex "ffff") /\
    Type_ decoded = type_of (VInt 142) /\
    same_value (VInt 142) (Value decoded) /\
    size decoded = Z.of_nat (length bytes).
Proof.
  apply (Encode_ReadRecord_stream (VInt 142) (hex "00") (hex "ffff")).
  cbn [representable]. lia.
Defined.

(** ** The payload [WritePacket] builds *)

Lemma WritePacket_loop_encoding (values : list ValidTypes) :
  forall payload : bytes_Buffer,
    WritePacket_loop values payload = Ok (payload ++ concat (map encoding values)).
Proof.
  induction values as [|v values IH]; intros payload; cbn [WritePacket_loop map concat].
  - rewrite app_nil_r. reflexivity.
  - destruct (Encode_encoding v payload) as [record [-> ->]].
    unfold write_all, Write, bytes_Buffer_Writer.
    rewrite IH, <- app_assoc. reflexivity.
Qed.

Lemma concat_encoding_length (values : list ValidTypes) :
  (length values <= length (concat (map encoding values)))%nat.
Proof.
  induction values as [|v values IH]; cbn [map concat length]; [lia|].
  rewrite length_app. pose proof (encoding_nonempty v). lia.
Qed.

(** ** What [WritePacket] hands to its sink *)

Lemma WritePacket_header_length (lengthBE cookieBytes : list byte) :
  length (WritePacket_header lengthBE cookieBytes)
  = (2 + length lengthBE + length cookieBytes)%nat.
Proof. unfold WritePacket_header. cbn [app length]. rewrite length_app. lia. Qed.

Lemma intToBytesBE_length_le (n : Z) : (length (intToBytesBE n) <= 4)%nat.
Proof.
  pose proof (intToBytesBE_length n). pose proof (getMinBinarySizeOfInt_range n). lia.
Qed.

Lemma bufio_Write_first {W : Type} `{Writer W} (w : W) (p : list byte) :
  Z.of_nat (length p) <= defaultBufSize ->
  bufio_Write (bufio_NewWriter w) p = (None, mkBufioW p w None).
Proof.
  intros Hp. unfold bufio_Write, bufio_NewWriter. cbn [werr wbuf wr app].
  simpl length. rewrite Z.sub_0_r.
  destruct (Z.leb_spec (Z.of_nat (length p)) defaultBufSize); [reflexivity|lia].
Qed.

(** [WritePacket] in terms of the [Write] calls its sink receives: the whole
    packet in one call when it has at most 4096 bytes, otherwise its first
    4096 bytes, then the rest. *)
Lemma WritePacket_writes {W : Type} `{Writer W} (w : W) (values : list ValidTypes)
    (rand_Uint32 : Z) :
  values <> [] ->
  let payload := concat (map encoding values) in
  let cookie := wrap_uint32 rand_Uint32 in
  let packet :=
    WritePacket_header (intToBytesBE (Z.of_nat (length payload))) (intToBytesBE cookie)
    ++ payload in
  WritePacket w values rand_Uint32 =
  if Z.of_nat (length packet) <=? defaultBufSize then
    match Write w packet with
    | (Some e, w') => (Error (IOError e), w')
    | (None, w') => (Ok cookie, w')
    end
  else
    match Write w (firstn (Z.to_nat defaultBufSize) packet) with
    | (Some e, w') => (Error (ErrCannotWrite FPayload e), w')
    | (None, w') =>
        let rest := skipn (Z.to_nat defaultBufSize) packet in
        match Write w' rest with
        | (Some e, w'') =>
            (Error (if Z.of_nat (length rest) <=? defaultBufSize
                    then IOError e else ErrCannotWrite FPayload e), w'')
        | (None, w'') => (Ok cookie, w'')
        end
    end.
Proof.
  intros Hne payload cookie packet.
  unfold WritePacket. destruct values as [|v values]; [contradiction|].
  rewrite (WritePacket_loop_encoding (v :: values) []). cbn [app]. fold payload.
  fold cookie.
  pose proof (intToBytesBE_length_le (Z.of_nat (length payload))) as HL.
  pose proof (intToBytesBE_length_le cookie) as HC.
  unfold MaxSizeOfLength.
  destruct (Z.ltb_spec 4 (Z.of_nat (length (intToBytesBE (Z.of_nat (length payload))))));
    [lia|].
  set (header := WritePacket_header (intToBytesBE (Z.of_nat (length payload)))
                                    (intToBytesBE cookie)) in *.
  assert (Hh : (2 <= length header <= 10)%nat).
  { unfold header. rewrite WritePacket_header_length. lia. }
  assert (HD : defaultBufSize = 4096) by reflexivity.
  assert (Hpl : length packet = (length header + length payload)%nat)
    by (unfold packet; apply length_app).
  clearbody header. clearbody payload.
  rewrite bufio_Write_first by lia.
  unfold bufio_Write. cbn [werr wbuf wr].
  destruct (Z.leb_spec (Z.of_nat (length payload))
                       (defaultBufSize - Z.of_nat (length header))) as [Hfit|Hbig].
  - destruct (Z.leb_spec (Z.of_nat (length packet)) defaultBufSize); [|lia].
    unfold bufio_Flush. cbn [werr wbuf wr]. unfold packet.
    destruct header as [|h0 header']; [simpl length in Hh; lia|]. cbn [app].
    destruct (Write w (h0 :: header' ++ payload)) as [[e|] w']; reflexivity.
  - destruct (Z.leb_spec (Z.of_nat (length packet)) defaultBufSize); [lia|].
    destruct header as [|h0 header']; [simpl length in Hh; lia|].
    cbv iota. set (header := h0 :: header') in *.
    assert (Hk : Z.to_nat (defaultBufSize - Z.of_nat (length header))
                 = (Z.to_nat defaultBufSize - length header)%nat) by lia.
    rewrite Hk.
    assert (Hfirst : firstn (Z.to_nat defaultBufSize) packet
                     = header ++ firstn (Z.to_nat defaultBufSize - length header) payload).
    { unfold packet. rewrite firstn_app, firstn_all2 by lia. reflexivity. }
    assert (Hrest : skipn (Z.to_nat defaultBufSize) packet
                    = skipn (Z.to_nat defaultBufSize - length header) payload).
    { unfold packet. rewrite skipn_app, skipn_all2 by lia. reflexivity. }
    rewrite Hfirst, Hrest.
    remember (Z.to_nat defaultBufSize - length header)%nat as k eqn:Ek.
    assert (Hkl : (k < length payload)%nat) by lia.
    unfold bufio_Flush at 1. cbn [werr wbuf wr].
    destruct (header ++ firstn k payload) as [|f0 first'] eqn:Ef.
    { apply (f_equal (@length byte)) in Ef. rewrite length_app in Ef.
      simpl length in Ef. lia. }
    destruct (Write w (f0 :: first')) as [[e|] w'].
    + reflexivity.
    + cbn [wr]. cbv zeta.
      assert (Hsk : (0 < length (skipn k payload))%nat) by (rewrite length_skipn; lia).
      destruct (Z.leb_spec (Z.of_nat (length (skipn k payload))) defaultBufSize).
      * unfold bufio_Flush. cbn [werr wbuf wr].
        destruct (skipn k payload) as [|s0 rest'] eqn:Es; [simpl length in Hsk; lia|].
        destruct (Write w' (s0 :: rest')) as [[e|] w'']; reflexivity.
      * destruct (Write w' (skipn k payload)) as [[e|] w'']; reflexivity.
Qed.


(** X21: Into a sink that takes every [Write], [WritePacket] succeeds for any
    values, at least one, and hands over the packet in one [Write] when it has
    at most 4096 bytes, otherwise in two: its first 4096 bytes, then the
    rest. *)
Theorem WritePacket_write_calls (log : write_log) (values : list ValidTypes)
    (rand_Uint32 : Z) :
  values <> [] ->
  exists packet : list byte,
    WritePacket ([] : bytes_Buffer) values rand_Uint32
    = (Ok (wrap_uint32 rand_Uint32), packet) /\
    WritePacket log values rand_Uint32
    = (Ok (wrap_uint32 rand_Uint32),
       log ++ (if Z.of_nat (length packet) <=? defaultBufSize then [packet]
               else [firstn (Z.to_nat defaultBufSize) packet;
                     skipn (Z.to_nat defaultBufSize) packet])).
Proof.
  intros Hne.
  rewrite (WritePacket_writes ([] : bytes_Buffer) values rand_Uint32 Hne).
  rewrite (WritePacket_writes log values rand_Uint32 Hne). cbv zeta.
  set (packet := WritePacket_header _ _ ++ _).
  exists packet.
  unfold Write, bytes_Buffer_Writer, write_log_Writer. cbn [app].
  destruct (Z.of_nat (length packet) <=? defaultBufSize).
  - split; reflexivity.
  - rewrite firstn_skipn, <- app_assoc. split; reflexivity.
Qed.

Lemma WritePacket_write_calls_witness :
  exists packet : list byte,
    WritePacket ([] : bytes_Buffer) [VString (str "tm.stats")] 0x6f8da297
    = (Ok (wrap_uint32 0x6f8da297), packet) /\
    WritePacket ([] : write_log) [VString (str "tm.stats")] 0x6f8da297
    = (Ok (wrap_uint32 0x6f8da297),
       [] ++ (if Z.of_nat (length packet) <=? defaultBufSize then [packet]
              else [firstn (Z.to_nat defaultBufSize) packet;
                    skipn (Z.to_nat defaultBufSize) packet])).
Proof.
  apply (WritePacket_write_calls [] [VString (str "tm.stats")] 0x6f8da297).
  discriminate.
Defined.

(** ** The header [WritePacket] writes *)

(** The second header byte, [byte((l-1)<<2 | c - 1)] with [|] and [-] taken
    from the left, for the widths [l] and [c] of the length and the cookie:
    it gives back [l] and [c] unless the cookie has four bytes and the length
    two or four. *)
Lemma header_widths_written (l c : Z) :
  1 <= l <= 4 -> 1 <= c <= 4 -> ~ (c = 4 /\ (l = 2 \/ l = 4)) ->
  let b1 := byte_of_Z (int_add (Z.lor (int_shl (int_add l (-1)) 2) c) (-1)) in
  Z_of_byte b1 / 4 mod 4 + 1 = l /\ Z_of_byte b1 mod 4 + 1 = c.
Proof.
  intros Hl Hc Hbad.
  assert (El : l = 1 \/ l = 2 \/ l = 3 \/ l = 4) by lia.
  assert (Ec : c = 1 \/ c = 2 \/ c = 3 \/ c = 4) by lia.
  destruct El as [-> | [-> | [-> | ->]]]; destruct Ec as [-> | [-> | [-> | ->]]];
    try (exfalso; apply Hbad; lia); vm_compute; split; reflexivity.
Qed.

Lemma header_widths_collide (l : Z) :
  l = 2 \/ l = 4 ->
  let b1 := byte_of_Z (int_add (Z.lor (int_shl (int_add l (-1)) 2) 4) (-1)) in
  Z_of_byte b1 / 4 mod 4 + 1 = l - 1 /\ Z_of_byte b1 mod 4 + 1 = 4.
Proof. intros [-> | ->]; vm_compute; split; reflexivity. Qed.

Lemma WritePacket_header_bytes (lengthBE cookieBytes : list byte) :
  WritePacket_header lengthBE cookieBytes =
  Byte.xa1 ::
  byte_of_Z (int_add (Z.lor (int_shl (int_add (Z.of_nat (length lengthBE)) (-1)) 2)
                            (Z.of_nat (length cookieBytes))) (-1)) ::
  lengthBE ++ cookieBytes.
Proof. reflexivity. Qed.

(** ** Reading a header through the buffer *)

Lemma firstn_skipn_firstn (n k N : nat) (l : list byte) :
  (k + n <= N)%nat -> firstn n (skipn k (firstn N l)) = firstn n (skipn k l).
Proof.
  intros Hle. rewrite <- (firstn_skipn N l) at 2.
  rewrite skipn_app, firstn_app.
  destruct (Nat.le_gt_cases N (length l)) as [Hl|Hl].
  - rewrite length_skipn, length_firstn, Nat.min_l by lia.
    replace (n - (N - k))%nat with 0%nat by lia. rewrite firstn_O, app_nil_r. reflexivity.
  - rewrite (skipn_all2 l) by lia. rewrite skipn_nil, firstn_nil, app_nil_r. reflexivity.
Qed.

Lemma unread_prefetched (k N : nat) (l : list byte) :
  (k <= N)%nat -> skipn k (firstn N l) ++ skipn N l = skipn k l.
Proof.
  intros Hle. rewrite <- (firstn_skipn N l) at 3. rewrite skipn_app.
  destruct (Nat.le_gt_cases N (length l)) as [Hl|Hl].
  - rewrite length_firstn, Nat.min_l by lia.
    replace (k - N)%nat with 0%nat by lia. reflexivity.
  - rewrite (skipn_all2 l) by lia. rewrite skipn_nil. reflexivity.
Qed.

(** A field that a [bytes.Reader] delivers is delivered through a fresh
    buffer over it as well; the buffer has then taken the first 4096 bytes of
    the stream. *)
Lemma readField_bufio_first_fwd (what : field) (r r' : bytes_Reader) (n : Z)
    (data : list byte) :
  0 < n < defaultBufSize ->
  readField what r n = (Ok data, r') ->
  readField what (bufio_NewReader r) n
  = (Ok data,
     @mkBufio bytes_Reader (skipn (Z.to_nat n) (firstn (Z.to_nat defaultBufSize) r))
                           (skipn (Z.to_nat defaultBufSize) r) None).
Proof.
  intros Hn Hr. apply readField_bytes_Ok in Hr; [|lia]. destruct Hr as [Hr [Hl Hne]].
  unfold readField, Read, bufio_Reader_Reader, bufio_Read, bufio_NewReader.
  cbv beta iota delta [buf rd err].
  destruct (Z.eqb_spec n 0); [lia|].
  destruct (Z.leb_spec defaultBufSize n); [lia|].
  unfold Read, bytes_Reader_Reader.
  rewrite bytes_Read_defaultBufSize by exact Hne.
  assert (HN : Z.of_nat (Z.to_nat defaultBufSize) = 4096) by reflexivity.
  assert (HD : defaultBufSize = 4096) by reflexivity.
  remember (Z.to_nat defaultBufSize) as N eqn:EN. clear EN.
  assert (HF : firstn (Z.to_nat n) (firstn N r) = data).
  { rewrite firstn_firstn, Nat.min_l by lia.
    rewrite Hr, firstn_app, firstn_all2 by lia.
    replace (Z.to_nat n - length data)%nat with 0%nat by lia.
    rewrite firstn_O, app_nil_r. reflexivity. }
  assert (HFl : (Z.to_nat n <= length (firstn N r))%nat).
  { rewrite length_firstn. subst r. rewrite length_app. lia. }
  remember (firstn N r) as F eqn:EF.
  destruct F as [|f F']; [simpl length in HFl; lia|].
  unfold bufio_copy. cbv beta iota delta [buf rd err].
  remember (f :: F') as G eqn:EG.
  replace (Z.to_nat (Z.min n (Z.of_nat (length G)))) with (Z.to_nat n) by lia.
  rewrite HF.
  destruct (Z.eqb_spec (Z.of_nat (length data)) n); [reflexivity|lia].
Qed.

(** The same for the fields that follow, as long as they lie in the first
    4096 bytes. *)
Lemma readField_bufio_next_fwd (what : field) (r r' : bytes_Reader) (k : nat) (n : Z)
    (data : list byte) :
  0 < n -> Z.of_nat k + n < defaultBufSize ->
  readField what (skipn k r) n = (Ok data, r') ->
  @readField (bufio_Reader bytes_Reader) _ what
    (@mkBufio bytes_Reader (skipn k (firstn (Z.to_nat defaultBufSize) r))
                           (skipn (Z.to_nat defaultBufSize) r) None) n
  = (Ok data,
     @mkBufio bytes_Reader (skipn (k + Z.to_nat n) (firstn (Z.to_nat defaultBufSize) r))
                           (skipn (Z.to_nat defaultBufSize) r) None).
Proof.
  intros Hn Hk Hr. apply readField_bytes_Ok in Hr; [|lia]. destruct Hr as [Hr [Hl Hne]].
  unfold readField, Read, bufio_Reader_Reader, bufio_Read.
  cbv beta iota delta [buf rd err].
  destruct (Z.eqb_spec n 0); [lia|].
  assert (HN : Z.of_nat (Z.to_nat defaultBufSize) = 4096) by reflexivity.
  assert (HD : defaultBufSize = 4096) by reflexivity.
  remember (Z.to_nat defaultBufSize) as N eqn:EN. clear EN.
  assert (Hlen : (k + Z.to_nat n <= length r)%nat).
  { apply (f_equal (@length byte)) in Hr. rewrite length_skipn, length_app in Hr. lia. }
  assert (HF : firstn (Z.to_nat n) (skipn k (firstn N r)) = data).
  { rewrite firstn_skipn_firstn by lia.
    rewrite Hr, firstn_app, firstn_all2 by lia.
    replace (Z.to_nat n - length data)%nat with 0%nat by lia.
    rewrite firstn_O, app_nil_r. reflexivity. }
  assert (HGl : (Z.to_nat n <= length (skipn k (firstn N r)))%nat).
  { rewrite length_skipn, length_firstn. lia. }
  remember (skipn k (firstn N r)) as G eqn:EG.
  destruct G as [|x bf]; [simpl length in HGl; lia|].
  unfold bufio_copy. cbv beta iota delta [buf rd err].
  remember (x :: bf) as G' eqn:EG'.
  replace (Z.to_nat (Z.min n (Z.of_nat (length G')))) with (Z.to_nat n) by lia.
  rewrite HF.
  destruct (Z.eqb_spec (Z.of_nat (length data)) n); [|lia].
  rewrite EG, skipn_skipn, (Nat.add_comm (Z.to_nat n) k). reflexivity.
Qed.

(** A header that [ReadHeader] decodes from a [bytes.Reader] it decodes
    through the buffer of [ReadPacket] as well, and what is unread then is
    what the [bytes.Reader] had left. *)
Lemma ReadHeader_bufio_of_bytes (r r' : bytes_Reader) (header : Header) :
  ReadHeader r = (Ok header, r') ->
  exists b : bufio_Reader bytes_Reader,
    ReadHeader (bufio_NewReader r) = (Ok header, b) /\ err b = None /\ unread b = r'.
Proof.
  unfold ReadHeader.
  destruct (readField FHeader r 2) as [[data|e] r1] eqn:E1; [|discriminate].
  rewrite (readField_bufio_first_fwd FHeader r r1 2 data
             ltac:(unfold defaultBufSize; lia) E1).
  apply readField_bytes_Ok in E1 as E1'; [|lia]. destruct E1' as [Hr [Hl1 _]].
  destruct (negb (Z.shiftr (Z_of_byte (nth 0 data Byte.x00)) 4 =? BinRPCMagic));
    [discriminate|].
  destruct (negb (Z.land (Z_of_byte (nth 0 data Byte.x00)) 15 =? BinRPCVersion));
    [discriminate|].
  destruct (header_sizes (nth 1 data Byte.x00)) as [Hsl Hsc].
  set (sl := wrap_uint8 (Z.shiftr (Z.land (Z_of_byte (nth 1 data Byte.x00)) 12) 2 + 1)) in *.
  set (sc := wrap_uint8 (Z.land (Z_of_byte (nth 1 data Byte.x00)) 3 + 1)) in *.
  clearbody sl sc.
  assert (Hr1 : r1 = skipn (Z.to_nat 2) r).
  { rewrite Hr, skipn_app, skipn_all2 by lia.
    replace (Z.to_nat 2 - length data)%nat with 0%nat by lia. reflexivity. }
  destruct (readField FTotalLength r1 sl) as [[data2|e] r2] eqn:E2; [|discriminate].
  rewrite Hr1 in E2.
  assert (Hb2 : Z.of_nat (Z.to_nat 2) + sl < defaultBufSize)
    by (unfold defaultBufSize; lia).
  rewrite (readField_bufio_next_fwd FTotalLength r r2 (Z.to_nat 2) sl data2
             ltac:(lia) Hb2 E2).
  apply readField_bytes_Ok in E2 as E2'; [|lia]. destruct E2' as [Hr2 [Hl2 _]].
  assert (Hr2' : r2 = skipn (Z.to_nat 2 + Z.to_nat sl) r).
  { rewrite Nat.add_comm, <- skipn_skipn, Hr2, skipn_app, skipn_all2 by lia.
    replace (Z.to_nat sl - length data2)%nat with 0%nat by lia. reflexivity. }
  destruct (readField FCookie r2 sc) as [[data3|e] r3] eqn:E3; [|discriminate].
  rewrite Hr2' in E3.
  assert (Hb3 : Z.of_nat (Z.to_nat 2 + Z.to_nat sl) + sc < defaultBufSize)
    by (unfold defaultBufSize; lia).
  rewrite (readField_bufio_next_fwd FCookie r r3 (Z.to_nat 2 + Z.to_nat sl) sc data3
             ltac:(lia) Hb3 E3).
  apply readField_bytes_Ok in E3 as E3'; [|lia]. destruct E3' as [Hr3 [Hl3 _]].
  intros E. injection E as <- <-.
  eexists. split; [reflexivity|]. split; [reflexivity|].
  unfold unread. cbv beta iota delta [buf rd].
  rewrite unread_prefetched by (unfold defaultBufSize; lia).
  rewrite Nat.add_comm, <- skipn_skipn, Hr3, skipn_app, skipn_all2 by lia.
  replace (Z.to_nat sc - length data3)%nat with 0%nat by lia. reflexivity.
Qed.

(** ** [io.ReadFull] when the stream holds enough *)

Lemma ReadAtLeast_loop_err (len : Z) (fuel : nat) :
  forall (b b' : bufio_Reader bytes_Reader) (got res : list byte) (e' : io_error),
    err b = None -> Z.of_nat (length got) <= len ->
    ReadAtLeast_loop fuel b len len got None = Some ((res, Some e'), b') ->
    unread b' = [].
Proof.
  induction fuel as [|fuel IH]; intros b b' got res e' Herr Hgot;
    rewrite ReadAtLeast_loop_unfold;
    destruct (Z.ltb_spec (Z.of_nat (length got)) len) as [Hlt|Hge]; cbn [andb];
    try discriminate.
  unfold Read, bufio_Reader_Reader.
  destruct (bufio_Read b (len - Z.of_nat (length got))) as [[data e1] b1] eqn:Er.
  assert (Hpos : 0 < len - Z.of_nat (length got)) by lia.
  destruct (bufio_Read_spec _ _ _ _ _ Hpos Herr Er) as [Herr1 [Hnil Hcons]].
  destruct (unread b) as [|x u] eqn:Eu.
  - destruct (Hnil eq_refl) as [-> [-> Hb1]].
    rewrite ReadAtLeast_loop_unfold. rewrite andb_false_r.
    intros E. injection E as _ _ <-. exact Hb1.
  - destruct (Hcons ltac:(discriminate)) as [-> [Hd [Hl Happ]]].
    apply IH; [exact Herr1|]. rewrite length_app. lia.
Qed.

Lemma ReadFull_enough (b : bufio_Reader bytes_Reader) (len : Z) :
  0 <= len -> err b = None -> len <= Z.of_nat (length (unread b)) ->
  exists b',
    ReadFull b len = Some ((firstn (Z.to_nat len) (unread b), None), b') /\
    unread b' = skipn (Z.to_nat len) (unread b) /\ err b' = None.
Proof.
  intros Hlen Herr Henough.
  pose proof (ReadFull_total b len Hlen Herr) as Htot.
  assert (Hok : exists payload b', ReadFull b len = Some ((payload, None), b')).
  { unfold ReadFull in *.
    destruct (ReadAtLeast_loop (S (Z.to_nat len)) b len len [] None)
      as [[[got e] b1]|] eqn:El; [|contradiction].
    destruct (Z.leb_spec len (Z.of_nat (length got))) as [|Hshort]; [eauto|].
    exfalso.
    assert (H0 : Z.of_nat (length (@nil byte)) <= len) by (simpl length; lia).
    pose proof (ReadAtLeast_loop_spec len _ _ _ _ _ _ _ Herr H0 El)
      as [more [Hres [Hun [_ [_ Hfull]]]]].
    cbn [app] in Hres. subst more.
    destruct e as [e|]; [|specialize (Hfull eq_refl); lia].
    apply ReadAtLeast_loop_err in El; [|exact Herr|exact H0].
    rewrite El, app_nil_r in Hun. rewrite Hun in Henough. lia. }
  destruct Hok as [payload [b' E]].
  pose proof (ReadFull_spec b b' len payload Hlen Herr E) as [Hun [Hl Herr']].
  exists b'. rewrite E. split; [|split; [|exact Herr']].
  - rewrite Hun, firstn_app, firstn_all2 by lia.
    replace (Z.to_nat len - length payload)%nat with 0%nat by lia.
    rewrite firstn_O, app_nil_r. reflexivity.
  - rewrite Hun, skipn_app, skipn_all2 by lia.
    replace (Z.to_nat len - length payload)%nat with 0%nat by lia. reflexivity.
Qed.

(** ** The loop of [ReadPacket] on encoded values *)

Lemma ReadPacket_loop_encoded (payloadLength : Z) (values : list ValidTypes) :
  Forall representable values ->
  forall (fuel : nat) (read : Z) (records : list Record),
    (length values <= fuel)%nat ->
    0 <= read ->
    read + Z.of_nat (length (concat (map encoding values))) = payloadLength ->
    payloadLength < 2 ^ 63 ->
    exists new,
      ReadPacket_loop fuel (concat (map encoding values)) payloadLength read records
      = Some (Ok (records ++ new)) /\
      Forall2 decodes_to values new.
Proof.
  induction 1 as [|v values Hv Hall IH]; intros fuel read records Hfuel Hread Hlen Hbig;
    rewrite ReadPacket_loop_unfold; cbn [map concat] in *.
  - simpl length in Hlen.
    destruct (Z.ltb_spec read payloadLength); [lia|].
    exists []. rewrite app_nil_r. split; [reflexivity|constructor].
  - rewrite length_app in Hlen. pose proof (encoding_nonempty v) as Hne.
    destruct (Z.ltb_spec read payloadLength); [|lia].
    destruct fuel as [|fuel]; [simpl length in Hfuel; lia|].
    destruct (ReadRecord_encoding v (concat (map encoding values)) Hv)
      as [record [-> [Hd Hsz]]].
    rewrite int_add_small by lia.
    destruct (IH fuel (read + size record) (records ++ [record])) as [new [-> Hnew]];
      [simpl length in Hfuel; lia|lia|lia|lia|].
    exists (record :: new). rewrite <- app_assoc. split; [reflexivity|].
    constructor; assumption.
Qed.

(** ** A packet written, then read *)

Lemma unsigned_size_cases (m : Z) :
  0 <= m < 2 ^ 32 ->
  (unsigned_size m = 0 <-> m = 0) /\
  (unsigned_size m = 1 <-> 0 < m < 2 ^ 8) /\
  (unsigned_size m = 2 <-> 2 ^ 8 <= m < 2 ^ 16) /\
  (unsigned_size m = 3 <-> 2 ^ 16 <= m < 2 ^ 24) /\
  (unsigned_size m = 4 <-> 2 ^ 24 <= m).
Proof.
  intros Hm. unfold unsigned_size.
  destruct (Z.eqb_spec m 0); [lia|].
  destruct (Z.ltb_spec m (2 ^ 8)); [lia|].
  destruct (Z.ltb_spec m (2 ^ 16)); [lia|].
  destruct (Z.ltb_spec m (2 ^ 24)); lia.
Qed.

Lemma intToBytesBE_width (n : Z) :
  0 <= n < 2 ^ 32 -> Z.of_nat (length (intToBytesBE n)) = unsigned_size n.
Proof.
  intros Hn. rewrite intToBytesBE_length, getMinBinarySizeOfInt_closed, Z.mod_small by lia.
  reflexivity.
Qed.

(** The header [WritePacket] writes for a payload of [plen] bytes and the
    cookie [cookie], read back by [ReadHeader]: the length and the cookie
    come back unless the cookie has four bytes and the length two or four. *)
Lemma ReadHeader_written (plen cookie : Z) (rest : list byte) :
  0 < plen < 2 ^ 32 -> 0 < cookie < 2 ^ 32 ->
  ~ (2 ^ 24 <= cookie /\ (2 ^ 8 <= plen < 2 ^ 16 \/ 2 ^ 24 <= plen)) ->
  ReadHeader (WritePacket_header (intToBytesBE plen) (intToBytesBE cookie) ++ rest)
  = (Ok (mkHeader plen cookie), rest).
Proof.
  intros Hp Hc Hbad.
  pose proof (intToBytesBE_width plen ltac:(lia)) as HL.
  pose proof (intToBytesBE_width cookie ltac:(lia)) as HC.
  assert (HLr : 1 <= unsigned_size plen <= 4)
    by (unfold unsigned_size; split_cases).
  assert (HCr : 1 <= unsigned_size cookie <= 4)
    by (unfold unsigned_size; split_cases).
  assert (Hok : ~ (unsigned_size cookie = 4 /\
                   (unsigned_size plen = 2 \/ unsigned_size plen = 4))).
  { destruct (unsigned_size_cases plen ltac:(lia)) as [_ [_ [L2 [_ L4]]]].
    destruct (unsigned_size_cases cookie ltac:(lia)) as [_ [_ [_ [_ C4]]]].
    intros [Hc4 Hl]. apply Hbad. split; [exact (proj1 C4 Hc4)|].
    destruct Hl as [Hl|Hl]; [left; exact (proj1 L2 Hl)|right; exact (proj1 L4 Hl)]. }
  apply ReadHeader_bytes_iff.
  rewrite WritePacket_header_bytes. rewrite HL, HC.
  destruct (header_widths_written _ _ HLr HCr Hok) as [Hw1 Hw2].
  eexists. exists (intToBytesBE plen), (intToBytesBE cookie).
  split; [cbn [app]; rewrite <- app_assoc; reflexivity|].
  split; [rewrite Hw1; exact HL|]. split; [rewrite Hw2; exact HC|].
  cbn [PayloadLength Cookie].
  rewrite !be_value_intToBytesBE, !Z.mod_small by lia. auto.
Qed.

(** X22: A packet that [WritePacket] writes for representable values, read back
    by [ReadPacket] with the cookie [WritePacket] returned: the records are
    those of the values, in order, and the stream is used up.  The payload
    must fit the 32 bits of the length, the cookie drawn must not be 0, and
    the header must be one [WritePacket] writes right: not a cookie of four
    bytes with a length of two or four bytes. *)
Theorem WritePacket_ReadPacket (values : list ValidTypes) (rand_Uint32 : Z)
    (payload : bytes_Buffer) :
  values <> [] ->
  Forall representable values ->
  WritePacket_loop values [] = Ok payload ->
  Z.of_nat (length payload) < 2 ^ 32 ->
  wrap_uint32 rand_Uint32 <> 0 ->
  ~ (2 ^ 24 <= wrap_uint32 rand_Uint32 /\
     (2 ^ 8 <= Z.of_nat (length payload) < 2 ^ 16 \/ 2 ^ 24 <= Z.of_nat (length payload))) ->
  exists (packet : bytes_Reader) (records : list Record) (b : bufio_Reader bytes_Reader),
    WritePacket ([] : bytes_Buffer) values rand_Uint32
    = (Ok (wrap_uint32 rand_Uint32), packet) /\
    ReadPacket packet (wrap_uint32 rand_Uint32) = Some (Ok records, b) /\
    unread b = [] /\
    Forall2 decodes_to values records.
Proof.
  intros Hne Hall Hloop Hlen Hck Hbad.
  rewrite (WritePacket_loop_encoding values []) in Hloop. cbn [app] in Hloop.
  injection Hloop as <-.
  set (payload := concat (map encoding values)) in *.
  set (cookie := wrap_uint32 rand_Uint32) in *.
  assert (Hcr : 0 <= cookie < 2 ^ 32)
    by (unfold cookie, wrap_uint32; apply Z.mod_pos_bound; lia).
  assert (Hpos : 0 < Z.of_nat (length payload)).
  { pose proof (concat_encoding_length values). fold payload in H.
    destruct values; [contradiction|]. simpl length in H. lia. }
  set (packet := WritePacket_header (intToBytesBE (Z.of_nat (length payload)))
                                    (intToBytesBE cookie) ++ payload).
  exists packet.
  assert (Hw : WritePacket ([] : bytes_Buffer) values rand_Uint32 = (Ok cookie, packet)).
  { rewrite (WritePacket_writes ([] : bytes_Buffer) values rand_Uint32 Hne). cbv zeta.
    fold payload. fold cookie. fold packet.
    unfold Write, bytes_Buffer_Writer. cbn [app].
    destruct (Z.of_nat (length packet) <=? defaultBufSize); [reflexivity|].
    rewrite firstn_skipn. reflexivity. }
  pose proof (ReadHeader_written (Z.of_nat (length payload)) cookie payload
                ltac:(lia) ltac:(lia) Hbad) as Hh.
  fold packet in Hh.
  destruct (ReadHeader_bufio_of_bytes _ _ _ Hh) as [b0 [Hb0 [Herr0 Hun0]]].
  destruct (ReadFull_enough b0 (Z.of_nat (length payload)) ltac:(lia) Herr0
              ltac:(rewrite Hun0; lia)) as [b1 [Hfull [Hun1 Herr1]]].
  rewrite Hun0, Nat2Z.id, firstn_all in Hfull. rewrite Hun0, Nat2Z.id, skipn_all in Hun1.
  destruct (ReadPacket_loop_encoded (Z.of_nat (length payload)) values Hall
              (S (length payload)) 0 []) as [records [Hrec Hdec]].
  { pose proof (concat_encoding_length values). fold payload in H. lia. }
  { lia. }
  { fold payload. lia. }
  { lia. }
  fold payload in Hrec. cbn [app] in Hrec.
  exists records, b1.
  split; [exact Hw|]. split; [|split; assumption].
  unfold ReadPacket. rewrite Hb0. cbn [Cookie PayloadLength].
  rewrite Z.eqb_refl. cbn [negb]. rewrite andb_false_r.
  rewrite Hfull, Hrec. reflexivity.
Qed.

Lemma WritePacket_ReadPacket_witness :
  exists (packet : bytes_Reader) (records : list Record) (b : bufio_Reader bytes_Reader),
    WritePacket ([] : bytes_Buffer) [VString (str "tm.stats"); VInt 142] 0x6f8da297
    = (Ok (wrap_uint32 0x6f8da297), packet) /\
    ReadPacket packet (wrap_uint32 0x6f8da297) = Some (Ok records, b) /\
    unread b = [] /\
    Forall2 decodes_to [VString (str "tm.stats"); VInt 142] records.
Proof.
  apply (WritePacket_ReadPacket [VString (str "tm.stats"); VInt 142] 0x6f8da297
           (hex "9109746d2e737461747300108e")).
  - discriminate.
  - repeat constructor; cbn [representable]; vm_compute; try reflexivity; discriminate.
  - vm_compute. reflexivity.
  - vm_compute. reflexivity.
  - vm_compute. discriminate.
  - intros [_ [[Hlo _] | Hlo]]; vm_compute in Hlo; apply Hlo; reflexivity.
Defined.

(** ** The header of a longer packet *)

Lemma be_value_cons (b : byte) (l : list byte) :
  be_value (b :: l) = Z_of_byte b * 256 ^ Z.of_nat (length l) + be_value l.
Proof.
  induction l as [|x l IH] using rev_ind.
  - unfold be_value. cbn [fold_left length]. change (256 ^ Z.of_nat 0) with 1. lia.
  - rewrite app_comm_cons, !be_value_snoc, IH, length_app. simpl length.
    rewrite Nat2Z.inj_add, Z.pow_add_r by lia. change (256 ^ Z.of_nat 1) with 256. lia.
Qed.

(** X23: When the payload has 256 to 65535 bytes and the cookie drawn has four
    bytes (2^24 or more, as 255 of 256 random cookies), the second header byte
    [WritePacket] writes is 03, not 07: [|] and [-] are taken from the left, and
    [(1<<2 | 4) - 1] is 3.  It announces a length of one byte.  [ReadHeader]
    takes the high byte of the length for the length, and the low byte with
    the first three bytes of the cookie for the cookie. *)
Theorem WritePacket_header_misread (values : list ValidTypes) (rand_Uint32 : Z)
    (payload : bytes_Buffer) :
  values <> [] ->
  WritePacket_loop values [] = Ok payload ->
  2 ^ 8 <= Z.of_nat (length payload) < 2 ^ 16 ->
  2 ^ 24 <= wrap_uint32 rand_Uint32 ->
  exists (packet rest : list byte),
    WritePacket ([] : bytes_Buffer) values rand_Uint32
    = (Ok (wrap_uint32 rand_Uint32), packet) /\
    nth 1 packet Byte.x00 = Byte.x03 /\
    ReadHeader packet
    = (Ok (mkHeader (Z.of_nat (length payload) / 256)
                    (Z.of_nat (length payload) mod 256 * 2 ^ 24
                     + wrap_uint32 rand_Uint32 / 256)), rest) /\
    Z.of_nat (length payload) / 256 < Z.of_nat (length payload).
Proof.
  intros Hne Hloop Hlen Hck.
  rewrite (WritePacket_loop_encoding values []) in Hloop. cbn [app] in Hloop.
  injection Hloop as <-.
  set (payload := concat (map encoding values)) in *.
  set (cookie := wrap_uint32 rand_Uint32) in *.
  set (plen := Z.of_nat (length payload)) in *.
  assert (Hcr : 0 <= cookie < 2 ^ 32)
    by (unfold cookie, wrap_uint32; apply Z.mod_pos_bound; lia).
  set (packet := WritePacket_header (intToBytesBE plen) (intToBytesBE cookie) ++ payload).
  assert (Hw : WritePacket ([] : bytes_Buffer) values rand_Uint32 = (Ok cookie, packet)).
  { rewrite (WritePacket_writes ([] : bytes_Buffer) values rand_Uint32 Hne). cbv zeta.
    fold payload. fold plen. fold cookie. fold packet.
    unfold Write, bytes_Buffer_Writer. cbn [app].
    destruct (Z.of_nat (length packet) <=? defaultBufSize); [reflexivity|].
    rewrite firstn_skipn. reflexivity. }
  assert (EL : intToBytesBE plen = [byte_of_Z (Z.shiftr plen 8); byte_of_Z plen]).
  { rewrite intToBytesBE_be_bytes, getMinBinarySizeOfInt_closed, Z.mod_small by lia.
    replace (unsigned_size plen) with 2 by (unfold unsigned_size; split_cases).
    reflexivity. }
  assert (EC : intToBytesBE cookie
               = be_bytes 3 (Z.shiftr cookie 8) ++ [byte_of_Z cookie]).
  { rewrite intToBytesBE_be_bytes, getMinBinarySizeOfInt_closed, Z.mod_small by lia.
    replace (unsigned_size cookie) with 4 by (unfold unsigned_size; split_cases).
    reflexivity. }
  assert (Eb1 : nth 1 packet Byte.x00 = Byte.x03).
  { unfold packet. rewrite WritePacket_header_bytes, EL, EC.
    rewrite length_app, be_bytes_length. reflexivity. }
  exists packet, (byte_of_Z cookie :: payload).
  split; [exact Hw|]. split; [exact Eb1|]. split.
  - apply ReadHeader_bytes_iff.
    exists Byte.x03, [byte_of_Z (Z.shiftr plen 8)],
           (byte_of_Z plen :: be_bytes 3 (Z.shiftr cookie 8)).
    split.
    { unfold packet. rewrite WritePacket_header_bytes, EL, EC.
      rewrite length_app, be_bytes_length.
      cbn [app length]. rewrite <- !app_assoc. reflexivity. }
    split; [reflexivity|].
    split; [cbn [length]; rewrite be_bytes_length; reflexivity|].
    cbn [PayloadLength Cookie]. split.
    + unfold be_value. cbn [fold_left]. rewrite Z_of_byte_of_Z.
      rewrite Z.shiftr_div_pow2 by lia. change (2 ^ 8) with 256.
      assert (plen / 256 < 256) by (apply Z.div_lt_upper_bound; lia).
      assert (0 <= plen / 256) by (apply Z.div_pos; lia).
      rewrite Z.mod_small by lia. lia.
    + rewrite be_value_cons, be_bytes_length, be_value_be_bytes, Z_of_byte_of_Z.
      rewrite Z.shiftr_div_pow2 by lia. change (2 ^ 8) with 256.
      assert (cookie / 256 < 256 ^ 3) by (apply Z.div_lt_upper_bound; lia).
      assert (0 <= cookie / 256) by (apply Z.div_pos; lia).
      change (Z.of_nat 3) with 3.
      rewrite (Z.mod_small (cookie / 256)) by lia. reflexivity.
  - assert (plen / 256 < 256) by (apply Z.div_lt_upper_bound; lia). lia.
Qed.

Lemma WritePacket_header_misread_witness :
  exists (packet rest : list byte),
    WritePacket ([] : bytes_Buffer) [VString (repeat Byte.x61 300)] 0x6f8da297
    = (Ok (wrap_uint32 0x6f8da297), packet) /\
    nth 1 packet Byte.x00 = Byte.x03 /\
    ReadHeader packet
    = (Ok (mkHeader (Z.of_nat (length (hex "a1012d" ++ repeat Byte.x61 300 ++ hex "00")) / 256)
                    (Z.of_nat (length (hex "a1012d" ++ repeat Byte.x61 300 ++ hex "00")) mod 256
                     * 2 ^ 24 + wrap_uint32 0x6f8da297 / 256)), rest) /\
    Z.of_nat (length (hex "a1012d" ++ repeat Byte.x61 300 ++ hex "00")) / 256
    < Z.of_nat (length (hex "a1012d" ++ repeat Byte.x61 300 ++ hex "00")).
Proof.
  apply (WritePacket_header_misread [VString (repeat Byte.x61 300)] 0x6f8da297
           (hex "a1012d" ++ repeat Byte.x61 300 ++ hex "00")).
  - discriminate.
  - vm_compute. reflexivity.
  - vm_compute. split; [discriminate|reflexivity].
  - vm_compute. discriminate.
Defined.

(** ** [ReadRecord] looks at the bytes it takes, and at no other *)

(** The end mark is recognised on its byte alone. *)
Lemma ReadRecord_front_end_local (r r1 : bytes_Reader) :
  ReadRecord_front r = (Error errEndOfStruct, r1) ->
  exists b : byte,
    r = b :: r1 /\
    forall r2 : bytes_Reader,
      @ReadRecord_front bytes_Reader _ (b :: r2) = (Error errEndOfStruct, r2).
Proof.
  unfold ReadRecord_front.
  destruct (readField FRecordHeader r 1) as [[hb|e1] r0] eqn:E1.
  2:{ apply readField_bytes_Error in E1; [|lia]. destruct E1 as [_ Hne].
      intros E. injection E as E _. contradiction. }
  apply readField_bytes_Ok in E1; [|lia]. destruct E1 as [-> [Hl _]].
  destruct (singleton_of_length hb Hl) as [b ->]. cbn [nth].
  destruct (header_byte_fields b) as [Hflag [Hsize Htype]].
  destruct ((Z.shiftr (Z_of_byte b) 7 =? 1) && (Z.land (Z.shiftr (Z_of_byte b) 4) 7 =? 0)
            && (Z.land (Z_of_byte b) 15 =? TypeStruct)) eqn:Eend.
  { intros E. injection E as <-. exists b. split; [reflexivity|].
    intros r2. rewrite readField_bytes_cons. cbn [nth]. rewrite Eend. reflexivity. }
  set (size0 := Z.land (Z.shiftr (Z_of_byte b) 4) 7) in *.
  assert (Hfinal : forall (size1 rs rt : Z) (r2 : bytes_Reader),
             0 <= size1 ->
             match (if size1 =? 0 then (Ok [], r2) else readField FRecordValue r2 size1) with
             | (Error e0, r3) => (Error e0, r3)
             | (Ok buf0, r3) => (Ok (rs, rt, size1, buf0), r3)
             end <> (Error errEndOfStruct, r1)).
  { intros size1 rs rt r2 Hs1.
    destruct (size1 =? 0); [discriminate|].
    destruct (readField FRecordValue r2 size1) as [[vb|e3] r3] eqn:E3; [discriminate|].
    apply readField_bytes_Error in E3; [|lia]. destruct E3 as [_ Hne].
    intros E. injection E as E _. contradiction. }
  destruct (Z.shiftr (Z_of_byte b) 7 =? 1).
  - destruct (readField FRecordSize r0 size0) as [[sb|e2] r2] eqn:E2.
    + apply readField_bytes_Ok in E2; [|lia]. destruct E2 as [_ [Hsb _]].
      intros E. exfalso. revert E. apply Hfinal.
      pose proof (be_value_bounds sb). rewrite accumulate_small by lia. lia.
    + apply readField_bytes_Error in E2; [|lia]. destruct E2 as [_ Hne].
      intros E. injection E as E _. contradiction.
  - intros E. exfalso. revert E. apply Hfinal. lia.
Qed.

Lemma ReadRecord_step_local
    (r r' : bytes_Reader) (res : result Record) :
  (forall r1 rs it res1 r1',
     (length r1 < length r)%nat ->
     readStructItems r1 rs it = Some (res1, r1') -> goes_on res1 ->
     exists taken, r1 = taken ++ r1' /\ taken <> [] /\
       forall r2, r2 <> [] -> readStructItems (taken ++ r2) rs it = Some (res1, r2)) ->
  ReadRecord r = Some (res, r') -> goes_on res ->
  exists taken, r = taken ++ r' /\ taken <> [] /\
    forall r2, r2 <> [] -> ReadRecord (taken ++ r2) = Some (res, r2).
Proof.
  intros Hloop. rewrite ReadRecord_eq. unfold ReadRecord_step.
  destruct (ReadRecord_front r) as [[[[[rsize rtype] size1] value]|e] r1] eqn:Ef.
  2:{ intros E Hgo. injection E as <- <-. cbn [goes_on] in Hgo. subst e.
      destruct (ReadRecord_front_end_local _ _ Ef) as [b [-> Hb]].
      exists [b]. split; [reflexivity|]. split; [discriminate|].
      intros r2 _. rewrite ReadRecord_eq. unfold ReadRecord_step.
      cbn [app]. rewrite Hb. reflexivity. }
  destruct (ReadRecord_front_bytes_shape _ _ _ _ _ _ Ef)
    as [hd [Hr [Hhd [Hrs [Hval Hlocal]]]]].
  assert (Hhdne : hd <> []) by (destruct hd; [simpl length in Hhd; lia|discriminate]).
  assert (Hscalar :
            exists taken, r = taken ++ r1 /\ taken <> [] /\
              forall r2, r2 <> [] ->
                @ReadRecord_front bytes_Reader _ (taken ++ r2)
                = (Ok (rsize, rtype, size1, value), r2)).
  { exists (hd ++ value). rewrite <- app_assoc. split; [exact Hr|].
    split; [destruct hd; [contradiction|discriminate]|].
    intros r2 Hr2. rewrite <- app_assoc. apply Hlocal. exact Hr2. }
  destruct ((rtype =? TypeAVP) || (rtype =? TypeString)) eqn:Es.
  { intros E _. injection E as <- <-.
    destruct Hscalar as [taken [Ht [Hne Hf]]].
    exists taken. split; [exact Ht|]. split; [exact Hne|].
    intros r2 Hr2. rewrite ReadRecord_eq. unfold ReadRecord_step.
    rewrite (Hf r2 Hr2), Es. reflexivity. }
  destruct (rtype =? TypeInt) eqn:Ei.
  { intros E _. injection E as <- <-.
    destruct Hscalar as [taken [Ht [Hne Hf]]].
    exists taken. split; [exact Ht|]. split; [exact Hne|].
    intros r2 Hr2. rewrite ReadRecord_eq. unfold ReadRecord_step.
    rewrite (Hf r2 Hr2), Es, Ei. reflexivity. }
  destruct (rtype =? TypeDouble) eqn:Ed.
  { intros E _. injection E as <- <-.
    destruct Hscalar as [taken [Ht [Hne Hf]]].
    exists taken. split; [exact Ht|]. split; [exact Hne|].
    intros r2 Hr2. rewrite ReadRecord_eq. unfold ReadRecord_step.
    rewrite (Hf r2 Hr2), Es, Ei, Ed. reflexivity. }
  destruct (rtype =? TypeStruct) eqn:Et.
  2:{ intros E Hgo. injection E as <- <-. discriminate Hgo. }
  assert (Hlt : (length r1 < length r)%nat).
  { rewrite Hr, !length_app. destruct hd; [contradiction|]. simpl length. lia. }
  destruct (readStructItems r1 rsize []) as [[res1 r1']|] eqn:El; [|discriminate].
  assert (Hshape : forall (Hgo1 : goes_on res1),
            exists taken, r = taken ++ r1' /\ taken <> [] /\
              forall r2, r2 <> [] ->
                @ReadRecord_front bytes_Reader _ (taken ++ r2)
                = (Ok (rsize, rtype, size1, value),
                   skipn (length (hd ++ value)) (taken ++ r2)) /\
                readStructItems (skipn (length (hd ++ value)) (taken ++ r2)) rsize []
                = Some (res1, r2)).
  { intros Hgo1.
    destruct (Hloop _ _ _ _ _ Hlt El Hgo1) as [taken1 [Ht1 [Hne1 Hl1]]].
    exists ((hd ++ value) ++ taken1).
    split; [rewrite <- !app_assoc, <- Ht1; exact Hr|].
    split; [destruct hd; [contradiction|discriminate]|].
    intros r2 Hr2.
    rewrite <- (app_assoc (hd ++ value)), skipn_app, skipn_all, Nat.sub_diag.
    cbn [skipn app].
    split; [|apply Hl1; exact Hr2].
    rewrite <- app_assoc. apply Hlocal.
    destruct taken1; [contradiction|discriminate]. }
  destruct res1 as [[rsize' items]|e].
  - intros E _. injection E as <- <-.
    destruct (Hshape I) as [taken [Ht [Hne Hf]]].
    exists taken. split; [exact Ht|]. split; [exact Hne|].
    intros r2 Hr2. destruct (Hf r2 Hr2) as [Hf1 Hf2].
    rewrite ReadRecord_eq. unfold ReadRecord_step.
    rewrite Hf1, Es, Ei, Ed, Et, Hf2. reflexivity.
  - intros E Hgo. injection E as <- <-.
    destruct (Hshape Hgo) as [taken [Ht [Hne Hf]]].
    exists taken. split; [exact Ht|]. split; [exact Hne|].
    intros r2 Hr2. destruct (Hf r2 Hr2) as [Hf1 Hf2].
    rewrite ReadRecord_eq. unfold ReadRecord_step.
    rewrite Hf1, Es, Ei, Ed, Et, Hf2. reflexivity.
Qed.

Lemma readStructItems_step_local
    (r r' : bytes_Reader) (rsize : Z) (items : list StructItem)
    (res : result (Z * list StructItem)) :
  (forall r1 res1 r1',
     (length r1 <= length r)%nat ->
     ReadRecord r1 = Some (res1, r1') -> goes_on res1 ->
     exists taken, r1 = taken ++ r1' /\ taken <> [] /\
       forall r2, r2 <> [] -> ReadRecord (taken ++ r2) = Some (res1, r2)) ->
  (forall r1 rs it res1 r1',
     (length r1 < length r)%nat ->
     readStructItems r1 rs it = Some (res1, r1') -> goes_on res1 ->
     exists taken, r1 = taken ++ r1' /\ taken <> [] /\
       forall r2, r2 <> [] -> readStructItems (taken ++ r2) rs it = Some (res1, r2)) ->
  readStructItems r rsize items = Some (res, r') -> goes_on res ->
  exists taken, r = taken ++ r' /\ taken <> [] /\
    forall r2, r2 <> [] -> readStructItems (taken ++ r2) rsize items = Some (res, r2).
Proof.
  intros Hrec Hloop. rewrite readStructItems_eq. unfold readStructItems_step.
  destruct (ReadRecord r) as [[res1 r1]|] eqn:E1; [|discriminate].
  destruct res1 as [avpName|e].
  2:{ assert (Hend : e = errEndOfStruct -> 
               exists taken, r = taken ++ r1 /\ taken <> [] /\
                 forall r2, r2 <> [] ->
                   readStructItems (taken ++ r2) rsize items
                   = Some (Ok (int_add rsize 1, items), r2)).
      { intros ->.
        destruct (Hrec r _ _ ltac:(lia) E1 eq_refl) as [taken [Ht [Hne Hl]]].
        exists taken. split; [exact Ht|]. split; [exact Hne|].
        intros r2 Hr2. rewrite readStructItems_eq. unfold readStructItems_step.
        rewrite (Hl r2 Hr2). reflexivity. }
      destruct e; intros E Hgo; injection E as <- <-; try discriminate Hgo.
      apply Hend. reflexivity. }
  destruct (Hrec r _ _ ltac:(lia) E1 I) as [taken1 [Ht1 [Hne1 Hl1]]].
  assert (Hlen1 : (length r1 < length r)%nat).
  { rewrite Ht1, length_app. destruct taken1; [contradiction|]. simpl length. lia. }
  destruct (negb (Type_ avpName =? TypeAVP)) eqn:Ek.
  { intros E Hgo. injection E as <- <-. discriminate Hgo. }
  destruct (ReadRecord r1) as [[res2 r2']|] eqn:E2; [|discriminate].
  destruct res2 as [avpValue|e].
  2:{ intros E Hgo. injection E as <- <-. cbn [goes_on] in Hgo. subst e.
      destruct (Hrec r1 _ _ ltac:(lia) E2 eq_refl) as [taken2 [Ht2 [Hne2 Hl2]]].
      exists (taken1 ++ taken2).
      split; [rewrite <- app_assoc, <- Ht2; exact Ht1|].
      split; [destruct taken1; [contradiction|discriminate]|].
      intros rX HrX. rewrite readStructItems_eq. unfold readStructItems_step.
      rewrite <- app_assoc.
      rewrite (Hl1 (taken2 ++ rX)) by (destruct taken2; [contradiction|discriminate]).
      rewrite Ek, (Hl2 rX HrX). reflexivity. }
  destruct (Hrec r1 _ _ ltac:(lia) E2 I) as [taken2 [Ht2 [Hne2 Hl2]]].
  assert (Hlen2 : (length r2' < length r)%nat).
  { rewrite Ht2, length_app in Hlen1. lia. }
  intros E Hgo.
  destruct (Hloop _ _ _ _ _ Hlen2 E Hgo) as [taken3 [Ht3 [Hne3 Hl3]]].
  exists (taken1 ++ taken2 ++ taken3).
  split; [rewrite <- !app_assoc, <- Ht3, <- Ht2; exact Ht1|].
  split; [destruct taken1; [contradiction|discriminate]|].
  intros rX HrX. rewrite readStructItems_eq. unfold readStructItems_step.
  rewrite <- !app_assoc.
  rewrite (Hl1 (taken2 ++ taken3 ++ rX)) by (destruct taken2; [contradiction|discriminate]).
  rewrite Ek.
  rewrite (Hl2 (taken3 ++ rX)) by (destruct taken3; [contradiction|discriminate]).
  apply Hl3. exact HrX.
Qed.

Lemma ReadRecord_local_by_length (n : nat) :
  (forall r res r',
     (length r <= n)%nat ->
     ReadRecord r = Some (res, r') -> goes_on res ->
     exists taken, r = taken ++ r' /\ taken <> [] /\
       forall r2, r2 <> [] -> ReadRecord (taken ++ r2) = Some (res, r2)) /\
  (forall r rs it res r',
     (length r <= n)%nat ->
     readStructItems r rs it = Some (res, r') -> goes_on res ->
     exists taken, r = taken ++ r' /\ taken <> [] /\
       forall r2, r2 <> [] -> readStructItems (taken ++ r2) rs it = Some (res, r2)).
Proof.
  induction n as [|n [IHr IHs]].
  - assert (Hr0 : forall r res r',
              (length r <= 0)%nat ->
              ReadRecord r = Some (res, r') -> goes_on res ->
              exists taken, r = taken ++ r' /\ taken <> [] /\
                forall r2, r2 <> [] -> ReadRecord (taken ++ r2) = Some (res, r2)).
    { intros r res r' Hlen. apply ReadRecord_step_local.
      intros r1 rs it res1 r1' Hlt. lia. }
    split; [exact Hr0|].
    intros r rs it res r' Hlen. apply readStructItems_step_local.
    + intros r1 res1 r1' Hle. apply Hr0. lia.
    + intros r1 rs1 it1 res1 r1' Hlt. lia.
  - assert (HrS : forall r res r',
              (length r <= S n)%nat ->
              ReadRecord r = Some (res, r') -> goes_on res ->
              exists taken, r = taken ++ r' /\ taken <> [] /\
                forall r2, r2 <> [] -> ReadRecord (taken ++ r2) = Some (res, r2)).
    { intros r res r' Hlen. apply ReadRecord_step_local.
      intros r1 rs it res1 r1' Hlt. apply IHs. lia. }
    split; [exact HrS|].
    intros r rs it res r' Hlen. apply readStructItems_step_local.
    + intros r1 res1 r1' Hle. apply HrS. lia.
    + intros r1 rs1 it1 res1 r1' Hlt. apply IHs. lia.
Qed.

(** X13: [ReadRecord] decides on the bytes it takes: when it returns a record, the
    bytes it has taken, at least one, followed by any other bytes, at least
    one, give the same record, and those other bytes are left.  (Followed by
    nothing they need not: a record with the flag of an explicit size and no
    size byte, 80, is an integer 0 before any byte and an error at the end of
    the stream, where [bytes.Reader] answers a read of no byte with EOF.) *)
Theorem ReadRecord_takes_a_prefix (r r' : bytes_Reader) (record : Record) :
  ReadRecord r = Some (Ok record, r') ->
  exists taken : list byte,
    r = taken ++ r' /\ taken <> [] /\
    forall r2 : bytes_Reader,
      r2 <> [] -> ReadRecord (taken ++ r2) = Some (Ok record, r2).
Proof.
  intros E.
  exact (proj1 (ReadRecord_local_by_length (length r)) r (Ok record) r' (Nat.le_refl _) E I).
Qed.

Lemma ReadRecord_takes_a_prefix_witness :
  exists taken : list byte,
    hex "80ff" = taken ++ hex "ff" /\ taken <> [] /\
    forall r2 : bytes_Reader,
      r2 <> [] -> ReadRecord (taken ++ r2) = Some (Ok (mkRecord 1 TypeInt (Int 0)), r2).
Proof.
  apply (ReadRecord_takes_a_prefix (hex "80ff") (hex "ff") (mkRecord 1 TypeInt (Int 0))).
  vm_compute. reflexivity.
Defined.

(** At the end of the stream the same byte is refused. *)
Example ReadRecord_explicit_size_at_end :
  ReadRecord (hex "80") = Some (Error (ErrCannotRead FRecordSize EOF), []).
Proof. vm_compute. reflexivity. Qed.

(** X14: A record cut short is not taken for a record: if [ReadRecord] decodes a
    byte string to its end, it fails on every proper prefix of it. *)
Theorem ReadRecord_truncated (p q : list byte) (record : Record) :
  ReadRecord (p ++ q) = Some (Ok record, []) ->
  q <> [] ->
  exists e r1, ReadRecord p = Some (Error e, r1) /\ e <> errEndOfStruct.
Proof.
  intros Efull Hq.
  destruct (ReadRecord_total p) as [[res r1] Ep].
  assert (Hno : ~ goes_on res).
  { intros Hgo.
    destruct (proj1 (ReadRecord_local_by_length (length p)) p res r1 (Nat.le_refl _) Ep Hgo)
      as [taken [Ht [_ Hl]]].
    specialize (Hl (r1 ++ q) ltac:(destruct r1; [exact Hq|discriminate])).
    rewrite app_assoc, <- Ht, Efull in Hl. injection Hl as _ Hnil.
    destruct r1; [apply Hq; symmetry; exact Hnil|discriminate]. }
  destruct res as [rec1|e]; [exfalso; apply Hno; exact I|].
  exists e, r1. split; [exact Ep|]. intros ->. apply Hno. reflexivity.
Qed.

Lemma ReadRecord_truncated_witness :
  exists e r1,
    ReadRecord (hex "9109746d2e7374") = Some (Error e, r1) /\ e <> errEndOfStruct.
Proof.
  apply (ReadRecord_truncated (hex "9109746d2e7374") (hex "61747300")
           (mkRecord 11 TypeString (String (str "tm.stats")))).
  - vm_compute. reflexivity.
  - discriminate.
Defined.

(** ** [ReadPacket] and the accessors *)

Lemma ReadPacket_loop_well_typed (fuel : nat) :
  forall (payload : bytes_Reader) (payloadLength read : Z) (records res : list Record),
    ReadPacket_loop fuel payload payloadLength read records = Some (Ok res) ->
    Forall well_typed records -> Forall well_typed res.
Proof.
  induction fuel as [|fuel IH]; intros payload payloadLength read records res;
    rewrite ReadPacket_loop_unfold; destruct (read <? payloadLength); try discriminate.
  1,3: intros E; injection E as <-; auto.
  destruct (ReadRecord payload) as [[[record|e] payload1]|] eqn:Er; try discriminate.
  intros E Hall. apply (IH _ _ _ _ _ E).
  apply Forall_app. split; [exact Hall|]. constructor; [|constructor].
  apply (proj1 (fuel_well_typed _) _ _ _ Er).
Qed.

(** X18: Whatever the stream, no accessor panics on a record [ReadPacket]
    returned, nor on a record met in one: all of them are well typed. *)
Theorem ReadPacket_records_well_typed {R : Type} `{Reader R} (r : R)
    (expectedCookie : Z) (records : list Record) (b : bufio_Reader R)
    (record sub : Record) :
  ReadPacket r expectedCookie = Some (Ok records, b) ->
  In record records ->
  inside sub record ->
  well_typed sub /\
  Record_String sub <> Panics /\ Record_Int sub <> Panics /\
  Record_Double sub <> Panics /\ Record_StructItems sub <> Panics.
Proof.
  unfold ReadPacket.
  destruct (ReadHeader (bufio_NewReader r)) as [[header|e] b0]; [|discriminate].
  destruct (negb (expectedCookie =? 0) && negb (expectedCookie =? Cookie header));
    [discriminate|].
  destruct (ReadFull b0 (PayloadLength header)) as [[[payload [e|]] b1]|];
    try discriminate.
  destruct (ReadPacket_loop _ _ _ _ _) as [[res|e]|] eqn:El; try discriminate.
  intros E Hin Hsub. injection E as <- <-.
  apply ReadPacket_loop_well_typed in El; [|constructor].
  rewrite Forall_forall in El.
  pose proof (inside_well_typed sub record Hsub (El _ Hin)) as Hwt.
  split; [exact Hwt|].
  pose proof (well_typed_accessors sub Hwt) as Hacc.
  destruct sub as [rsize rtype [|v|s|f|items]]; cbn [Value] in Hacc; [contradiction| | | |].
  - destruct Hacc as [-> [-> [-> ->]]]. repeat split; discriminate.
  - destruct Hacc as [[[_ ->]|[_ ->]] [-> [-> ->]]]; repeat split; discriminate.
  - destruct Hacc as [-> [-> [-> ->]]]. repeat split; discriminate.
  - destruct Hacc as [-> [-> [-> ->]]]. repeat split; discriminate.
Qed.

Lemma ReadPacket_records_well_typed_witness :
  well_typed (mkRecord 3 TypeInt (Int 500)) /\
  Record_String (mkRecord 3 TypeInt (Int 500)) <> Panics /\
  Record_Int (mkRecord 3 TypeInt (Int 500)) <> Panics /\
  Record_Double (mkRecord 3 TypeInt (Int 500)) <> Panics /\
  Record_StructItems (mkRecord 3 TypeInt (Int 500)) <> Panics.
Proof.
  apply (@ReadPacket_records_well_typed bytes_Reader _
           (hex "a1322a9883af2001f49125636f6d6d616e6420636f72652e6563686f20626f6e6a6f757273206e6f7420666f756e6400")
           0x9883af
           [mkRecord 3 TypeInt (Int 500);
            mkRecord 39 TypeString (String (str "command core.echo bonjours not found"))]
           (mkBufio [] [] None)
           (mkRecord 3 TypeInt (Int 500)) (mkRecord 3 TypeInt (Int 500))).
  - vm_compute. reflexivity.
  - left. reflexivity.
  - apply inside_self.
Defined.

(** ** Encoding a decoded record *)

(** X5: A record [ReadRecord] returned can be encoded again if and only if it is
    a scalar: for an integer, a string or a double [Encode] is one [Write] of
    some bytes, at least one, and can only fail as the sink does; a struct or
    a record of type [TypeAVP] is refused as "type not implemented" with
    nothing written.  The "expected type" errors cannot occur. *)
Theorem Encode_of_decoded {R : Type} `{Reader R} {W : Type} `{Writer W}
    (fuel : nat) (r r' : R) (record : Record) (w : W) :
  ReadRecord_fuel fuel r = Some (Ok record, r') ->
  (Type_ record = TypeStruct \/ Type_ record = TypeAVP ->
   Encode record w = (Some (ErrTypeNotImplemented (Type_ record)), w)) /\
  (Type_ record = TypeInt \/ Type_ record = TypeString \/ Type_ record = TypeDouble ->
   exists bytes : list byte, bytes <> [] /\ Encode record w = write_all w bytes).
Proof.
  intros E. apply (proj1 (fuel_well_typed fuel)) in E.
  destruct record as [rsize rtype [|v|s|f|items]]; cbn [well_typed Type_] in *;
    try contradiction.
  - subst rtype. split; [intros [Ht|Ht]; discriminate Ht|]. intros _.
    unfold Encode. cbn [Type_ Value]. change (TypeInt =? TypeInt) with true. cbv iota.
    destruct (v =? 0); eexists; (split; [|reflexivity]);
      [discriminate|unfold Encode_frame; destruct (_ <? 8); discriminate].
  - destruct E as [-> | ->].
    + split; [intros [Ht|Ht]; discriminate Ht|]. intros _.
      eexists. split; [|reflexivity].
      unfold Encode_frame; destruct (_ <? 8); discriminate.
    + split; [reflexivity|]. intros [Ht|[Ht|Ht]]; discriminate Ht.
  - subst rtype. split; [intros [Ht|Ht]; discriminate Ht|]. intros _.
    eexists. split; [|reflexivity].
    unfold Encode_frame; destruct (_ <? 8); discriminate.
  - destruct E as [-> _]. split; [reflexivity|]. intros [Ht|[Ht|Ht]]; discriminate Ht.
Qed.

Lemma Encode_of_decoded_witness :
  (TypeAVP = TypeStruct \/ TypeAVP = TypeAVP ->
   Encode (mkRecord 3 TypeAVP (String (str "a"))) ([] : bytes_Buffer)
   = (Some (ErrTypeNotImplemented TypeAVP), [])) /\
  (TypeAVP = TypeInt \/ TypeAVP = TypeString \/ TypeAVP = TypeDouble ->
   exists bytes : list byte,
     bytes <> [] /\
     Encode (mkRecord 3 TypeAVP (String (str "a"))) ([] : bytes_Buffer)
     = write_all ([] : bytes_Buffer) bytes).
Proof.
  apply (@Encode_of_decoded bytes_Reader _ bytes_Buffer _ 1 (hex "256100") []
           (mkRecord 3 TypeAVP (String (str "a"))) []).
  vm_compute. reflexivity.
Defined.

(** X4: [CreateRecord] does not fail, and encoding the record it makes is one
    [Write] of bytes that depend on the value alone, at least one byte:
    whatever the sink, [Encode] fails only as the sink's [Write] does. *)
Theorem Encode_of_created (v : ValidTypes) :
  exists bytes : list byte,
    bytes <> [] /\
    forall (W : Type) (WW : Writer W) (w : W),
      exists record,
        CreateRecord v = Ok record /\
        Type_ record = type_of v /\
        Encode record w = write_all w bytes.
Proof.
  exists (encoding v). split.
  - pose proof (encoding_nonempty v). destruct (encoding v); [simpl length in *; lia|discriminate].
  - intros W WW w. destruct (Encode_encoding v w) as [record [Hc He]].
    exists record. split; [exact Hc|]. split; [|exact He].
    destruct v; injection Hc as <-; reflexivity.
Qed.

(** ** The sizing function of v1 *)

(** X25: The v1 function returns the least of the widths 1, 2, 4 and 8 whose
    two's complement range holds its argument. *)
Theorem V1_getMinBinarySizeOfInt_minimal (n : Z) :
  - 2 ^ 63 <= n < 2 ^ 63 ->
  (V1.getMinBinarySizeOfInt n = 1 \/ V1.getMinBinarySizeOfInt n = 2 \/
   V1.getMinBinarySizeOfInt n = 4 \/ V1.getMinBinarySizeOfInt n = 8) /\
  fits_twos_complement (V1.getMinBinarySizeOfInt n) n /\
  forall j, (j = 1 \/ j = 2 \/ j = 4 \/ j = 8) ->
            j < V1.getMinBinarySizeOfInt n -> ~ fits_twos_complement j n.
Proof.
  intros Hn. unfold V1.getMinBinarySizeOfInt, fits_twos_complement.
  destruct (Z.leb_spec (-128) n); destruct (Z.leb_spec n 127); cbn [andb];
    try (split; [auto|]; split; [simpl; lia|]; intros j Hj Hlt; lia).
  all: destruct (Z.leb_spec (-32768) n); destruct (Z.leb_spec n 32767); cbn [andb];
    try (split; [auto|]; split; [simpl; lia|];
         intros j [-> | [-> | [-> | ->]]] Hlt; simpl; lia).
  all: destruct (Z.leb_spec (-2147483648) n); destruct (Z.leb_spec n 2147483647);
    cbn [andb];
    try (split; [auto 6|]; split; [simpl; lia|];
         intros j [-> | [-> | [-> | ->]]] Hlt; simpl; lia).
Qed.

Lemma V1_getMinBinarySizeOfInt_minimal_witness :
  (V1.getMinBinarySizeOfInt 8388605 = 1 \/ V1.getMinBinarySizeOfInt 8388605 = 2 \/
   V1.getMinBinarySizeOfInt 8388605 = 4 \/ V1.getMinBinarySizeOfInt 8388605 = 8) /\
  fits_twos_complement (V1.getMinBinarySizeOfInt 8388605) 8388605 /\
  forall j, (j = 1 \/ j = 2 \/ j = 4 \/ j = 8) ->
            j < V1.getMinBinarySizeOfInt 8388605 -> ~ fits_twos_complement j 8388605.
Proof. apply (V1_getMinBinarySizeOfInt_minimal 8388605). lia. Defined.

(** ** What [ReadPacket] takes off the caller's stream *)

(** A buffer whose stream is at its end stays so. *)
Lemma bufio_Read_at_end (b : bufio_Reader bytes_Reader) (n : Z) :
  rd b = [] -> err b = None ->
  rd (snd (bufio_Read b n)) = [] /\ err (snd (bufio_Read b n)) = None.
Proof.
  destruct b as [bbuf brd berr]. cbv beta iota delta [buf rd err].
  intros -> ->. unfold bufio_Read. cbv beta iota delta [buf rd err].
  destruct (n =? 0).
  - destruct bbuf; cbn [snd rd err]; auto.
  - destruct bbuf as [|x bbuf].
    + destruct (defaultBufSize <=? n); cbn [snd rd err]; auto.
    + unfold bufio_copy. cbn [snd buf rd err]. auto.
Qed.

(** The first read through a fresh buffer over a stream of at most 4096
    bytes takes the whole stream. *)
Lemma bufio_Read_first_drains (r : bytes_Reader) (n : Z) :
  0 < n < defaultBufSize -> Z.of_nat (length r) <= defaultBufSize ->
  rd (snd (bufio_Read (bufio_NewReader r) n)) = [] /\
  err (snd (bufio_Read (bufio_NewReader r) n)) = None.
Proof.
  intros Hn Hr. unfold bufio_Read, bufio_NewReader. cbv beta iota delta [buf rd err].
  destruct (Z.eqb_spec n 0); [lia|].
  destruct (Z.leb_spec defaultBufSize n); [lia|].
  destruct r as [|x r]; [cbn [snd rd err]; auto|].
  unfold Read, bytes_Reader_Reader.
  rewrite bytes_Read_defaultBufSize by discriminate.
  assert (HN : (length (x :: r) <= Z.to_nat defaultBufSize)%nat) by lia.
  rewrite firstn_all2, skipn_all2 by exact HN.
  unfold bufio_copy. cbn [snd buf rd err]. auto.
Qed.

Lemma readField_at_end (what : field) (b : bufio_Reader bytes_Reader) (n : Z) :
  rd b = [] -> err b = None ->
  rd (snd (readField what b n)) = [] /\ err (snd (readField what b n)) = None.
Proof.
  intros Hrd Herr. pose proof (bufio_Read_at_end b n Hrd Herr) as H.
  unfold readField, Read, bufio_Reader_Reader.
  destruct (bufio_Read b n) as [[data [e|]] b']; cbn [snd] in *; [exact H|].
  destruct (_ =? n); exact H.
Qed.

Lemma ReadHeader_drains (r : bytes_Reader) :
  Z.of_nat (length r) <= defaultBufSize ->
  rd (snd (ReadHeader (bufio_NewReader r))) = [] /\
  err (snd (ReadHeader (bufio_NewReader r))) = None.
Proof.
  intros Hr.
  pose proof (bufio_Read_first_drains r 2 ltac:(unfold defaultBufSize; lia) Hr) as H1.
  unfold ReadHeader.
  assert (H1' : rd (snd (readField FHeader (bufio_NewReader r) 2)) = [] /\
                err (snd (readField FHeader (bufio_NewReader r) 2)) = None).
  { unfold readField, Read, bufio_Reader_Reader.
    destruct (bufio_Read (bufio_NewReader r) 2) as [[data [e|]] b']; cbn [snd] in *;
      [exact H1|].
    destruct (_ =? 2); exact H1. }
  destruct (readField FHeader (bufio_NewReader r) 2) as [[data|e] b1]; cbn [snd] in H1';
    [|exact H1'].
  destruct (negb (_ =? BinRPCMagic)); [exact H1'|].
  destruct (negb (_ =? BinRPCVersion)); [exact H1'|].
  destruct H1' as [Hrd1 Herr1].
  match goal with
  | |- context [readField FTotalLength b1 ?n] =>
      pose proof (readField_at_end FTotalLength b1 n Hrd1 Herr1) as H2;
      destruct (readField FTotalLength b1 n) as [[data2|e] b2]; cbn [snd] in H2;
      [|exact H2]
  end.
  destruct H2 as [Hrd2 Herr2].
  match goal with
  | |- context [readField FCookie b2 ?n] =>
      pose proof (readField_at_end FCookie b2 n Hrd2 Herr2) as H3;
      destruct (readField FCookie b2 n) as [[data3|e] b3]; cbn [snd] in H3; exact H3
  end.
Qed.

Lemma ReadAtLeast_loop_at_end (len : Z) (fuel : nat) :
  forall (b b' : bufio_Reader bytes_Reader) (got res : list byte) (e e' : option io_error),
    rd b = [] -> err b = None ->
    ReadAtLeast_loop fuel b len len got e = Some ((res, e'), b') ->
    rd b' = [].
Proof.
  induction fuel as [|fuel IH]; intros b b' got res e e' Hrd Herr;
    rewrite ReadAtLeast_loop_unfold;
    destruct ((Z.of_nat (length got) <? len) &&
              (match e with None => true | Some _ => false end)); try discriminate.
  1,3: intros E; injection E as _ _ <-; exact Hrd.
  unfold Read, bufio_Reader_Reader.
  pose proof (bufio_Read_at_end b (len - Z.of_nat (length got)) Hrd Herr) as [Hrd1 Herr1].
  destruct (bufio_Read b (len - Z.of_nat (length got))) as [[data e1] b1].
  cbn [snd] in *. apply IH; assumption.
Qed.

(** X19: [ReadPacket] on a stream of at most 4096 bytes takes all of it, whatever
    the length of the packet and whether it succeeds or not: the caller's
    stream is at its end afterwards, and what follows the packet is left in
    the buffer of [ReadPacket]. *)
Theorem ReadPacket_takes_the_stream (r : bytes_Reader) (expectedCookie : Z)
    (res : result (list Record)) (b : bufio_Reader bytes_Reader) :
  Z.of_nat (length r) <= defaultBufSize ->
  ReadPacket r expectedCookie = Some (res, b) ->
  rd b = [].
Proof.
  intros Hr. unfold ReadPacket.
  pose proof (ReadHeader_drains r Hr) as [Hrd0 Herr0].
  destruct (ReadHeader (bufio_NewReader r)) as [[header|e] b0]; cbn [snd] in *.
  2:{ intros E. injection E as _ <-. exact Hrd0. }
  destruct (negb (expectedCookie =? 0) && negb (expectedCookie =? Cookie header)).
  { intros E. injection E as _ <-. exact Hrd0. }
  unfold ReadFull.
  destruct (ReadAtLeast_loop _ b0 _ _ [] None) as [[[got e] b1]|] eqn:El; [|discriminate].
  apply ReadAtLeast_loop_at_end in El; [|assumption|assumption].
  assert (Hfin : forall p, 
            match p with
            | Some (_, Some e0, bufreader) => Some (Error (IOError e0), bufreader)
            | Some (payloadBytes, None, bufreader) =>
                match ReadPacket_loop (S (length payloadBytes)) payloadBytes
                        (PayloadLength header) 0 [] with
                | Some res0 => Some (res0, bufreader)
                | None => None
                end
            | None => None
            end = Some (res, b) ->
            (forall x y bb, p = Some (x, y, bb) -> bb = b1) -> rd b = []).
  { intros [[[x [e0|]] bb]|] E Hp; try discriminate.
    - injection E as _ <-. rewrite (Hp _ _ _ eq_refl). exact El.
    - destruct (ReadPacket_loop _ _ _ _ _); [|discriminate].
      injection E as _ <-. rewrite (Hp _ _ _ eq_refl). exact El. }
  intros E. apply (Hfin _ E).
  intros x y bb.
  destruct (_ <=? Z.of_nat (length got)).
  - intros Ep. injection Ep as _ _ <-. reflexivity.
  - destruct got as [|g got]; destruct e as [[| |]|]; intros Ep; injection Ep as _ _ <-;
      reflexivity.
Qed.

Lemma ReadPacket_takes_the_stream_witness :
  rd (mkBufio (hex "a103034d309725220634") ([] : bytes_Reader) None) = [].
Proof.
  apply (ReadPacket_takes_the_stream
           (hex "a103034d309725220634a103034d309725220634") 0x4d309725
           (Ok [mkRecord 3 TypeDouble (Float64 0x1.96872b020c49cp+0%float)])
           (mkBufio (hex "a103034d309725220634") [] None)).
  - vm_compute. discriminate.
  - vm_compute. reflexivity.
Defined.

(** * The v1 package *)

(** ** v1 and v3 read the same fields *)

Section Agreement.
Context {R : Type} `{Reader R}.

(** The two reading idioms succeed together, with the same bytes; neither
    fails with the end-of-struct mark. *)
Lemma readField_agrees (what what' : field) (r : R) (n : Z) :
  match readField what r n, Legacy.readField what' r n with
  | (Ok data, r1), (Legacy.Ok data', r2) => data = data' /\ r1 = r2
  | (Error e, r1), (Legacy.Error e', r2) =>
      r1 = r2 /\ e <> errEndOfStruct /\ e' <> Legacy.errEndOfStruct
  | _, _ => False
  end.
Proof.
  unfold readField, Legacy.readField.
  destruct (Read r n) as [[data [e|]] r1].
  - repeat split; discriminate.
  - destruct (Z.of_nat (length data) =? n); repeat split; discriminate.
Qed.

Lemma Legacy_readField_Ok (what what' : field) (r r' : R) (n : Z) (data : list byte) :
  readField what r n = (Ok data, r') ->
  Legacy.readField what' r n = (Legacy.Ok data, r').
Proof.
  intros E. pose proof (readField_agrees what what' r n) as A. rewrite E in A.
  destruct (Legacy.readField what' r n) as [[d|e] r2]; [|contradiction].
  destruct A as [<- <-]. reflexivity.
Qed.

(** The first half of [ReadRecord] is the same in both versions, up to the
    text of the read errors. *)
Lemma ReadRecord_front_agrees (r : R) :
  match ReadRecord_front r, Legacy.ReadRecord_front r with
  | (Ok x, r1), (Legacy.Ok y, r2) => x = y /\ r1 = r2
  | (Error e, r1), (Legacy.Error e', r2) =>
      r1 = r2 /\ (e = errEndOfStruct <-> e' = Legacy.errEndOfStruct)
  | _, _ => False
  end.
Proof.
  unfold ReadRecord_front, Legacy.ReadRecord_front.
  pose proof (readField_agrees FRecordHeader FRecordHeader r 1) as A1.
  destruct (readField FRecordHeader r 1) as [[hb|e1] r1],
           (Legacy.readField FRecordHeader r 1) as [[hb'|e1'] r1']; try contradiction.
  2:{ destruct A1 as [<- [N1 N2]]. split; [reflexivity|]. split; intros; contradiction. }
  destruct A1 as [<- <-].
  set (b0 := Z_of_byte (nth 0 hb Byte.x00)).
  set (flag := Z.shiftr b0 7).
  set (size0 := Z.land (Z.shiftr b0 4) 7).
  set (rtype := Z.land b0 15).
  clearbody b0 flag size0 rtype.
  destruct ((flag =? 1) && (size0 =? 0) && (rtype =? TypeStruct)).
  { split; [reflexivity|]. split; reflexivity. }
  assert (Hvalue : forall (size1 rs : Z) (r2 : R),
    match
      match (if size1 =? 0 then (Ok [], r2) else readField FRecordValue r2 size1) with
      | (Error e, r0) => (Error e, r0)
      | (Ok buf0, r0) => (Ok (rs, rtype, size1, buf0), r0)
      end,
      match (if size1 =? 0 then (Legacy.Ok [], r2)
             else Legacy.readField FRecordValue r2 size1) with
      | (Legacy.Error e, r0) => (Legacy.Error e, r0)
      | (Legacy.Ok buf0, r0) => (Legacy.Ok (rs, rtype, size1, buf0), r0)
      end
    with
    | (Ok x, r3), (Legacy.Ok y, r4) => x = y /\ r3 = r4
    | (Error e, r3), (Legacy.Error e', r4) =>
        r3 = r4 /\ (e = errEndOfStruct <-> e' = Legacy.errEndOfStruct)
    | _, _ => False
    end).
  { intros size1 rs r2. destruct (size1 =? 0); [split; reflexivity|].
    pose proof (readField_agrees FRecordValue FRecordValue r2 size1) as A3.
    destruct (readField FRecordValue r2 size1) as [[vb|e3] r3],
             (Legacy.readField FRecordValue r2 size1) as [[vb'|e3'] r3']; try contradiction.
    - destruct A3 as [<- <-]. split; reflexivity.
    - destruct A3 as [<- [N1 N2]]. split; [reflexivity|]. split; intros; contradiction. }
  destruct (flag =? 1).
  - pose proof (readField_agrees FRecordSize FRecordSize r1 size0) as A2.
    destruct (readField FRecordSize r1 size0) as [[sb|e2] r2],
             (Legacy.readField FRecordSize r1 size0) as [[sb'|e2'] r2']; try contradiction.
    + destruct A2 as [<- <-]. apply Hvalue.
    + destruct A2 as [<- [N1 N2]]. split; [reflexivity|]. split; intros; contradiction.
  - apply Hvalue.
Qed.

End Agreement.

(** ** The map of a struct *)

Lemma legacy_fill_app (a b : list StructItem) (avpMap : list (list byte * Legacy.Record)) :
  legacy_fill (a ++ b) avpMap = legacy_fill b (legacy_fill a avpMap).
Proof.
  revert avpMap. induction a as [|[key r] a IH]; intros avpMap; [reflexivity|].
  cbn [app legacy_fill]. apply IH.
Qed.

Lemma legacy_of_Items (rsize rtype : Z) (items : list StructItem) :
  legacy_of (mkRecord rsize rtype (Items items))
  = Legacy.mkRecord rsize rtype (Legacy.Map (legacy_fill items [])).
Proof. reflexivity. Qed.

Lemma no_double_Items (rsize rtype : Z) (items : list StructItem) :
  no_double (mkRecord rsize rtype (Items items))
  <-> Forall (fun item => no_double (ItemValue item)) items.
Proof.
  cbn [no_double].
  induction items as [|[key r] items IH].
  - split; [intros _; constructor|intros _; exact I].
  - split.
    + intros [Hr Hrest]. constructor; [exact Hr|apply IH, Hrest].
    + intros Hall. inversion Hall as [|x l Hr Hrest]; subst.
      split; [exact Hr|apply IH, Hrest].
Qed.

(** [m[key]] after [m[key] = value], and at another key. *)
Lemma string_eqb_refl (a : list byte) : Legacy.string_eqb a a = true.
Proof.
  unfold Legacy.string_eqb. destruct (list_eq_dec Byte.byte_eq_dec a a); congruence.
Qed.

Lemma string_eqb_eq (a b : list byte) : Legacy.string_eqb a b = true <-> a = b.
Proof.
  unfold Legacy.string_eqb. destruct (list_eq_dec Byte.byte_eq_dec a b) as [E|N].
  - split; auto.
  - split; [discriminate|contradiction].
Qed.

Lemma map_lookup_insert (key : list byte) (value : Legacy.Record)
    (m : list (list byte * Legacy.Record)) :
  Legacy.map_lookup key (Legacy.map_insert key value m) = Some value.
Proof.
  unfold Legacy.map_lookup, Legacy.map_insert. cbn [find fst].
  rewrite string_eqb_refl. reflexivity.
Qed.

Lemma map_lookup_insert_other (key key' : list byte) (value : Legacy.Record)
    (m : list (list byte * Legacy.Record)) :
  key' <> key ->
  Legacy.map_lookup key (Legacy.map_insert key' value m) = Legacy.map_lookup key m.
Proof.
  intros Hne. unfold Legacy.map_lookup, Legacy.map_insert. cbn [find fst].
  destruct (Legacy.string_eqb key' key) eqn:E; [apply string_eqb_eq in E; contradiction|].
  f_equal. induction m as [|[k v] m IH]; [reflexivity|].
  cbn [filter find fst].
  destruct (Legacy.string_eqb k key') eqn:E1; cbn [negb].
  - apply string_eqb_eq in E1. subst k. rewrite E. exact IH.
  - cbn [find fst]. destruct (Legacy.string_eqb k key); [reflexivity|exact IH].
Qed.

(** A key is in the map at most once. *)
Lemma map_insert_NoDup (key : list byte) (value : Legacy.Record)
    (m : list (list byte * Legacy.Record)) :
  NoDup (map fst m) -> NoDup (map fst (Legacy.map_insert key value m)).
Proof.
  intros Hm. unfold Legacy.map_insert. cbn [map fst]. constructor.
  - intros Hin. apply in_map_iff in Hin. destruct Hin as [[k v] [Hk Hin]].
    apply filter_In in Hin. destruct Hin as [_ Hf]. cbn [fst] in *. subst k.
    rewrite string_eqb_refl in Hf. discriminate.
  - induction m as [|[k v] m IH]; [constructor|].
    cbn [map fst] in Hm. inversion Hm as [|x l Hnin Hnd]; subst.
    cbn [filter fst]. destruct (negb (Legacy.string_eqb k key)); [|apply IH, Hnd].
    cbn [map fst]. constructor; [|apply IH, Hnd].
    intros Hin. apply Hnin. apply in_map_iff in Hin. destruct Hin as [[k' v'] [Hk Hin]].
    apply filter_In in Hin. destruct Hin as [Hin _]. cbn [fst] in Hk. subst k'.
    apply in_map_iff. exists (k, v'). split; [reflexivity|exact Hin].
Qed.

(** Filling a map with the items of a struct in their order leaves at every
    key the value of the last item with that key. *)
Lemma legacy_fill_lookup (key : list byte) (items : list StructItem) :
  forall avpMap,
    Legacy.map_lookup key (legacy_fill items avpMap)
    = match last_item key items with
      | Some item => Some (legacy_of (ItemValue item))
      | None => Legacy.map_lookup key avpMap
      end.
Proof.
  unfold last_item.
  induction items as [|[k r] items IH] using rev_ind; intros avpMap; [reflexivity|].
  rewrite legacy_fill_app, rev_app_distr. cbn [rev app legacy_fill find Key].
  destruct (Legacy.string_eqb k key) eqn:E.
  - apply string_eqb_eq in E. subst k. cbn [ItemValue]. apply map_lookup_insert.
  - rewrite map_lookup_insert_other.
    + apply IH.
    + intros ->. rewrite string_eqb_refl in E. discriminate.
Qed.

Lemma legacy_fill_NoDup (items : list StructItem) :
  forall avpMap, NoDup (map fst avpMap) -> NoDup (map fst (legacy_fill items avpMap)).
Proof.
  induction items as [|[k r] items IH]; intros avpMap Hm; [exact Hm|].
  cbn [legacy_fill]. apply IH, map_insert_NoDup, Hm.
Qed.

(** ** v1 decodes what v3 decodes, into a map *)

Section Refinement.
Context {R : Type} `{Reader R}.

Lemma ReadRecord_step_refines
    (loop1 : R -> Z -> list (list byte * Legacy.Record)
             -> option (Legacy.result (Z * list (list byte * Legacy.Record)) * R))
    (loop3 : R -> Z -> list StructItem -> option (result (Z * list StructItem) * R))
    (r : R) :
  (forall r1 rs, items_refine (loop1 r1 rs []) (loop3 r1 rs [])) ->
  record_refines (Legacy.ReadRecord_step loop1 r) (ReadRecord_step loop3 r).
Proof.
  intros Hloop. unfold Legacy.ReadRecord_step, ReadRecord_step.
  pose proof (ReadRecord_front_agrees r) as A.
  destruct (ReadRecord_front r) as [[[[[rsize rtype] size1] value]|e] r1],
           (Legacy.ReadRecord_front r) as [[[[[rsize' rtype'] size1'] value']|e'] r1'];
    try contradiction.
  2:{ destruct A as [<- A]. cbn [record_refines]. intros ->.
      rewrite (proj2 A eq_refl). reflexivity. }
  destruct A as [A <-]. injection A as <- <- <- <-.
  destruct ((rtype =? TypeAVP) || (rtype =? TypeString)).
  { cbn [record_refines]. eexists. split; [reflexivity|]. split; [reflexivity|exact I]. }
  destruct (Z.eqb_spec rtype TypeInt) as [Ei|Ei].
  { cbn [record_refines]. eexists. split; [reflexivity|]. split; [reflexivity|exact I]. }
  destruct (Z.eqb_spec rtype TypeDouble) as [Ed|Ed].
  { subst rtype. cbn [Z.eqb TypeDouble TypeStruct Pos.eqb record_refines]. discriminate. }
  destruct (Z.eqb_spec rtype TypeStruct) as [Es|Es].
  2:{ cbn [record_refines]. discriminate. }
  specialize (Hloop r1 rsize). unfold items_refine in Hloop.
  destruct (loop1 r1 rsize []) as [[[[rs avpMap]|e] r2]|].
  - destruct Hloop as [items [-> [-> Hnd]]]. cbn [record_refines].
    eexists. split; [reflexivity|]. split.
    + symmetry. apply legacy_of_Items.
    + apply no_double_Items, Hnd.
  - cbn [record_refines]. intros ->. rewrite (Hloop eq_refl). reflexivity.
  - rewrite Hloop. reflexivity.
Qed.

Lemma readStructItems_step_refines
    (rr1 : R -> option (Legacy.result Legacy.Record * R))
    (rr3 : R -> option (result Record * R))
    (next1 : R -> Z -> list (list byte * Legacy.Record)
             -> option (Legacy.result (Z * list (list byte * Legacy.Record)) * R))
    (next3 : R -> Z -> list StructItem -> option (result (Z * list StructItem) * R))
    (r : R) (rsize : Z) (items : list StructItem) :
  (forall r1, record_refines (rr1 r1) (rr3 r1)) ->
  (forall r1 rs its, Forall (fun item => no_double (ItemValue item)) its ->
     items_refine (next1 r1 rs (legacy_fill its [])) (next3 r1 rs its)) ->
  Forall (fun item => no_double (ItemValue item)) items ->
  items_refine (Legacy.readStructItems_step rr1 next1 r rsize (legacy_fill items []))
               (readStructItems_step rr3 next3 r rsize items).
Proof.
  intros Hrr Hnext Hitems. unfold Legacy.readStructItems_step, readStructItems_step.
  pose proof (Hrr r) as A1. unfold record_refines in A1.
  destruct (rr1 r) as [[[avpName|e] r1]|].
  3:{ rewrite A1. reflexivity. }
  2:{ assert (Hne : e <> Legacy.errEndOfStruct ->
                    items_refine (Some (Legacy.Error e, r1))
                      match rr3 r with
                      | Some (Ok avpName, r0) =>
                          if negb (Type_ avpName =? TypeAVP)
                          then Some (Error (ErrStructKey (Type_ avpName)), r0)
                          else
                            match rr3 r0 with
                            | Some (Ok avpValue, r2) =>
                                next3 r2 (int_add (int_add rsize (size avpName))
                                                  (size avpValue))
                                  (items ++ [mkStructItem (string_of_any (Value avpName))
                                                          avpValue])
                            | Some (Error e0, r2) => Some (Error e0, r2)
                            | None => None
                            end
                      | Some (Error errEndOfStruct, r0) => Some (Ok (int_add rsize 1, items), r0)
                      | Some (Error e0, r0) => Some (Error e0, r0)
                      | None => None
                      end).
      { intros N. cbn [items_refine]. intros E. contradiction. }
      destruct e; try (apply Hne; discriminate).
      rewrite (A1 eq_refl). cbn [items_refine].
      exists items. split; [reflexivity|]. split; [reflexivity|exact Hitems]. }
  destruct A1 as [key [-> [-> Hkey]]].
  assert (Et : Legacy.Type_ (legacy_of key) = Type_ key) by (destruct key; reflexivity).
  assert (Es : Legacy.size (legacy_of key) = size key) by (destruct key; reflexivity).
  rewrite Et, Es.
  destruct (negb (Type_ key =? TypeAVP)).
  { cbn [items_refine]. discriminate. }
  pose proof (Hrr r1) as A2. unfold record_refines in A2.
  destruct (rr1 r1) as [[[avpValue|e] r2]|].
  3:{ rewrite A2. reflexivity. }
  2:{ cbn [items_refine]. intros ->. rewrite (A2 eq_refl). reflexivity. }
  destruct A2 as [value [-> [-> Hvalue]]].
  assert (Es' : Legacy.size (legacy_of value) = size value) by (destruct value; reflexivity).
  rewrite Es'.
  assert (Ek : Legacy.string_of_any (Legacy.Value (legacy_of key))
               = string_of_any (Value key)).
  { destruct key as [s t [| | | |]]; reflexivity. }
  rewrite Ek.
  set (item := mkStructItem (string_of_any (Value key)) value).
  replace (Legacy.map_insert (string_of_any (Value key)) (legacy_of value)
             (legacy_fill items []))
    with (legacy_fill (items ++ [item]) [])
    by (rewrite legacy_fill_app; reflexivity).
  apply Hnext. apply Forall_app. split; [exact Hitems|].
  constructor; [exact Hvalue|constructor].
Qed.

Lemma fuel_refines (fuel : nat) :
  (forall r : R, record_refines (Legacy.ReadRecord_fuel fuel r) (ReadRecord_fuel fuel r)) /\
  (forall (r : R) rs its, Forall (fun item => no_double (ItemValue item)) its ->
     items_refine (Legacy.readStructItems_fuel fuel r rs (legacy_fill its []))
                  (readStructItems_fuel fuel r rs its)).
Proof.
  induction fuel as [|fuel [IHr IHs]]; split.
  - intros r. reflexivity.
  - intros r rs its _. reflexivity.
  - intros r. cbn [Legacy.ReadRecord_fuel ReadRecord_fuel].
    apply ReadRecord_step_refines. intros r1 rs. apply (IHs r1 rs []). constructor.
  - intros r rs its Hits. cbn [Legacy.readStructItems_fuel readStructItems_fuel].
    apply readStructItems_step_refines; assumption.
Qed.

End Refinement.

(** ** v1 [ReadRecord] on a [bytes.Reader] *)

Lemma Legacy_ReadRecord_total (r : bytes_Reader) : exists x, Legacy.ReadRecord r = Some x.
Proof.
  unfold Legacy.ReadRecord.
  pose proof (proj1 (@fuel_refines bytes_Reader _ (2 * length r + 1)) r) as A.
  unfold record_refines in A.
  destruct (Legacy.ReadRecord_fuel (2 * length r + 1) r) as [x|]; [eauto|].
  exfalso. exact (proj1 (fuel_total (2 * length r + 1)) r (le_n _) A).
Qed.

Lemma Legacy_ReadRecord_Ok (r r' : bytes_Reader) (record1 : Legacy.Record) :
  Legacy.ReadRecord r = Some (Legacy.Ok record1, r') ->
  exists record3,
    ReadRecord r = Some (Ok record3, r') /\ record1 = legacy_of record3 /\
    no_double record3 /\ well_typed record3.
Proof.
  unfold Legacy.ReadRecord, ReadRecord. intros E.
  pose proof (proj1 (@fuel_refines bytes_Reader _ (2 * length r + 1)) r) as A.
  unfold record_refines in A. rewrite E in A.
  destruct A as [record3 [E3 [-> Hnd]]].
  exists record3. repeat split; try assumption.
  exact (proj1 (@fuel_well_typed bytes_Reader _ _) _ _ _ E3).
Qed.

(** X26: v1 [ReadRecord] always returns on a [bytes.Reader], and whenever it
    returns a record, v3 [ReadRecord] returns the record that stands for it
    from the same input and leaves the same input behind: the sizes, types
    and scalar values are those of v3, a struct is the map of v3's items
    inserted in their order, and there is no double in it. *)
Theorem Legacy_ReadRecord_refines (r : bytes_Reader) :
  exists x,
    Legacy.ReadRecord r = Some x /\
    forall record1 r',
      x = (Legacy.Ok record1, r') ->
      exists record3,
        ReadRecord r = Some (Ok record3, r') /\
        record1 = legacy_of record3 /\ no_double record3.
Proof.
  destruct (Legacy_ReadRecord_total r) as [x Hx]. exists x. split; [exact Hx|].
  intros record1 r' ->.
  destruct (Legacy_ReadRecord_Ok _ _ _ Hx) as [record3 [E3 [E1 [Hnd _]]]].
  exists record3. auto.
Qed.

(** The converse fails: a struct that holds a double and then ends early is
    a record for v3 and an error for v1. *)
Example Legacy_ReadRecord_stops_at_a_double :
  ReadRecord (hex "030325610012052562008383")
  = Some (Ok (mkRecord 2 TypeStruct (Items [])), hex "83") /\
  Legacy.ReadRecord (hex "030325610012052562008383")
  = Some (Legacy.Error Legacy.ErrTypeNotImpl, hex "2562008383").
Proof. split; vm_compute; reflexivity. Qed.

(** X27: A struct decoded by v1 is a map with one entry per key: [GetMap] returns
    it, and at every key it holds the value of the last pair of the wire
    with that key, the pairs being the items v3 returns for the same
    input. *)
Theorem Legacy_struct_last_item_wins (r r' : bytes_Reader) (record1 : Legacy.Record) :
  Legacy.ReadRecord r = Some (Legacy.Ok record1, r') ->
  Legacy.Type_ record1 = TypeStruct ->
  exists (avpMap : list (list byte * Legacy.Record)) (items : list StructItem),
    Legacy.GetMap record1 = Returns avpMap /\
    ReadRecord r = Some (Ok (mkRecord (Legacy.size record1) TypeStruct (Items items)), r') /\
    NoDup (map fst avpMap) /\
    forall key,
      Legacy.map_lookup key avpMap
      = match last_item key items with
        | Some item => Some (legacy_of (ItemValue item))
        | None => None
        end.
Proof.
  intros E Ht.
  destruct (Legacy_ReadRecord_Ok _ _ _ E) as [record3 [E3 [-> [Hnd Hwt]]]].
  destruct record3 as [rsize rtype v]. cbn [legacy_of Legacy.Type_] in Ht. subst rtype.
  destruct v as [|i|s|f|items]; cbn [well_typed] in Hwt;
    try contradiction; try (destruct Hwt; discriminate); try discriminate.
  exists (legacy_fill items []), items.
  split; [reflexivity|]. split; [exact E3|].
  split; [apply legacy_fill_NoDup; constructor|].
  intros key. apply (legacy_fill_lookup key items []).
Qed.

Lemma Legacy_struct_last_item_wins_witness :
  exists (avpMap : list (list byte * Legacy.Record)) (items : list StructItem),
    Legacy.GetMap (Legacy.mkRecord 12 TypeStruct
                     (Legacy.Map [(str "a", Legacy.mkRecord 2 TypeInt (Legacy.Int 2))]))
    = Returns avpMap /\
    ReadRecord (hex "032561001001256100100283")
    = Some (Ok (mkRecord 12 TypeStruct (Items items)), []) /\
    NoDup (map fst avpMap) /\
    forall key,
      Legacy.map_lookup key avpMap
      = match last_item key items with
        | Some item => Some (legacy_of (ItemValue item))
        | None => None
        end.
Proof.
  apply (Legacy_struct_last_item_wins (hex "032561001001256100100283") []
           (Legacy.mkRecord 12 TypeStruct
              (Legacy.Map [(str "a", Legacy.mkRecord 2 TypeInt (Legacy.Int 2))]))).
  - vm_compute. reflexivity.
  - reflexivity.
Defined.

(** ** Scalars: what v1 makes of the first half of [ReadRecord] *)

Lemma Legacy_ReadRecord_int (r r' : bytes_Reader) (rsize size1 : Z) (buf : list byte) :
  @ReadRecord_front bytes_Reader _ r = (Ok (rsize, TypeInt, size1, buf), r') ->
  Legacy.ReadRecord r
  = Some (Legacy.Ok (Legacy.mkRecord rsize TypeInt
                       (Legacy.Int (if size1 =? 0 then 0 else accumulate buf))), r').
Proof.
  intros E. unfold Legacy.ReadRecord. rewrite Nat.add_1_r.
  cbn [Legacy.ReadRecord_fuel]. unfold Legacy.ReadRecord_step.
  pose proof (@ReadRecord_front_agrees bytes_Reader _ r) as A. rewrite E in A.
  destruct (Legacy.ReadRecord_front r) as [[y|e] r2]; [|contradiction].
  destruct A as [<- <-]. reflexivity.
Qed.

Lemma Legacy_ReadRecord_string (r r' : bytes_Reader) (rsize size1 : Z) (buf : list byte) :
  @ReadRecord_front bytes_Reader _ r = (Ok (rsize, TypeString, size1, buf), r') ->
  Legacy.ReadRecord r
  = Some (Legacy.Ok (Legacy.mkRecord rsize TypeString
                       (Legacy.String (if size1 =? 0 then [] else removelast buf))), r').
Proof.
  intros E. unfold Legacy.ReadRecord. rewrite Nat.add_1_r.
  cbn [Legacy.ReadRecord_fuel]. unfold Legacy.ReadRecord_step.
  pose proof (@ReadRecord_front_agrees bytes_Reader _ r) as A. rewrite E in A.
  destruct (Legacy.ReadRecord_front r) as [[y|e] r2]; [|contradiction].
  destruct A as [<- <-]. reflexivity.
Qed.

(** ** Record headers with an explicit size *)

(** A record whose size is written in [k] bytes, whatever [k] of 1 to 7:
    [ReadRecord] does not ask for the shortest size. *)
Lemma ReadRecord_front_explicit (type : Z) (k : nat) (value r' : list byte) :
  0 <= type <= 15 ->
  (1 <= k <= 7)%nat ->
  value <> [] ->
  Z.of_nat (length value) < 256 ^ Z.of_nat k ->
  @ReadRecord_front bytes_Reader _
    (byte_of_Z (Z.lor (Z.lor (Z.shiftl 1 7) (wrap_uint8 (Z.shiftl (Z.of_nat k) 4))) type)
       :: be_bytes k (Z.of_nat (length value)) ++ value ++ r')
  = (Ok (1 + Z.of_nat k + Z.of_nat (length value), type, Z.of_nat (length value), value), r').
Proof.
  intros Ht Hk Hne Hlen.
  destruct (extended_header_fields type (Z.of_nat k) Ht ltac:(lia)) as [Hflag [Hsize Htype]].
  cbn zeta in *. unfold ReadRecord_front.
  rewrite readField_bytes_cons. cbn [nth].
  rewrite Hflag, Hsize, Htype. cbn [Z.eqb Pos.eqb].
  destruct (Z.eqb_spec (Z.of_nat k) 0) as [E0|_]; [lia|].
  cbn [andb].
  pose proof (be_bytes_length k (Z.of_nat (length value))) as Hsl.
  set (sizeBytes := be_bytes k (Z.of_nat (length value))) in *.
  assert (Hrf : @readField bytes_Reader _ FRecordSize (sizeBytes ++ value ++ r') (Z.of_nat k)
                = (Ok sizeBytes, value ++ r')).
  { clearbody sizeBytes. subst k. apply readField_bytes_app.
    destruct sizeBytes; [simpl in Hk; lia|discriminate]. }
  rewrite Hrf.
  assert (Hacc : accumulate sizeBytes = Z.of_nat (length value)).
  { unfold sizeBytes. rewrite accumulate_be_bytes by lia. apply Z.mod_small. lia. }
  rewrite Hacc.
  assert (Hpos : 0 < Z.of_nat (length value)).
  { destruct value; [contradiction|simpl length; lia]. }
  destruct (Z.eqb_spec (Z.of_nat (length value)) 0) as [E0|_]; [lia|].
  rewrite readField_bytes_app.
  2:{ destruct value; [contradiction|discriminate]. }
  assert (Hp : 256 ^ Z.of_nat k <= 256 ^ 7) by (apply Z.pow_le_mono_r; lia).
  change (256 ^ 7) with 72057594037927936 in Hp.
  rewrite (int_add_small 1) by lia. rewrite int_add_small by lia.
  reflexivity.
Qed.

(** ** What v1 [Encode] writes *)

Lemma Legacy_getMinBinarySizeOfInt_cases (n : Z) :
  exists (k : nat) (data : Legacy.fixed),
    Legacy.getMinBinarySizeOfInt n = (Z.of_nat k, data) /\
    Legacy.binary_bytes data = be_bytes k n /\
    Z.of_nat k = V1.getMinBinarySizeOfInt n /\
    ((k = 1)%nat /\ -128 <= n <= 127 \/
     (k = 2)%nat /\ (-32768 <= n < -128 \/ 127 < n <= 32767) \/
     (k = 4)%nat /\ (-2147483648 <= n < -32768 \/ 32767 < n <= 2147483647) \/
     (k = 8)%nat /\ (n < -2147483648 \/ 2147483647 < n)).
Proof.
  unfold Legacy.getMinBinarySizeOfInt, V1.getMinBinarySizeOfInt.
  destruct ((-128 <=? n) && (n <=? 127)) eqn:E1.
  { exists 1%nat, (Legacy.Int8 n). repeat (split; [reflexivity|]). lia. }
  destruct ((-32768 <=? n) && (n <=? 32767)) eqn:E2.
  { exists 2%nat, (Legacy.Int16 n). repeat (split; [reflexivity|]). lia. }
  destruct ((-2147483648 <=? n) && (n <=? 2147483647)) eqn:E3.
  { exists 4%nat, (Legacy.Int32 n). repeat (split; [reflexivity|]). lia. }
  exists 8%nat, (Legacy.Int64 n). repeat (split; [reflexivity|]). lia.
Qed.

(** A value of fewer than eight bytes gets the header of v3. *)
Lemma Legacy_Encode_buffer_inline (type : Z) (value : Legacy.fixed) :
  Z.of_nat (length (Legacy.binary_bytes value)) < 8 ->
  Legacy.Encode_buffer type (Z.of_nat (length (Legacy.binary_bytes value))) value
  = Encode_frame type (Legacy.binary_bytes value).
Proof.
  intros Hs. unfold Legacy.Encode_buffer, Encode_frame. cbv zeta.
  destruct (Z.ltb_spec (Z.of_nat (length (Legacy.binary_bytes value))) 8); [|lia].
  reflexivity.
Qed.

(** A longer value gets its size in one, two or four bytes, as a signed
    number. *)
Lemma Legacy_Encode_buffer_explicit (type : Z) (value : Legacy.fixed) :
  8 <= Z.of_nat (length (Legacy.binary_bytes value)) < 2 ^ 31 ->
  exists k : nat,
    (1 <= k <= 4)%nat /\
    Z.of_nat (length (Legacy.binary_bytes value)) < 256 ^ Z.of_nat k /\
    Legacy.Encode_buffer type (Z.of_nat (length (Legacy.binary_bytes value))) value
    = byte_of_Z (Z.lor (Z.lor (Z.shiftl 1 7) (wrap_uint8 (Z.shiftl (Z.of_nat k) 4))) type)
        :: be_bytes k (Z.of_nat (length (Legacy.binary_bytes value)))
        ++ Legacy.binary_bytes value.
Proof.
  intros Hs. unfold Legacy.Encode_buffer.
  set (sizeOfValue := Z.of_nat (length (Legacy.binary_bytes value))) in *.
  destruct (Z.ltb_spec sizeOfValue 8); [lia|].
  destruct (Legacy_getMinBinarySizeOfInt_cases sizeOfValue)
    as [k [data [-> [Hd [_ Hk]]]]].
  exists k. rewrite Hd.
  assert (Hk' : (k = 1)%nat /\ sizeOfValue < 256 ^ 1 \/
                (k = 2)%nat /\ sizeOfValue < 256 ^ 2 \/
                (k = 4)%nat /\ sizeOfValue < 256 ^ 4) by lia.
  destruct Hk' as [[-> Hb]|[[-> Hb]|[-> Hb]]];
    (split; [lia|]); (split; [exact Hb|]); reflexivity.
Qed.

(** The bytes of an integer: the frame of v3 around the two's complement of
    the integer in one, two, four or eight bytes. *)
Lemma legacy_encoding_int (n : Z) :
  legacy_encoding (Legacy.VInt n)
  = if n =? 0 then [Byte.x00]
    else Encode_frame TypeInt (be_bytes (Z.to_nat (V1.getMinBinarySizeOfInt n)) n).
Proof.
  unfold legacy_encoding. cbn [Legacy.CreateRecord].
  unfold Legacy.Encode. cbn [Legacy.Type_ Legacy.Value Z.eqb TypeInt].
  destruct (n =? 0); [reflexivity|].
  destruct (Legacy_getMinBinarySizeOfInt_cases n) as [k [data [-> [Hd [Hk Hc]]]]].
  rewrite <- Hk, Nat2Z.id.
  unfold Legacy.write_all, Write, bytes_Buffer_Writer. cbn [snd app].
  pose proof (be_bytes_length k n) as Hl.
  assert (Hk' : (k = 1 \/ k = 2 \/ k = 4 \/ k = 8)%nat) by lia.
  destruct Hk' as [ -> | [ -> | [ -> | -> ] ] ].
  1-3: rewrite <- Hd; rewrite <- Hd in Hl; rewrite <- Hl at 1;
       apply Legacy_Encode_buffer_inline; rewrite Hl; lia.
  unfold Legacy.Encode_buffer, Encode_frame. cbv zeta.
  rewrite Hd, Hl. reflexivity.
Qed.

Lemma legacy_encoding_string (s : list byte) :
  legacy_encoding (Legacy.VString s)
  = Legacy.Encode_buffer TypeString (Z.of_nat (length (s ++ [Byte.x00])))
      (Legacy.Bytes (s ++ [Byte.x00])).
Proof.
  unfold legacy_encoding. cbn [Legacy.CreateRecord].
  unfold Legacy.Encode. cbn [Legacy.Type_ Legacy.Value Z.eqb TypeInt TypeString Pos.eqb].
  unfold Legacy.binary_Size. cbn [Legacy.binary_bytes].
  destruct (Z.eqb_spec (Z.of_nat (length (s ++ [Byte.x00]))) (-1)); [lia|].
  reflexivity.
Qed.

(** [Encode] into a buffer appends these bytes. *)
Lemma Legacy_Encode_int (n : Z) (payload : bytes_Buffer) :
  Legacy.Encode (Legacy.mkRecord 0 TypeInt (Legacy.Int n)) payload
  = (None, payload ++ legacy_encoding (Legacy.VInt n)).
Proof.
  unfold legacy_encoding. cbn [Legacy.CreateRecord].
  unfold Legacy.Encode. cbn [Legacy.Type_ Legacy.Value Z.eqb TypeInt].
  destruct (n =? 0); [reflexivity|].
  destruct (Legacy.getMinBinarySizeOfInt n) as [size value]. reflexivity.
Qed.

Lemma Legacy_Encode_string (s : list byte) (payload : bytes_Buffer) :
  Legacy.Encode (Legacy.mkRecord 0 TypeString (Legacy.String s)) payload
  = (None, payload ++ legacy_encoding (Legacy.VString s)).
Proof.
  unfold legacy_encoding. cbn [Legacy.CreateRecord].
  unfold Legacy.Encode. cbn [Legacy.Type_ Legacy.Value Z.eqb TypeInt TypeString Pos.eqb].
  destruct (Legacy.binary_Size (Legacy.Bytes (s ++ [Byte.x00])) =? -1) eqn:E.
  - apply Z.eqb_eq in E. unfold Legacy.binary_Size in E. lia.
  - reflexivity.
Qed.

Lemma legacy_encoding_nonempty (v : Legacy.value) :
  v <> Legacy.VOther -> (1 <= length (legacy_encoding v))%nat.
Proof.
  intros Hv. destruct v as [s|n|]; [| |contradiction].
  - rewrite legacy_encoding_string. unfold Legacy.Encode_buffer.
    destruct (Z.of_nat (length (s ++ [Byte.x00])) <? 8).
    + cbn [Legacy.binary_bytes be_bytes app length]. lia.
    + destruct (Legacy.getMinBinarySizeOfInt _) as [k d].
      cbn [Legacy.binary_bytes be_bytes app length]. lia.
  - rewrite legacy_encoding_int. destruct (n =? 0); [simpl; lia|].
    pose proof (Encode_frame_length TypeInt
                  (be_bytes (Z.to_nat (V1.getMinBinarySizeOfInt n)) n)). lia.
Qed.

(** ** Decoding what v1 encoded *)

(** An integer comes back as the unsigned value of the bytes written, wrapped
    to the 64 bits of [int]. *)
Lemma Legacy_ReadRecord_encoded_int (n : Z) (rest : list byte) :
  Legacy.ReadRecord (legacy_encoding (Legacy.VInt n) ++ rest)
  = Some (Legacy.Ok
            (Legacy.mkRecord (Z.of_nat (length (legacy_encoding (Legacy.VInt n)))) TypeInt
               (Legacy.Int (wrap_int (n mod 256 ^ V1.getMinBinarySizeOfInt n)))), rest).
Proof.
  rewrite legacy_encoding_int.
  destruct (Legacy_getMinBinarySizeOfInt_cases n) as [k [data [_ [_ [Hk Hc]]]]].
  rewrite <- Hk, Nat2Z.id.
  destruct (Z.eqb_spec n 0) as [->|Hn].
  - change [Byte.x00] with (Encode_frame TypeInt []).
    rewrite (Legacy_ReadRecord_int _ rest _ 0 []
               (ReadRecord_front_frame TypeInt [] rest ltac:(unfold TypeInt; lia)
                  ltac:(simpl; lia))).
    rewrite Z.mod_0_l by lia. reflexivity.
  - pose proof (be_bytes_length k n) as Hl.
    assert (Hk8 : (1 <= k <= 8)%nat) by lia.
    rewrite (Legacy_ReadRecord_int _ rest _ (Z.of_nat (length (be_bytes k n)))
               (be_bytes k n)
               (ReadRecord_front_frame TypeInt (be_bytes k n) rest
                  ltac:(unfold TypeInt; lia) ltac:(rewrite Hl; lia))).
    rewrite Hl. destruct (Z.eqb_spec (Z.of_nat k) 0); [lia|].
    rewrite accumulate_wrap, be_value_be_bytes. reflexivity.
Qed.

(** A string comes back as it was, whatever the number of bytes that hold
    its length. *)
Lemma Legacy_ReadRecord_encoded_string (s rest : list byte) :
  Z.of_nat (length s) + 1 < 2 ^ 31 ->
  Legacy.ReadRecord (legacy_encoding (Legacy.VString s) ++ rest)
  = Some (Legacy.Ok
            (Legacy.mkRecord (Z.of_nat (length (legacy_encoding (Legacy.VString s))))
               TypeString (Legacy.String s)), rest).
Proof.
  intros Hs. rewrite legacy_encoding_string.
  set (value := s ++ [Byte.x00]).
  assert (Hl : Z.of_nat (length value) = Z.of_nat (length s) + 1).
  { unfold value. rewrite length_app. simpl length. lia. }
  assert (Hne : value <> []) by (unfold value; destruct s; discriminate).
  change value with (Legacy.binary_bytes (Legacy.Bytes value)) at 1 3.
  destruct (Z.ltb_spec (Z.of_nat (length value)) 8) as [Hsmall|Hbig].
  - rewrite Legacy_Encode_buffer_inline by exact Hsmall.
    cbn [Legacy.binary_bytes].
    rewrite (Legacy_ReadRecord_string _ rest _ (Z.of_nat (length value)) value
               (ReadRecord_front_frame TypeString value rest
                  ltac:(unfold TypeString; lia) ltac:(lia))).
    destruct (Z.eqb_spec (Z.of_nat (length value)) 0); [lia|].
    replace (removelast value) with s
      by (unfold value; rewrite removelast_last; reflexivity).
    reflexivity.
  - destruct (Legacy_Encode_buffer_explicit TypeString (Legacy.Bytes value))
      as [k [Hk [Hlt ->]]]; [cbn [Legacy.binary_bytes]; lia|].
    cbn [Legacy.binary_bytes] in *.
    cbn [app]. rewrite <- app_assoc.
    rewrite (Legacy_ReadRecord_string _ rest _ (Z.of_nat (length value)) value
               (ReadRecord_front_explicit TypeString k value rest
                  ltac:(unfold TypeString; lia) ltac:(lia) Hne Hlt)).
    destruct (Z.eqb_spec (Z.of_nat (length value)) 0); [lia|].
    replace (removelast value) with s
      by (unfold value; rewrite removelast_last; reflexivity).
    do 4 f_equal. simpl length. rewrite length_app, be_bytes_length. lia.
Qed.

(** The unsigned value of the bytes of [n], wrapped to [int]. *)
Lemma legacy_int_value (n : Z) :
  - 2 ^ 63 <= n < 2 ^ 63 ->
  wrap_int (n mod 256 ^ V1.getMinBinarySizeOfInt n)
  = if (0 <=? n) || (n <? - 2 ^ 31) then n else n + 256 ^ V1.getMinBinarySizeOfInt n.
Proof.
  intros Hn.
  destruct (Legacy_getMinBinarySizeOfInt_cases n) as [k [data [_ [_ [Hk Hc]]]]].
  rewrite <- Hk.
  assert (Hk' : (k = 1)%nat /\ -128 <= n <= 127 \/
                (k = 2)%nat /\ -32768 <= n <= 32767 \/
                (k = 4)%nat /\ -2147483648 <= n <= 2147483647 \/
                (k = 8)%nat /\ (n < -2147483648 \/ 2147483647 < n)) by lia.
  clear Hc Hk.
  destruct (Z.leb_spec 0 n) as [Hpos|Hneg]; cbn [orb].
  - destruct Hk' as [[-> Hb]|[[-> Hb]|[[-> Hb]|[-> Hb]]]];
      rewrite Z.mod_small by (cbn; lia); apply wrap_int_small; lia.
  - destruct (Z.ltb_spec n (- 2 ^ 31)) as [Hlow|Hhigh].
    + destruct Hk' as [[-> Hb]|[[-> Hb]|[[-> Hb]|[-> Hb]]]]; try lia.
      rewrite <- (wrap_int_small n) at 2 by lia.
      apply wrap_int_eq. change (256 ^ Z.of_nat 8) with (2 ^ 64).
      apply Zmod_mod.
    + destruct Hk' as [[-> Hb]|[[-> Hb]|[[-> Hb]|[-> Hb]]]]; try lia.
      all: rewrite <- (Z_mod_plus_full n 1), Z.mul_1_l, Z.mod_small by (cbn; lia);
           apply wrap_int_small; cbn; lia.
Qed.

(** X28: An [int] written by v1 [Encode] and read by v1 [ReadRecord],
    whatever follows it on the stream: the record is an integer whose [size]
    is the number of bytes written, and [GetInt] gives the integer back if
    it is not negative or is below -2^31; a negative integer down to -2^31
    comes back increased by 256^k, [k] being the one, two or four bytes
    [getMinBinarySizeOfInt] chose for it. *)
Theorem Legacy_int_roundtrip (n : Z) (payload : bytes_Buffer) (rest : list byte) :
  - 2 ^ 63 <= n < 2 ^ 63 ->
  exists (record decoded : Legacy.Record) (bytes : list byte),
    Legacy.CreateRecord (Legacy.VInt n) = Legacy.Ok record /\
    Legacy.Encode record payload = (None, payload ++ bytes) /\
    Legacy.ReadRecord (bytes ++ rest) = Some (Legacy.Ok decoded, rest) /\
    Legacy.size decoded = Z.of_nat (length bytes) /\
    Legacy.GetInt decoded
    = Returns (if (0 <=? n) || (n <? - 2 ^ 31) then n
               else n + 256 ^ V1.getMinBinarySizeOfInt n).
Proof.
  intros Hn.
  exists (Legacy.mkRecord 0 TypeInt (Legacy.Int n)).
  eexists. exists (legacy_encoding (Legacy.VInt n)).
  split; [reflexivity|]. split; [apply Legacy_Encode_int|].
  split; [apply Legacy_ReadRecord_encoded_int|].
  split; [reflexivity|].
  unfold Legacy.GetInt. cbn [Legacy.Type_ Legacy.Value negb Z.eqb TypeInt]. f_equal.
  apply legacy_int_value, Hn.
Qed.

Lemma Legacy_int_roundtrip_witness :
  exists (record decoded : Legacy.Record) (bytes : list byte),
    Legacy.CreateRecord (Legacy.VInt (-1)) = Legacy.Ok record /\
    Legacy.Encode record (hex "00" : bytes_Buffer) = (None, hex "00" ++ bytes) /\
    Legacy.ReadRecord (bytes ++ hex "ff") = Some (Legacy.Ok decoded, hex "ff") /\
    Legacy.size decoded = Z.of_nat (length bytes) /\
    Legacy.GetInt decoded
    = Returns (if (0 <=? -1) || (-1 <? - 2 ^ 31) then -1
               else -1 + 256 ^ V1.getMinBinarySizeOfInt (-1)).
Proof.
  apply (Legacy_int_roundtrip (-1) (hex "00") (hex "ff")). lia.
Defined.

(** The value that comes back for -1 is 255. *)
Example Legacy_minus_one :
  Legacy.ReadRecord (legacy_encoding (Legacy.VInt (-1)))
  = Some (Legacy.Ok (Legacy.mkRecord 2 TypeInt (Legacy.Int 255)), []).
Proof. vm_compute. reflexivity. Qed.

(** A representable value comes back: the record has its type, the accessor
    returns it, and [size] counts the bytes written. *)
Lemma Legacy_ReadRecord_encoding (v : Legacy.value) (rest : list byte) :
  legacy_representable v ->
  exists record,
    Legacy.ReadRecord (legacy_encoding v ++ rest) = Some (Legacy.Ok record, rest) /\
    legacy_decodes_to v record /\
    Legacy.size record = Z.of_nat (length (legacy_encoding v)).
Proof.
  intros Hv. destruct v as [s|n|]; [| |contradiction]; cbn [legacy_representable] in Hv.
  - eexists. split; [apply Legacy_ReadRecord_encoded_string; exact Hv|].
    split; [|reflexivity]. split; reflexivity.
  - eexists. split; [apply Legacy_ReadRecord_encoded_int|].
    split; [|reflexivity]. cbn [legacy_decodes_to]. split; [reflexivity|].
    unfold Legacy.GetInt. cbn [Legacy.Type_ Legacy.Value negb Z.eqb TypeInt]. f_equal.
    rewrite legacy_int_value by lia.
    destruct (Z.leb_spec 0 n); cbn [orb]; [reflexivity|].
    destruct (Z.ltb_spec n (- 2 ^ 31)); [reflexivity|lia].
Qed.

(** ** v1 packets *)

(** The payload [WritePacket] builds: the encodings of the values, in
    order. *)
Lemma Legacy_WritePacket_loop_encoding (values : list Legacy.value) :
  Forall (fun v => v <> Legacy.VOther) values ->
  forall payload : bytes_Buffer,
    Legacy.WritePacket_loop values payload
    = Legacy.Ok (payload ++ concat (map legacy_encoding values)).
Proof.
  induction 1 as [|v values Hv Hall IH]; intros payload;
    cbn [Legacy.WritePacket_loop map concat].
  - rewrite app_nil_r. reflexivity.
  - destruct v as [s|n|]; [| |contradiction]; cbn [Legacy.CreateRecord].
    + rewrite Legacy_Encode_string, IH, <- app_assoc. reflexivity.
    + rewrite Legacy_Encode_int, IH, <- app_assoc. reflexivity.
Qed.


Lemma concat_legacy_encoding_length (values : list Legacy.value) :
  Forall (fun v => v <> Legacy.VOther) values ->
  (length values <= length (concat (map legacy_encoding values)))%nat.
Proof.
  induction 1 as [|v values Hv Hall IH]; cbn [map concat length]; [lia|].
  rewrite length_app. pose proof (legacy_encoding_nonempty v Hv). lia.
Qed.

(** The header of a packet whose payload has [plen] bytes: the length in
    one, two or four bytes, and the cookie in four. *)
Lemma Legacy_WritePacket_header_cases (plen cookie : Z) :
  0 <= plen < 2 ^ 31 ->
  exists (k : nat) (data : Legacy.fixed),
    Legacy.getMinBinarySizeOfInt plen = (Z.of_nat k, data) /\
    (k = 1 \/ k = 2 \/ k = 4)%nat /\
    plen < 256 ^ Z.of_nat k /\
    Legacy.WritePacket_header (Z.of_nat k) data
      (Legacy.binary_Size (Legacy.Uint32 cookie)) cookie
    = Byte.xa1 :: byte_of_Z (Z.of_nat k * 4 - 1) :: be_bytes k plen ++ be_bytes 4 cookie.
Proof.
  intros Hp.
  destruct (Legacy_getMinBinarySizeOfInt_cases plen) as [k [data [E [Hd [_ Hk]]]]].
  exists k, data. split; [exact E|].
  assert (Hk' : (k = 1)%nat /\ plen < 256 ^ 1 \/
                (k = 2)%nat /\ plen < 256 ^ 2 \/
                (k = 4)%nat /\ plen < 256 ^ 4) by lia.
  unfold Legacy.WritePacket_header, Legacy.binary_Size. rewrite Hd.
  cbn [Legacy.binary_bytes]. rewrite be_bytes_length.
  destruct Hk' as [[-> Hb]|[[-> Hb]|[-> Hb]]];
    (split; [lia|]); (split; [exact Hb|]); reflexivity.
Qed.

Section FieldsAgree.
Context {R : Type} `{Reader R}.

Lemma Legacy_readField_Ok_inv (what what' : field) (r r' : R) (n : Z) (data : list byte) :
  Legacy.readField what' r n = (Legacy.Ok data, r') ->
  readField what r n = (Ok data, r').
Proof.
  intros E. pose proof (readField_agrees what what' r n) as A. rewrite E in A.
  destruct (readField what r n) as [[d|e] r2]; [|contradiction].
  destruct A as [<- <-]. reflexivity.
Qed.

End FieldsAgree.

(** [ReadHeader] reads that header back. *)
Lemma Legacy_ReadHeader_written (k : nat) (plen cookie : Z) (rest : list byte) :
  (k = 1 \/ k = 2 \/ k = 4)%nat ->
  0 <= plen < 256 ^ Z.of_nat k ->
  @Legacy.ReadHeader bytes_Reader _
    (Byte.xa1 :: byte_of_Z (Z.of_nat k * 4 - 1) :: be_bytes k plen ++ be_bytes 4 cookie ++ rest)
  = (Legacy.Ok (Legacy.mkHeader plen (be_bytes 4 cookie)), rest).
Proof.
  intros Hk Hp.
  set (b1 := byte_of_Z (Z.of_nat k * 4 - 1)).
  set (tail := be_bytes k plen ++ be_bytes 4 cookie ++ rest).
  assert (E1 : @Legacy.readField bytes_Reader _ FHeader (Byte.xa1 :: b1 :: tail) 2
               = (Legacy.Ok [Byte.xa1; b1], tail)).
  { apply (Legacy_readField_Ok FHeader).
    apply (readField_bytes_app FHeader [Byte.xa1; b1] tail). discriminate. }
  unfold Legacy.ReadHeader. rewrite E1. cbn [nth].
  change (Z.shiftr (Z_of_byte Byte.xa1) 4 =? BinRPCMagic) with true.
  change (Z.land (Z_of_byte Byte.xa1) 15 =? BinRPCVersion) with true.
  cbn [negb].
  assert (Hsl : wrap_uint8 (Z.shiftr (Z.land (Z_of_byte b1) 12) 2 + 1) = Z.of_nat k).
  { unfold b1. destruct Hk as [ -> | [ -> | -> ] ]; reflexivity. }
  assert (Hsc : wrap_uint8 (Z.land (Z_of_byte b1) 3 + 1) = 4).
  { unfold b1. destruct Hk as [ -> | [ -> | -> ] ]; reflexivity. }
  rewrite Hsl, Hsc. clearbody b1.
  assert (E2 : @Legacy.readField bytes_Reader _ FTotalLength tail (Z.of_nat k)
               = (Legacy.Ok (be_bytes k plen), be_bytes 4 cookie ++ rest)).
  { apply (Legacy_readField_Ok FTotalLength). unfold tail.
    rewrite <- (be_bytes_length k plen) at 2.
    apply readField_bytes_app.
    pose proof (be_bytes_length k plen).
    destruct (be_bytes k plen); [simpl length in *; lia|discriminate]. }
  rewrite E2.
  assert (E3 : @Legacy.readField bytes_Reader _ FTotalLength (be_bytes 4 cookie ++ rest) 4
               = (Legacy.Ok (be_bytes 4 cookie), rest)).
  { apply (Legacy_readField_Ok FTotalLength).
    change 4 with (Z.of_nat 4). rewrite <- (be_bytes_length 4 cookie) at 2.
    apply readField_bytes_app. discriminate. }
  rewrite E3.
  rewrite accumulate_be_bytes by lia. rewrite Z.mod_small by lia. reflexivity.
Qed.

(** A header that v1 [ReadHeader] decodes from a [bytes.Reader] it decodes
    through the buffer of [ReadPacket] as well. *)
Lemma Legacy_ReadHeader_bufio_of_bytes (r r' : bytes_Reader) (header : Legacy.Header) :
  Legacy.ReadHeader r = (Legacy.Ok header, r') ->
  exists b : bufio_Reader bytes_Reader,
    Legacy.ReadHeader (bufio_NewReader r) = (Legacy.Ok header, b) /\
    err b = None /\ unread b = r'.
Proof.
  unfold Legacy.ReadHeader.
  destruct (Legacy.readField FHeader r 2) as [[data|e] r1] eqn:E1; [|discriminate].
  apply (Legacy_readField_Ok_inv FHeader) in E1.
  rewrite (Legacy_readField_Ok FHeader FHeader _ _ _ _
             (readField_bufio_first_fwd FHeader r r1 2 data
                ltac:(unfold defaultBufSize; lia) E1)).
  apply readField_bytes_Ok in E1 as E1'; [|lia]. destruct E1' as [Hr [Hl1 _]].
  destruct (negb (Z.shiftr (Z_of_byte (nth 0 data Byte.x00)) 4 =? BinRPCMagic));
    [discriminate|].
  destruct (negb (Z.land (Z_of_byte (nth 0 data Byte.x00)) 15 =? BinRPCVersion));
    [discriminate|].
  destruct (header_sizes (nth 1 data Byte.x00)) as [Hsl Hsc].
  set (sl := wrap_uint8 (Z.shiftr (Z.land (Z_of_byte (nth 1 data Byte.x00)) 12) 2 + 1)) in *.
  set (sc := wrap_uint8 (Z.land (Z_of_byte (nth 1 data Byte.x00)) 3 + 1)) in *.
  clearbody sl sc.
  assert (Hr1 : r1 = skipn (Z.to_nat 2) r).
  { rewrite Hr, skipn_app, skipn_all2 by lia.
    replace (Z.to_nat 2 - length data)%nat with 0%nat by lia. reflexivity. }
  destruct (Legacy.readField FTotalLength r1 sl) as [[data2|e] r2] eqn:E2; [|discriminate].
  apply (Legacy_readField_Ok_inv FTotalLength) in E2.
  rewrite Hr1 in E2.
  assert (Hb2 : Z.of_nat (Z.to_nat 2) + sl < defaultBufSize)
    by (unfold defaultBufSize; lia).
  rewrite (Legacy_readField_Ok FTotalLength FTotalLength _ _ _ _
             (readField_bufio_next_fwd FTotalLength r r2 (Z.to_nat 2) sl data2
                ltac:(lia) Hb2 E2)).
  apply readField_bytes_Ok in E2 as E2'; [|lia]. destruct E2' as [Hr2 [Hl2 _]].
  assert (Hr2' : r2 = skipn (Z.to_nat 2 + Z.to_nat sl) r).
  { rewrite Nat.add_comm, <- skipn_skipn, Hr2, skipn_app, skipn_all2 by lia.
    replace (Z.to_nat sl - length data2)%nat with 0%nat by lia. reflexivity. }
  destruct (Legacy.readField FTotalLength r2 sc) as [[data3|e] r3] eqn:E3; [|discriminate].
  apply (Legacy_readField_Ok_inv FTotalLength) in E3.
  rewrite Hr2' in E3.
  assert (Hb3 : Z.of_nat (Z.to_nat 2 + Z.to_nat sl) + sc < defaultBufSize)
    by (unfold defaultBufSize; lia).
  rewrite (Legacy_readField_Ok FTotalLength FTotalLength _ _ _ _
             (readField_bufio_next_fwd FTotalLength r r3 (Z.to_nat 2 + Z.to_nat sl) sc data3
                ltac:(lia) Hb3 E3)).
  apply readField_bytes_Ok in E3 as E3'; [|lia]. destruct E3' as [Hr3 [Hl3 _]].
  intros E. injection E as <- <-.
  eexists. split; [reflexivity|]. split; [reflexivity|].
  unfold unread. cbv beta iota delta [buf rd].
  rewrite unread_prefetched by (unfold defaultBufSize; lia).
  rewrite Nat.add_comm, <- skipn_skipn, Hr3, skipn_app, skipn_all2 by lia.
  replace (Z.to_nat sc - length data3)%nat with 0%nat by lia. reflexivity.
Qed.

(** ** The loop of v1 [ReadPacket] on encoded values *)

Lemma Legacy_ReadPacket_loop_unfold (fuel : nat) (payload : bytes_Reader)
    (payloadLength read : Z) (records : list Legacy.Record) :
  Legacy.ReadPacket_loop fuel payload payloadLength read records =
  if read <? payloadLength then
    match fuel with
    | O => None
    | S fuel' =>
        match Legacy.ReadRecord payload with
        | None => None
        | Some (Legacy.Error e, _) => Some (Legacy.Error e)
        | Some (Legacy.Ok record, payload') =>
            Legacy.ReadPacket_loop fuel' payload' payloadLength
                                   (int_add read (Legacy.size record)) (records ++ [record])
        end
    end
  else Some (Legacy.Ok records).
Proof. destruct fuel; reflexivity. Qed.

Lemma Legacy_ReadPacket_loop_encoded (payloadLength : Z) (values : list Legacy.value) :
  Forall legacy_representable values ->
  forall (fuel : nat) (read : Z) (records : list Legacy.Record),
    (length values <= fuel)%nat ->
    0 <= read ->
    read + Z.of_nat (length (concat (map legacy_encoding values))) = payloadLength ->
    payloadLength < 2 ^ 63 ->
    exists new,
      Legacy.ReadPacket_loop fuel (concat (map legacy_encoding values))
                             payloadLength read records
      = Some (Legacy.Ok (records ++ new)) /\
      Forall2 legacy_decodes_to values new.
Proof.
  induction 1 as [|v values Hv Hall IH]; intros fuel read records Hfuel Hread Hlen Hbig;
    rewrite Legacy_ReadPacket_loop_unfold; cbn [map concat] in *.
  - simpl length in Hlen.
    destruct (Z.ltb_spec read payloadLength); [lia|].
    exists []. rewrite app_nil_r. split; [reflexivity|constructor].
  - rewrite length_app in Hlen.
    assert (Hne : (1 <= length (legacy_encoding v))%nat).
    { apply legacy_encoding_nonempty. intros ->. exact Hv. }
    destruct (Z.ltb_spec read payloadLength); [|lia].
    destruct fuel as [|fuel]; [simpl length in Hfuel; lia|].
    destruct (Legacy_ReadRecord_encoding v (concat (map legacy_encoding values)) Hv)
      as [record [-> [Hd Hsz]]].
    rewrite int_add_small by lia.
    destruct (IH fuel (read + Legacy.size record) (records ++ [record]))
      as [new [-> Hnew]]; [simpl length in Hfuel; lia|lia|lia|lia|].
    exists (record :: new). rewrite <- app_assoc. split; [reflexivity|].
    constructor; assumption.
Qed.

(** ** Writing a packet into a buffer *)

(** A header and a payload sent through a [bufio.Writer] into a
    [bytes.Buffer] arrive there one after the other. *)
Lemma bufio_buffer_send (w : bytes_Buffer) (header payload : list byte) :
  header <> [] ->
  Z.of_nat (length header) <= defaultBufSize ->
  exists b1 b2 b3 : bufio_Writer bytes_Buffer,
    bufio_Write (bufio_NewWriter w) header = (None, b1) /\
    bufio_Write b1 payload = (None, b2) /\
    bufio_Flush b2 = (None, b3) /\
    wr b3 = w ++ header ++ payload.
Proof.
  intros Hne Hh.
  assert (HD : defaultBufSize = 4096) by reflexivity.
  destruct header as [|h0 header']; [contradiction|].
  exists (mkBufioW (h0 :: header') w None).
  rewrite bufio_Write_first by exact Hh.
  unfold bufio_Write. cbn [werr wbuf wr].
  destruct (Z.leb_spec (Z.of_nat (length payload))
                       (defaultBufSize - Z.of_nat (length (h0 :: header')))) as [Hfit|Hbig].
  - eexists. eexists. split; [reflexivity|]. split; [reflexivity|].
    unfold bufio_Flush. cbn [werr wbuf wr app].
    unfold Write, bytes_Buffer_Writer. split; reflexivity.
  - cbv iota.
    remember (Z.to_nat (defaultBufSize - Z.of_nat (length (h0 :: header')))) as k eqn:Ek.
    assert (Hkl : (k < length payload)%nat) by lia.
    unfold bufio_Flush at 1. cbn [werr wbuf wr app].
    unfold Write at 1, bytes_Buffer_Writer at 1. cbn [wr]. cbv zeta.
    assert (Hsk : (0 < length (skipn k payload))%nat) by (rewrite length_skipn; lia).
    assert (Hall : (w ++ h0 :: header' ++ firstn k payload) ++ skipn k payload
                   = w ++ (h0 :: header') ++ payload).
    { cbn [app]. rewrite <- !app_assoc. cbn [app]. rewrite <- app_assoc, firstn_skipn.
      reflexivity. }
    destruct (skipn k payload) as [|s0 rest'] eqn:Es; [simpl length in Hsk; lia|].
    destruct (Z.leb_spec (Z.of_nat (length (s0 :: rest'))) defaultBufSize).
    + eexists. eexists. split; [reflexivity|]. split; [reflexivity|].
      unfold bufio_Flush. cbn [werr wbuf wr].
      unfold Write, bytes_Buffer_Writer. split; [reflexivity|exact Hall].
    + unfold Write, bytes_Buffer_Writer.
      eexists. eexists. split; [reflexivity|]. split; [reflexivity|].
      unfold bufio_Flush. cbn [werr wbuf wr]. split; [reflexivity|exact Hall].
Qed.

(** [WritePacket] into a buffer, for values of the types it accepts and a
    payload below 2^31 bytes. *)
Lemma Legacy_WritePacket_buffer (w : bytes_Buffer) (values : list Legacy.value)
    (rand_Int63 : Z) :
  Forall (fun v => v <> Legacy.VOther) values ->
  let payload := concat (map legacy_encoding values) in
  let cookie := wrap_uint32 rand_Int63 in
  Z.of_nat (length payload) < 2 ^ 31 ->
  exists k : nat,
    (k = 1 \/ k = 2 \/ k = 4)%nat /\
    Z.of_nat (length payload) < 256 ^ Z.of_nat k /\
    Legacy.WritePacket w values rand_Int63
    = (Legacy.Ok (be_bytes 4 cookie),
       w ++ (Byte.xa1 :: byte_of_Z (Z.of_nat k * 4 - 1)
               :: be_bytes k (Z.of_nat (length payload)) ++ be_bytes 4 cookie) ++ payload).
Proof.
  intros Hall payload cookie Hlen.
  destruct (Legacy_WritePacket_header_cases (Z.of_nat (length payload)) cookie
              ltac:(lia)) as [k [data [Eg [Hk [Hlt Hh]]]]].
  exists k. split; [exact Hk|]. split; [exact Hlt|].
  unfold Legacy.WritePacket.
  rewrite (Legacy_WritePacket_loop_encoding values Hall []). cbn [app].
  fold payload. fold cookie. rewrite Eg.
  destruct (Z.ltb_spec 4 (Z.of_nat k)); [lia|].
  cbv zeta. rewrite Hh.
  set (header := Byte.xa1 :: byte_of_Z (Z.of_nat k * 4 - 1)
                   :: be_bytes k (Z.of_nat (length payload)) ++ be_bytes 4 cookie).
  destruct (bufio_buffer_send w header payload) as [b1 [b2 [b3 [E1 [E2 [E3 Hw]]]]]].
  - discriminate.
  - unfold header. cbn [length]. rewrite length_app, !be_bytes_length.
    unfold defaultBufSize. lia.
  - rewrite E1, E2, E3, Hw. reflexivity.
Qed.

(** X29: The packet round trip of v1.  For values that v1 carries
    faithfully (none at all is fine) and a payload below 2^31 bytes,
    [WritePacket] into a buffer returns the cookie as four bytes, and
    [ReadPacket] of the bytes written, with that cookie, returns one record
    per value, in order, with the value's type and the value itself, and uses
    up the stream; this for every cookie drawn. *)
Theorem Legacy_WritePacket_ReadPacket (values : list Legacy.value) (rand_Int63 : Z) :
  Forall legacy_representable values ->
  Z.of_nat (length (concat (map legacy_encoding values))) < 2 ^ 31 ->
  exists (cookie : list byte) (packet : bytes_Reader) (records : list Legacy.Record)
         (b : bufio_Reader bytes_Reader),
    Legacy.WritePacket ([] : bytes_Buffer) values rand_Int63 = (Legacy.Ok cookie, packet) /\
    length cookie = 4%nat /\
    Legacy.ReadPacket packet (Some cookie) = Some (Legacy.Ok records, b) /\
    unread b = [] /\
    Forall2 legacy_decodes_to values records.
Proof.
  intros Hall Hlen.
  assert (Hno : Forall (fun v => v <> Legacy.VOther) values).
  { apply (Forall_impl _ (P := legacy_representable)); [|exact Hall].
    intros v Hv ->. exact Hv. }
  destruct (Legacy_WritePacket_buffer [] values rand_Int63 Hno Hlen)
    as [k [Hk [Hlt Hw]]].
  cbn [app] in Hw.
  set (payload := concat (map legacy_encoding values)) in *.
  set (cookie := wrap_uint32 rand_Int63) in *.
  pose proof (Legacy_ReadHeader_written k (Z.of_nat (length payload)) cookie payload Hk
                ltac:(lia)) as Hh.
  set (packet := (Byte.xa1 :: byte_of_Z (Z.of_nat k * 4 - 1)
                    :: be_bytes k (Z.of_nat (length payload)) ++ be_bytes 4 cookie
                    ++ payload) : bytes_Reader) in *.
  destruct (Legacy_ReadHeader_bufio_of_bytes _ _ _ Hh) as [b0 [Hb0 [Herr0 Hun0]]].
  destruct (ReadFull_enough b0 (Z.of_nat (length payload)) ltac:(lia) Herr0
              ltac:(rewrite Hun0; lia)) as [b1 [Hfull [Hun1 Herr1]]].
  rewrite Hun0, Nat2Z.id, firstn_all in Hfull. rewrite Hun0, Nat2Z.id, skipn_all in Hun1.
  destruct (Legacy_ReadPacket_loop_encoded (Z.of_nat (length payload)) values Hall
              (S (length payload)) 0 []) as [records [Hrec Hdec]].
  { pose proof (concat_legacy_encoding_length values Hno). fold payload in H. lia. }
  { lia. }
  { fold payload. lia. }
  { lia. }
  fold payload in Hrec. cbn [app] in Hrec.
  exists (be_bytes 4 cookie), packet, records, b1.
  split.
  { rewrite Hw. unfold packet. cbn [app]. rewrite <- app_assoc. reflexivity. }
  split; [apply be_bytes_length|].
  split; [|split; assumption].
  unfold Legacy.ReadPacket. rewrite Hb0. cbn [Legacy.Cookie Legacy.PayloadLength].
  rewrite string_eqb_refl. cbn [negb].
  rewrite Hfull, Hrec. reflexivity.
Qed.

Lemma Legacy_WritePacket_ReadPacket_witness :
  exists (cookie : list byte) (packet : bytes_Reader) (records : list Legacy.Record)
         (b : bufio_Reader bytes_Reader),
    Legacy.WritePacketString ([] : bytes_Buffer) (str "tm.stats") 0x6f8da297
    = (Legacy.Ok cookie, packet) /\
    length cookie = 4%nat /\
    Legacy.ReadPacket packet (Some cookie) = Some (Legacy.Ok records, b) /\
    unread b = [] /\
    Forall2 legacy_decodes_to [Legacy.VString (str "tm.stats")] records.
Proof.
  apply (Legacy_WritePacket_ReadPacket [Legacy.VString (str "tm.stats")] 0x6f8da297).
  - constructor; [|constructor]. cbn. lia.
  - vm_compute. reflexivity.
Defined.

(** The packet of the v3 tests, written by v1. *)
Example Legacy_TestWritePacket :
  Legacy.WritePacketString ([] : bytes_Buffer) (str "tm.stats") 0x6f8da297
  = (Legacy.Ok (hex "6f8da297"), hex "a1030b6f8da2979109746d2e737461747300").
Proof. vm_compute. reflexivity. Qed.

